(** * Entity/component runtime: GameObject, ComponentBase and ObjectManager

    A shallow embedding of [Component.hpp] and [ObjectManager.hpp].

    Conventions of the embedding.
    - A [std::shared_ptr<X>] is an [option] of the address of an [X]
      ([None] is [nullptr]); a [std::weak_ptr<X>] is an [option] too
      ([None] is the empty reference).
    - Heap objects live in a [World]: the GameObjects, each with the use
      count of the [shared_ptr]s that own it, the components, and the
      trace of the hook calls dispatched so far.  The hooks are virtual,
      and every dispatch is recorded in the trace.  [call_hook] is the
      call of a hook whose body does not act on the core: those of
      [ComponentBase] (empty) and those of the sample components that
      print or move the component (all but one).  The one that acts,
      [PlayerInputSimulatorComponent::OnUpdate], is embedded as such, and
      [Sample.Update] is [GameObject::Update] with the virtual call
      resolved by the dynamic type.
    - A method is a computation [M A := World -> option (A * World)];
      [None] stands for undefined behaviour (a null or dangling
      dereference).
    - [std::unordered_map] is a [gmap]; its iteration order is not
      specified, the model iterates in the order of [map_to_list].
    - A [std::string_view] is a [string_view]: the character array that
      its pointer designates, and its length.  [ObjectManager] reads its
      [string_view] arguments through [.data()] only, as C strings:
      [CreateObjName], [GenerateObject] and [GetObject] are given on that
      C string, and [CreateObjName_view], [GenerateObject_view] and
      [GetObject_view] on the view.
    - Console output is left out.  The store of the components keeps
      the [ComponentBase] part of every component made; when a component
      is destroyed (with its last [shared_ptr]) is not tracked, and no
      statement depends on it. *)

From stdpp Require Import gmap strings list fin_maps pretty.

(** ** Addresses, hooks and the trace *)

Abbreviation ObjId := nat (only parsing).
Abbreviation CompId := nat (only parsing).

(** The virtual functions of [ComponentBase]. *)
Inductive Hook := OnStart | OnPreUpdate | OnUpdate | OnPostUpdate | OnRelease.

#[global] Instance Hook_eq_dec : EqDecision Hook.
Proof. solve_decision. Defined.

(** One dispatch: which hook, on which component. *)
Abbreviation Event := (Hook * nat)%type (only parsing).

(** ** The objects *)

(** [ComponentBase]: the dynamic type of the object and [m_wpOwner]. *)
Record ComponentBase (TypeId : Type) := mkComponentBase {
  dyn_type : TypeId;
  m_wpOwner : option ObjId;
}.
Arguments mkComponentBase {TypeId}.
Arguments dyn_type {TypeId}.
Arguments m_wpOwner {TypeId}.

(** The data members of [GameObject]. *)
Record GameObject := mkGameObject {
  m_isCalledUpdate : bool;
  m_isActive : bool;
  m_name : string;
  m_umNameToComp : gmap string (option CompId);
}.

(** The data members of [ObjectManager].  A list iterator stored in
    [m_umNameToObjPtr] is identified with the [shared_ptr] held by the node
    it designates: [GenerateObject] makes one node per new entity and a
    node is never assigned again. *)
Record ObjectManager := mkObjectManager {
  m_umNameToObjPtr : gmap string (option ObjId);
  m_lObjects : list (option ObjId);
}.

(** What [std::make_shared<GameObject>] allocates: the control block with
    the number of owning [shared_ptr]s, and the object. *)
Record Managed := mkManaged {
  use_count : positive;
  managed : GameObject;
}.

Record World (TypeId : Type) := mkWorld {
  objects : gmap ObjId Managed;
  components : gmap CompId (ComponentBase TypeId);
  next_obj : ObjId;
  next_comp : CompId;
  trace : list Event;
}.
Arguments mkWorld {TypeId}.
Arguments objects {TypeId}.
Arguments components {TypeId}.
Arguments next_obj {TypeId}.
Arguments next_comp {TypeId}.
Arguments trace {TypeId}.

(** A default-constructed [ObjectManager] in a world with no object. *)
Definition empty_manager : ObjectManager := mkObjectManager ∅ [].
Definition empty_world {TypeId} : World TypeId := mkWorld ∅ ∅ 0 0 [].

(** ** Field updates *)

Definition set_isCalledUpdate (b : bool) (g : GameObject) : GameObject :=
  mkGameObject b (m_isActive g) (m_name g) (m_umNameToComp g).
Definition set_isActive (b : bool) (g : GameObject) : GameObject :=
  mkGameObject (m_isCalledUpdate g) b (m_name g) (m_umNameToComp g).
Definition set_name (s : string) (g : GameObject) : GameObject :=
  mkGameObject (m_isCalledUpdate g) (m_isActive g) s (m_umNameToComp g).
Definition set_umNameToComp (m : gmap string (option CompId)) (g : GameObject)
  : GameObject :=
  mkGameObject (m_isCalledUpdate g) (m_isActive g) (m_name g) m.
Definition set_managed (g : GameObject) (c : Managed) : Managed :=
  mkManaged (use_count c) g.
Definition set_use_count (n : positive) (c : Managed) : Managed :=
  mkManaged n (managed c).

Definition set_objects {TypeId} (f : gmap ObjId Managed → gmap ObjId Managed)
  (w : World TypeId) : World TypeId :=
  mkWorld (f (objects w)) (components w) (next_obj w) (next_comp w) (trace w).
Definition set_components {TypeId}
  (f : gmap CompId (ComponentBase TypeId) → gmap CompId (ComponentBase TypeId))
  (w : World TypeId) : World TypeId :=
  mkWorld (objects w) (f (components w)) (next_obj w) (next_comp w) (trace w).
Definition set_trace {TypeId} (f : list Event → list Event)
  (w : World TypeId) : World TypeId :=
  mkWorld (objects w) (components w) (next_obj w) (next_comp w) (f (trace w)).

(** The world after a write to the object at [o], and after the hook
    calls [evs]. *)
Definition store_obj {TypeId} (o : ObjId) (g : GameObject) (w : World TypeId)
  : World TypeId :=
  set_objects (alter (set_managed g) o) w.
Definition log_events {TypeId} (evs : list Event) (w : World TypeId)
  : World TypeId :=
  set_trace (λ t, t ++ evs) w.

(** ** The monad of methods *)

Section Monad.
Context {TypeId : Type}.

Definition M (A : Type) : Type := World TypeId → option (A * World TypeId).

Definition ret {A} (a : A) : M A := λ w, Some (a, w).

Definition bind {A B} (m : M A) (f : A → M B) : M B :=
  λ w, match m w with
       | Some (a, w') => f a w'
       | None => None
       end.

(** Undefined behaviour. *)
Definition undefined {A} : M A := λ _, None.

(** Reading and writing the GameObject at an address. *)
Definition get_obj (o : ObjId) : M GameObject :=
  λ w, match objects w !! o with
       | Some c => Some (managed c, w)
       | None => None
       end.

Definition put_obj (o : ObjId) (g : GameObject) : M unit :=
  λ w, Some (tt, store_obj o g w).

(** Calling hook [h] on component [c], for a hook whose body does not
    act on the core: the call is recorded. *)
Definition call_hook (h : Hook) (c : CompId) : M unit :=
  λ w, Some (tt, log_events [(h, c)] w).

(** Dereferencing a [shared_ptr]. *)
Definition deref {A} (sp : option A) : M A :=
  match sp with
  | Some a => ret a
  | None => undefined
  end.

End Monad.
Arguments M : clear implicits.

Notation "x <- m ;; k" := (bind m (λ x, k))
  (at level 100, m at next level, right associativity, only parsing).
Notation "m ;; k" := (bind m (λ _, k))
  (at level 100, right associativity, only parsing).

(** ** ComponentBase and GameObject (Component.hpp) *)

Module GameObject.
Section methods.
Context {TypeId : Type}.

(** [typeid(CompType).name()]: the string is implementation-defined. *)
Variable type_name : TypeId → string.

(** [dynamic_cast_ok D B]: a [dynamic_pointer_cast<B>] of a pointer to an
    object whose dynamic type is [D] succeeds ([D] is [B] or derives from
    it). *)
Variable dynamic_cast_ok : TypeId → TypeId → bool.

(** [ComponentBase::SetOwner]. *)
Definition SetOwner (c : CompId) (a_spOwner : option ObjId) : M TypeId unit :=
  λ w : World TypeId,
    match components w !! c with
    | Some cb =>
        Some (tt, set_components
                    (<[c := mkComponentBase (dyn_type cb) a_spOwner]>) w)
    | None => None
    end.

(** [ComponentBase::GetOwner]. *)
Definition GetOwner (c : CompId) : M TypeId (option ObjId) :=
  λ w : World TypeId,
    match components w !! c with
    | Some cb => Some (m_wpOwner cb, w)
    | None => None
    end.

(** [std::weak_ptr<GameObject>::lock]: empty once the object is gone. *)
Definition lock (wp : option ObjId) : M TypeId (option ObjId) :=
  λ w : World TypeId,
    match wp with
    | Some o => Some (if objects w !! o is Some _ then Some o else None, w)
    | None => Some (None, w)
    end.

(** [shared_from_this()]: the objects of the world are all owned by
    [shared_ptr]s. *)
Definition shared_from_this (this : ObjId) : M TypeId (option ObjId) :=
  _ <- get_obj (TypeId := TypeId) this ;; ret (Some this).

(** [std::make_shared<CompType>(args...)]. *)
Definition make_shared (T : TypeId) : M TypeId CompId :=
  λ w : World TypeId,
    let c := next_comp w in
    Some (c, mkWorld (objects w) (<[c := mkComponentBase T None]> (components w))
               (next_obj w) (S c) (trace w)).

(** [std::dynamic_pointer_cast<CompType>]. *)
Definition dynamic_pointer_cast (T : TypeId) (c : CompId) : M TypeId (option CompId) :=
  λ w : World TypeId,
    match components w !! c with
    | Some cb => Some (if dynamic_cast_ok (dyn_type cb) T then Some c else None, w)
    | None => None
    end.

(** [for (auto& pair : m_umNameToComp) if (pair.second) pair.second->h();] *)
Fixpoint for_each (l : list (string * option CompId)) (h : Hook) : M TypeId unit :=
  match l with
  | [] => ret (TypeId := TypeId) tt
  | (_, Some c) :: l' => call_hook h c ;; for_each l' h
  | (_, None) :: l' => for_each l' h
  end.

(** [void AddComponent(std::shared_ptr<ComponentBase>, std::string_view)]. *)
Definition AddComponent (this : ObjId) (a_spComponent : option CompId)
  (a_name : string) : M TypeId unit :=
  c <- deref a_spComponent ;;
  owner <- shared_from_this this ;;
  SetOwner c owner ;;
  g <- get_obj this ;;
  put_obj this
    (set_umNameToComp (<[a_name := a_spComponent]> (m_umNameToComp g)) g).

(** [void RemoveComponent(std::string_view)]. *)
Definition RemoveComponent (this : ObjId) (a_compName : string) : M TypeId unit :=
  g <- get_obj this ;;
  match m_umNameToComp g !! a_compName with
  | None => ret tt
  | Some None => ret tt
  | Some (Some c) =>
      call_hook OnRelease c ;;
      g' <- get_obj this ;;
      put_obj this (set_umNameToComp (delete a_compName (m_umNameToComp g')) g')
  end.

(** [std::weak_ptr<ComponentBase> GetComponent(std::string_view)]. *)
Definition GetComponent (this : ObjId) (a_name : string)
  : M TypeId (option CompId) :=
  g <- get_obj this ;;
  match m_umNameToComp g !! a_name with
  | None => ret None
  | Some sp => ret sp
  end.

(** [std::weak_ptr<CompType> AddComponent<CompType>(args...)]. *)
Definition AddComponent_typed (this : ObjId) (CompType : TypeId)
  : M TypeId (option CompId) :=
  spNewComp <- make_shared CompType ;;
  owner <- shared_from_this this ;;
  SetOwner spNewComp owner ;;
  g <- get_obj this ;;
  put_obj this
    (set_umNameToComp (<[type_name CompType := Some spNewComp]> (m_umNameToComp g)) g) ;;
  ret (Some spNewComp).

(** [void RemoveComponent<CompType>()]. *)
Definition RemoveComponent_typed (this : ObjId) (CompType : TypeId)
  : M TypeId unit :=
  let compName := type_name CompType in
  g <- get_obj this ;;
  match m_umNameToComp g !! compName with
  | None => ret tt
  | Some None => ret tt
  | Some (Some c) =>
      call_hook OnRelease c ;;
      g' <- get_obj this ;;
      put_obj this (set_umNameToComp (delete compName (m_umNameToComp g')) g')
  end.

(** [std::weak_ptr<CompType> GetComponent<CompType>()]. *)
Definition GetComponent_typed (this : ObjId) (CompType : TypeId)
  : M TypeId (option CompId) :=
  g <- get_obj this ;;
  match m_umNameToComp g !! type_name CompType with
  | None => ret None
  | Some None => ret None
  | Some (Some c) => dynamic_pointer_cast CompType c
  end.

Definition SetActive (this : ObjId) (a_isActive : bool) : M TypeId unit :=
  g <- get_obj this ;;
  put_obj this (set_isActive a_isActive g).

Definition IsActive (this : ObjId) : M TypeId bool :=
  g <- get_obj this ;; ret (m_isActive g).

Definition GetName (this : ObjId) : M TypeId string :=
  g <- get_obj this ;; ret (m_name g).

Definition SetName (this : ObjId) (a_name : string) : M TypeId unit :=
  g <- get_obj this ;;
  put_obj this (set_name a_name g).

Definition PreUpdate (this : ObjId) : M TypeId unit :=
  g <- get_obj this ;;
  if negb (m_isActive g) then ret tt
  else
    (if negb (m_isCalledUpdate g) then
       for_each (map_to_list (m_umNameToComp g)) OnStart ;;
       g1 <- get_obj this ;;
       put_obj this (set_isCalledUpdate true g1)
     else ret tt) ;;
    g2 <- get_obj this ;;
    for_each (map_to_list (m_umNameToComp g2)) OnPreUpdate.

Definition Update (this : ObjId) : M TypeId unit :=
  g <- get_obj this ;;
  if negb (m_isActive g) then ret tt
  else for_each (map_to_list (m_umNameToComp g)) OnUpdate.

Definition PostUpdate (this : ObjId) : M TypeId unit :=
  g <- get_obj this ;;
  if negb (m_isActive g) then ret tt
  else for_each (map_to_list (m_umNameToComp g)) OnPostUpdate.

(** [~GameObject()]. *)
Definition destructor (this : ObjId) : M TypeId unit :=
  g <- get_obj this ;;
  for_each (map_to_list (m_umNameToComp g)) OnRelease ;;
  g' <- get_obj this ;;
  put_obj this (set_umNameToComp ∅ g').

(** [std::make_shared<GameObject>()]: a default-constructed object with
    one owner. *)
Definition make_shared_GameObject : M TypeId ObjId :=
  λ w : World TypeId,
    let o := next_obj w in
    Some (o, mkWorld
               (<[o := mkManaged 1 (mkGameObject false false EmptyString ∅)]>
                  (objects w))
               (components w) (S o) (next_comp w) (trace w)).

(** Copying a [shared_ptr<GameObject>]: one more owner. *)
Definition shared_ptr_copy (sp : option ObjId) : M TypeId unit :=
  match sp with
  | None => ret tt
  | Some o =>
      λ w : World TypeId,
        match objects w !! o with
        | Some c =>
            Some (tt, set_objects (<[o := set_use_count (Pos.succ (use_count c)) c]>) w)
        | None => None
        end
  end.

(** Destroying (or resetting) a [shared_ptr<GameObject>]: the last owner
    runs the destructor and frees the object. *)
Definition shared_ptr_release (sp : option ObjId) : M TypeId unit :=
  match sp with
  | None => ret tt
  | Some o =>
      λ w : World TypeId,
        match objects w !! o with
        | Some c =>
            match use_count c with
            | xH => (destructor o ;; λ w', Some (tt, set_objects (delete o) w')) w
            | n => Some (tt, set_objects (<[o := set_use_count (Pos.pred n) c]>) w)
            end
        | None => None
        end
  end.

End methods.
End GameObject.

(** ** std::string_view *)

(** A [std::string_view]: [sv_array] is the character array from the
    view's pointer to the end of the array that it points into, and
    [sv_size] the length of the view. *)
Record string_view := mk_string_view {
  sv_array : string;
  sv_size : nat;
}.

(** The character that ends a C string. *)
Definition NUL : Ascii.ascii := Ascii.zero.

(** The characters of the view: what [std::string(a_name)] is. *)
Definition sv_text (v : string_view) : string :=
  String.substring 0 (sv_size v) (sv_array v).

(** The C string that starts with the array [s]: it ends before the first
    [NUL]; reading an array that has none runs past its end. *)
Fixpoint c_str (s : string) : option string :=
  match s with
  | EmptyString => None
  | String a s' => if Ascii.eqb a NUL then Some EmptyString
                   else String a <$> c_str s'
  end.

(** [.data()] read as a C string, as in [std::string(a_name.data())] and
    [a_name.data() + std::to_string(i)]. *)
Definition sv_data (v : string_view) : option string := c_str (sv_array v).

(** The view of a string literal, or of a [std::string]: the array is the
    string and its terminating [NUL]. *)
Definition literal (s : string) : string_view :=
  mk_string_view (s +:+ String NUL EmptyString) (String.length s).

(** The view of the first [n] characters of another view:
    [v.substr(0, n)]. *)
Definition prefix_view (n : nat) (v : string_view) : string_view :=
  mk_string_view (sv_array v) (n `min` sv_size v).

(** No [NUL] among the characters of [s]. *)
Fixpoint NUL_free (s : string) : bool :=
  match s with
  | EmptyString => true
  | String a s' => negb (Ascii.eqb a NUL) && NUL_free s'
  end.

(** ** ObjectManager (ObjectManager.hpp) *)

Module ObjectManager.
Section methods.
Context {TypeId : Type}.

(** [++i] on a [size_t] (64 bits). *)
Definition size_t_incr (i : N) : N := (N.succ i `mod` 2 ^ 64)%N.

(** The loop of [CreateObjName], from the state it has when the [for]
    statement is entered.  One unit of fuel is one evaluation of the loop
    body. *)
Fixpoint CreateObjName_loop (names : gmap string (option ObjId))
  (a_baseName : string) (fuel : nat) (i : N) (isFirstName : bool)
  (resultName : string) : option string :=
  match fuel with
  | 0 => None
  | S fuel' =>
      if isFirstName then Some resultName
      else
        let resultName := a_baseName +:+ pretty i in
        let isFirstName :=
          if names !! resultName is None then true else isFirstName in
        CreateObjName_loop names a_baseName fuel' (size_t_incr i)
          isFirstName resultName
  end.

(** [std::string CreateObjName(std::string_view)], on the C string
    [a_baseName] that it reads at [a_baseName.data()].  The loop tries one
    name per registered name at most, and one more. *)
Definition CreateObjName (this : ObjectManager) (a_baseName : string)
  : option string :=
  let resultName := EmptyString in
  let isFirstName := false in
  let isFirstName :=
    if m_umNameToObjPtr this !! a_baseName is None then true
    else isFirstName in
  CreateObjName_loop (m_umNameToObjPtr this) a_baseName
    (S (S (size (m_umNameToObjPtr this)))) 1%N isFirstName resultName.

(** [std::shared_ptr<GameObject> GenerateObject(std::string_view)], on
    the C string [a_name] that [CreateObjName] reads at [a_name.data()].
    The returned [shared_ptr] belongs to the caller. *)
Definition GenerateObject (this : ObjectManager) (a_name : string)
  : M TypeId (option ObjId * ObjectManager) :=
  spNewObject <- GameObject.make_shared_GameObject ;;
  objName <- deref (CreateObjName this a_name) ;;
  GameObject.SetName spNewObject objName ;;
  GameObject.SetActive spNewObject true ;;
  GameObject.shared_ptr_copy (Some spNewObject) ;;
  ret (Some spNewObject,
       mkObjectManager
         (<[objName := Some spNewObject]> (m_umNameToObjPtr this))
         (m_lObjects this ++ [Some spNewObject])).

(** [std::weak_ptr<GameObject> GetObject(std::string_view)], on the C
    string [a_name] that it reads at [a_name.data()]. *)
Definition GetObject (this : ObjectManager) (a_name : string)
  : M TypeId (option ObjId * ObjectManager) :=
  match m_umNameToObjPtr this !! a_name with
  | None => ret (None, this)
  | Some None => ret (None, this)
  | Some (Some o) => ret (Some o, this)
  end.

(** The loop of [RemoveUnActuveObjects] over the nodes from [itr] on;
    it returns the nodes that stay and the name index. *)
Fixpoint RemoveUnActuveObjects_loop (l : list (option ObjId))
  (names : gmap string (option ObjId))
  : M TypeId (list (option ObjId) * gmap string (option ObjId)) :=
  match l with
  | [] => ret ([], names)
  | sp :: rest =>
      remove <- match sp with
                | None => ret true
                | Some o => b <- GameObject.IsActive o ;; ret (negb b)
                end ;;
      if (remove : bool) then
        names' <- match sp with
                  | Some o => n <- GameObject.GetName o ;; ret (delete n names)
                  | None => ret names
                  end ;;
        GameObject.shared_ptr_release sp ;;
        RemoveUnActuveObjects_loop rest names'
      else
        r <- RemoveUnActuveObjects_loop rest names ;;
        ret (sp :: r.1, r.2)
  end.

Definition RemoveUnActuveObjects (this : ObjectManager)
  : M TypeId (unit * ObjectManager) :=
  r <- RemoveUnActuveObjects_loop (m_lObjects this) (m_umNameToObjPtr this) ;;
  ret (tt, mkObjectManager r.2 r.1).

Definition Update (this : ObjectManager) : M TypeId (unit * ObjectManager) :=
  RemoveUnActuveObjects this.

(** [m_lObjects.clear()]: the nodes are destroyed from the front. *)
Fixpoint clear_list (l : list (option ObjId)) : M TypeId unit :=
  match l with
  | [] => ret tt
  | sp :: rest => GameObject.shared_ptr_release sp ;; clear_list rest
  end.

(** [void ReleaseAllObjects()] (its first loop only prints). *)
Definition ReleaseAllObjects (this : ObjectManager)
  : M TypeId (unit * ObjectManager) :=
  clear_list (m_lObjects this) ;;
  ret (tt, mkObjectManager ∅ []).



(** The three functions that take a [std::string_view], on the view:
    each reads [.data()] as a C string, whatever the length of the view.
    [find(a_baseName.data())] is the first statement of [CreateObjName]
    that reads it, [find(a_name.data())] the first of [GetObject]. *)
Definition CreateObjName_view (this : ObjectManager) (a_baseName : string_view)
  : option string :=
  match sv_data a_baseName with
  | Some base => CreateObjName this base
  | None => None
  end.

Definition GenerateObject_view (this : ObjectManager) (a_name : string_view)
  : M TypeId (option ObjId * ObjectManager) :=
  match sv_data a_name with
  | Some name => GenerateObject this name
  | None => undefined
  end.

Definition GetObject_view (this : ObjectManager) (a_name : string_view)
  : M TypeId (option ObjId * ObjectManager) :=
  match sv_data a_name with
  | Some name => GetObject this name
  | None => undefined
  end.

End methods.
End ObjectManager.

(** ** The sample components (SampleComponents.hpp) *)

Inductive SampleType :=
  | TComponentBase
  | TTransformComponent
  | TRendererComponent
  | TPlayerInputSimulatorComponent.

(** [typeid(T).name()] as the Itanium C++ ABI gives it. *)
Definition sample_type_name (T : SampleType) : string :=
  match T with
  | TComponentBase => "13ComponentBase"%string
  | TTransformComponent => "18TransformComponent"%string
  | TRendererComponent => "17RendererComponent"%string
  | TPlayerInputSimulatorComponent => "29PlayerInputSimulatorComponent"%string
  end.

(** Each sample component derives from [ComponentBase] only. *)
Definition sample_dynamic_cast_ok (D B : SampleType) : bool :=
  match D, B with
  | _, TComponentBase => true
  | TTransformComponent, TTransformComponent => true
  | TRendererComponent, TRendererComponent => true
  | TPlayerInputSimulatorComponent, TPlayerInputSimulatorComponent => true
  | _, _ => false
  end.

(** [PlayerInputSimulatorComponent]: its two [int] members, and
    [OnUpdate], the one hook of the sample components that acts on the
    core.  The members are kept beside the world, which holds the
    [ComponentBase] part of the object. *)
Module PlayerInputSimulatorComponent.

Record t := mk {
  frame_to_deactivate : Z;
  current_frame : Z;
}.

(** The largest [int] (32 bits). *)
Definition INT_MAX : Z := (2 ^ 31 - 1)%Z.

(** [PlayerInputSimulatorComponent(int deactivate_at_frame)]. *)
Definition constructor (deactivate_at_frame : Z) : t := mk deactivate_at_frame 0.

Section methods.
Context {TypeId : Type}.

(** [current_frame++]: overflow of an [int] is undefined. *)
Definition increment (i : Z) : M TypeId Z :=
  if (i <? INT_MAX)%Z then ret (i + 1)%Z else undefined.

(** [void OnUpdate()].  [GetOwner().lock()] is an owner of the entity
    until the function returns. *)
Definition OnUpdate (this : CompId) (st : t) : M TypeId t :=
  frame <- increment (current_frame st) ;;
  let st' := mk (frame_to_deactivate st) frame in
  wp <- GameObject.GetOwner this ;;
  owner_sp <- GameObject.lock wp ;;
  GameObject.shared_ptr_copy owner_sp ;;
  match owner_sp with
  | None => ret st'
  | Some o =>
      (if (frame_to_deactivate st <=? frame)%Z then
         active <- GameObject.IsActive o ;;
         if (active : bool) then GameObject.SetActive o false else ret tt
       else ret tt) ;;
      GameObject.shared_ptr_release owner_sp ;;
      ret st'
  end.

(** [OnUpdate] called [n] times in a row. *)
Fixpoint OnUpdate_times (n : nat) (this : CompId) (st : t) : M TypeId t :=
  match n with
  | 0 => ret st
  | S n' => st' <- OnUpdate this st ;; OnUpdate_times n' this st'
  end.

End methods.
End PlayerInputSimulatorComponent.

(** ** Vocabulary of the properties *)

(** The non-null components of a component map, in iteration order. *)
Definition attached (m : gmap string (option CompId)) : list CompId :=
  omap snd (map_to_list m).

(** The calls that one loop over the component map dispatches. *)
Definition dispatches (h : Hook) (m : gmap string (option CompId))
  : list Event :=
  pair h <$> attached m.

(** Component [c] is stored in [m], under one key only. *)
Definition stored_once (m : gmap string (option CompId)) (c : CompId) : Prop :=
  ∃ key, m !! key = Some (Some c) ∧
         ∀ key', m !! key' = Some (Some c) → key' = key.

(** How many times hook [h] was called on component [c] in a trace. *)
Definition calls_of (h : Hook) (c : CompId) (t : list Event) : nat :=
  length (filter (λ e, e = (h, c)) t).

(** The name that [CreateObjName] tries with the suffix [j]:
    [a_baseName.data() + std::to_string(j)]. *)
Definition candidate (a_baseName : string) (j : nat) : string :=
  a_baseName +:+ pretty (N.of_nat j).

(** What a run returned, and the trace of hook calls it left. *)
Definition outcome {TypeId A} (r : option (A * World TypeId))
  : option (A * list Event) :=
  (λ x, (x.1, trace x.2)) <$> r.

(** The public interface of a GameObject, as data. *)
Inductive Call (TypeId : Type) :=
  | CallAddComponent (a_spComponent : option CompId) (a_name : string)
  | CallAddComponent_typed (CompType : TypeId)
  | CallRemoveComponent (a_compName : string)
  | CallRemoveComponent_typed (CompType : TypeId)
  | CallGetComponent (a_name : string)
  | CallGetComponent_typed (CompType : TypeId)
  | CallSetActive (a_isActive : bool)
  | CallIsActive
  | CallGetName
  | CallPreUpdate
  | CallUpdate
  | CallPostUpdate.
Arguments CallAddComponent {TypeId}.
Arguments CallAddComponent_typed {TypeId}.
Arguments CallRemoveComponent {TypeId}.
Arguments CallRemoveComponent_typed {TypeId}.
Arguments CallGetComponent {TypeId}.
Arguments CallGetComponent_typed {TypeId}.
Arguments CallSetActive {TypeId}.
Arguments CallIsActive {TypeId}.
Arguments CallGetName {TypeId}.
Arguments CallPreUpdate {TypeId}.
Arguments CallUpdate {TypeId}.
Arguments CallPostUpdate {TypeId}.

(** The three phase methods. *)
Definition is_phase {TypeId} (c : Call TypeId) : bool :=
  match c with
  | CallPreUpdate | CallUpdate | CallPostUpdate => true
  | _ => false
  end.

Section Calls.
Context {TypeId : Type}.
Variable type_name : TypeId → string.
Variable dynamic_cast_ok : TypeId → TypeId → bool.

(** One call on the GameObject at [this]; the result is dropped. *)
Definition call (this : ObjId) (c : Call TypeId) : M TypeId unit :=
  match c with
  | CallAddComponent sp key => GameObject.AddComponent this sp key
  | CallAddComponent_typed T =>
      GameObject.AddComponent_typed type_name this T ;; ret tt
  | CallRemoveComponent key => GameObject.RemoveComponent this key
  | CallRemoveComponent_typed T =>
      GameObject.RemoveComponent_typed type_name this T
  | CallGetComponent key => GameObject.GetComponent this key ;; ret tt
  | CallGetComponent_typed T =>
      GameObject.GetComponent_typed type_name dynamic_cast_ok this T ;; ret tt
  | CallSetActive b => GameObject.SetActive this b
  | CallIsActive => GameObject.IsActive this ;; ret tt
  | CallGetName => GameObject.GetName this ;; ret tt
  | CallPreUpdate => GameObject.PreUpdate this
  | CallUpdate => GameObject.Update this
  | CallPostUpdate => GameObject.PostUpdate this
  end.

(** A sequence of calls, in order. *)
Fixpoint run_calls (this : ObjId) (cs : list (Call TypeId)) : M TypeId unit :=
  match cs with
  | [] => ret tt
  | c :: cs' => call this c ;; run_calls this cs'
  end.

End Calls.

(** ** The virtual calls on the sample components *)

Module Sample.

(** The members of the [PlayerInputSimulatorComponent]s, by address. *)
Abbreviation Members :=
  (gmap CompId PlayerInputSimulatorComponent.t) (only parsing).

(** [pair.second->OnUpdate()]: the call is recorded, and the body is the
    one of the dynamic type.  [TransformComponent::OnUpdate] moves the
    component and acts on nothing else; [RendererComponent] and
    [ComponentBase] have the empty body. *)
Definition call_OnUpdate (c : CompId) (ms : Members) : M SampleType Members :=
  call_hook OnUpdate c ;;
  λ w : World SampleType,
    match components w !! c with
    | Some cb =>
        match dyn_type cb with
        | TPlayerInputSimulatorComponent =>
            match ms !! c with
            | Some st =>
                (st' <- PlayerInputSimulatorComponent.OnUpdate c st ;;
                 ret (<[c := st']> ms)) w
            | None => None
            end
        | _ => Some (ms, w)
        end
    | None => None
    end.

(** The loop of [GameObject::Update]. *)
Fixpoint for_each_OnUpdate (l : list (string * option CompId)) (ms : Members)
  : M SampleType Members :=
  match l with
  | [] => ret ms
  | (_, Some c) :: l' => ms' <- call_OnUpdate c ms ;; for_each_OnUpdate l' ms'
  | (_, None) :: l' => for_each_OnUpdate l' ms
  end.

(** [GameObject::Update] on an entity with sample components: the flag is
    tested once, before the loop.  The hooks that [PreUpdate],
    [PostUpdate] and the destructor call print, or have the empty body, in
    each of the sample classes. *)
Definition Update (this : ObjId) (ms : Members) : M SampleType Members :=
  g <- get_obj this ;;
  if negb (m_isActive g) then ret ms
  else for_each_OnUpdate (map_to_list (m_umNameToComp g)) ms.

(** One update cycle of an entity, and [n] cycles. *)
Definition cycle (this : ObjId) (ms : Members) : M SampleType Members :=
  GameObject.PreUpdate this ;;
  ms' <- Update this ms ;;
  GameObject.PostUpdate this ;;
  ret ms'.

Fixpoint cycles (n : nat) (this : ObjId) (ms : Members)
  : M SampleType Members :=
  match n with
  | 0 => ret ms
  | S n' => ms' <- cycle this ms ;; cycles n' this ms'
  end.

(** The public calls on an entity of a program with the sample
    components: those of [Call], and
    [AddComponent<PlayerInputSimulatorComponent>(d)]. *)
Inductive PublicCall :=
  | Core (p : Call SampleType)
  | AddSimulator (d : Z).

(** One call.  [AddComponent<PlayerInputSimulatorComponent>()] is no call
    of a program: the class has no default constructor. *)
Definition call (this : ObjId) (p : PublicCall) (ms : Members)
  : M SampleType Members :=
  match p with
  | Core CallUpdate => Update this ms
  | Core (CallAddComponent_typed TPlayerInputSimulatorComponent) => undefined
  | Core p' => call sample_type_name sample_dynamic_cast_ok this p' ;; ret ms
  | AddSimulator d =>
      new <- GameObject.AddComponent_typed sample_type_name this
               TPlayerInputSimulatorComponent ;;
      c <- deref new ;;
      ret (<[c := PlayerInputSimulatorComponent.constructor d]> ms)
  end.

(** A sequence of calls, each on an entity. *)
Fixpoint run (cs : list (ObjId * PublicCall)) (ms : Members)
  : M SampleType Members :=
  match cs with
  | [] => ret ms
  | (this, p) :: cs' => ms' <- call this p ms ;; run cs' ms'
  end.

End Sample.

(** The name and the number of owners of the entity at [o], if it is
    alive. *)
Definition identity {TypeId} (w : World TypeId) (o : ObjId)
  : option (string * positive) :=
  (λ c, (m_name (managed c), use_count c)) <$> objects w !! o.


(** The map [m] of the entity at [this] holds the
    [PlayerInputSimulatorComponent] at [sim] under one key, the entity is
    its owner, and no other component of [m] is of that class. *)
Definition one_simulator (w : World SampleType) (this : ObjId)
  (m : gmap string (option CompId)) (sim : CompId) : Prop :=
  stored_once m sim ∧
  components w !! sim
  = Some (mkComponentBase TPlayerInputSimulatorComponent (Some this)) ∧
  ∀ key comp, m !! key = Some (Some comp) → comp ≠ sim →
    ∃ cb, components w !! comp = Some cb ∧
          dyn_type cb ≠ TPlayerInputSimulatorComponent.

(** The update cycle in which a [PlayerInputSimulatorComponent(d)] that
    is updated once in every cycle reaches its frame: the first one, or
    the [d]-th. *)
Definition deactivation_cycle (d : Z) : nat := Z.to_nat (Z.max 1 d).

(** The components lie below the allocation mark. *)
Definition comps_below_mark {TypeId} (w : World TypeId) : Prop :=
  ∀ k, is_Some (components w !! k) → k < next_comp w.

(** A computation that keeps the components below the mark. *)
Definition keeps_comps {TypeId A} (m : M TypeId A) : Prop :=
  ∀ w a w', m w = Some (a, w') → comps_below_mark w → comps_below_mark w'.


(** The has-started latch of the entity at [this] is set. *)
Definition latched {TypeId} (this : ObjId) (w : World TypeId) : Prop :=
  ∃ c, objects w !! this = Some c ∧ m_isCalledUpdate (managed c) = true.

(** From [w] to [w'] the trace grew, and by no call of [OnStart]. *)
Definition no_start_since {TypeId} (w w' : World TypeId) : Prop :=
  ∃ evs, trace w' = trace w ++ evs ∧ ∀ comp, (OnStart, comp) ∉ evs.

Section Registry.
Context {TypeId : Type}.

(** The name index and the live collection are in bijection: every key of
    the index designates an entity of the collection, and every entity of
    the collection is indexed under its name (a map has one entry per
    key). *)
Definition index_bijection (r : ObjectManager) (w : World TypeId) : Prop :=
  (∀ name sp, m_umNameToObjPtr r !! name = Some sp → sp ∈ m_lObjects r) ∧
  (∀ o c, Some o ∈ m_lObjects r → objects w !! o = Some c →
          m_umNameToObjPtr r !! m_name (managed c) = Some (Some o)).

(** What the [shared_ptr]s of the live collection guarantee: the nodes
    hold distinct objects, and these objects are alive. *)
Definition owns_nodes (l : list (option ObjId)) (w : World TypeId) : Prop :=
  NoDup (omap id l) ∧ ∀ o, Some o ∈ l → is_Some (objects w !! o).

(** The node survives a reclamation pass started in world [w]. *)
Definition node_active (w : World TypeId) (sp : option ObjId) : bool :=
  match sp with
  | Some o =>
      match objects w !! o with
      | Some c => m_isActive (managed c)
      | None => false
      end
  | None => false
  end.

(** The name that the pass erases from the index for a node it removes. *)
Definition node_erase (w : World TypeId) (sp : option ObjId)
  (names : gmap string (option ObjId)) : gmap string (option ObjId) :=
  match sp with
  | Some o =>
      match objects w !! o with
      | Some c => if m_isActive (managed c) then names
                  else delete (m_name (managed c)) names
      | None => names
      end
  | None => names
  end.

(** The hook calls that removing the node causes: those of the destructor
    when the node is the last owner of an inactive object. *)
Definition node_events (w : World TypeId) (sp : option ObjId) : list Event :=
  match sp with
  | Some o =>
      match objects w !! o with
      | Some c =>
          if m_isActive (managed c) then []
          else match use_count c with
               | xH => dispatches OnRelease (m_umNameToComp (managed c))
               | _ => []
               end
      | None => []
      end
  | None => []
  end.

(** The object at [o] after a pass that meets a node holding it. *)
Definition node_after (w : World TypeId) (o : ObjId) : option Managed :=
  match objects w !! o with
  | Some c =>
      if m_isActive (managed c) then Some c
      else match use_count c with
           | xH => None
           | n => Some (set_use_count (Pos.pred n) c)
           end
  | None => None
  end.



End Registry.

(** ** The states that the code reaches *)

Section Reachable.
Context {TypeId : Type}.
Variable type_name : TypeId → string.
Variable dynamic_cast_ok : TypeId → TypeId → bool.

(** From a new manager: the three operations of the manager (the caller
    keeps the [shared_ptr] that [GenerateObject] returns), the calls of the
    public interface of a GameObject, the construction of a component by
    the caller, and the caller dropping a [shared_ptr] to an entity that
    it holds (so not the one of the live collection). *)
Inductive reachable : ObjectManager → World TypeId → Prop :=
  | reach_new : reachable empty_manager empty_world
  | reach_GenerateObject r w a_name sp r' w' :
      reachable r w →
      ObjectManager.GenerateObject r a_name w = Some ((sp, r'), w') →
      reachable r' w'
  | reach_Update r w r' w' :
      reachable r w →
      ObjectManager.Update r w = Some ((tt, r'), w') →
      reachable r' w'
  | reach_ReleaseAllObjects r w r' w' :
      reachable r w →
      ObjectManager.ReleaseAllObjects r w = Some ((tt, r'), w') →
      reachable r' w'
  | reach_call r w this p w' :
      reachable r w →
      call type_name dynamic_cast_ok this p w = Some (tt, w') →
      reachable r w'
  | reach_make_shared r w T c w' :
      reachable r w →
      GameObject.make_shared T w = Some (c, w') →
      reachable r w'
  | reach_drop r w o c w' :
      reachable r w →
      objects w !! o = Some c →
      (Some o ∈ m_lObjects r → use_count c ≠ 1%positive) →
      GameObject.shared_ptr_release (Some o) w = Some (tt, w') →
      reachable r w'.

(** From [w] to [w'] no GameObject was allocated or freed. *)
Definition same_heap (w w' : World TypeId) : Prop :=
  next_obj w' = next_obj w ∧
  ∀ o, is_Some (objects w' !! o) ↔ is_Some (objects w !! o).

(** A computation that allocates and frees no GameObject. *)
Definition keeps_heap {A} (m : M TypeId A) : Prop :=
  ∀ w a w', m w = Some (a, w') → same_heap w w'.

(** From [w] to [w'] no GameObject was allocated. *)
Definition no_alloc (w w' : World TypeId) : Prop :=
  next_obj w' = next_obj w ∧
  ∀ o, is_Some (objects w' !! o) → is_Some (objects w !! o).

(** A computation that allocates no GameObject. *)
Definition frees_only {A} (m : M TypeId A) : Prop :=
  ∀ w a w', m w = Some (a, w') → no_alloc w w'.

(** The live collection owns its nodes, and the objects are below the
    allocation mark. *)
Definition manager_ok (r : ObjectManager) (w : World TypeId) : Prop :=
  owns_nodes (m_lObjects r) w ∧
  ∀ o, is_Some (objects w !! o) → o < next_obj w.

End Reachable.

(** ** Vocabulary of the further properties *)

Section MoreVocabulary.
Context {TypeId : Type}.

(** Every entry of the name index designates a node of the live
    collection, whose entity is alive and bears the name of the entry. *)
Definition index_sound (r : ObjectManager) (w : World TypeId) : Prop :=
  ∀ name sp, m_umNameToObjPtr r !! name = Some sp →
    ∃ o c, sp = Some o ∧ Some o ∈ m_lObjects r ∧
           objects w !! o = Some c ∧ m_name (managed c) = name.


(** One update cycle of an entity, as the controlling loop drives it, and
    [n] cycles. *)
Definition cycle (this : ObjId) : M TypeId unit :=
  GameObject.PreUpdate this ;; GameObject.Update this ;;
  GameObject.PostUpdate this.

Fixpoint cycles (n : nat) (this : ObjId) : M TypeId unit :=
  match n with
  | 0 => ret tt
  | S n' => cycle this ;; cycles n' this
  end.

(** The hook calls of the three phases of one cycle. *)
Definition cycle_events (m : gmap string (option CompId)) : list Event :=
  dispatches OnPreUpdate m ++ dispatches OnUpdate m ++ dispatches OnPostUpdate m.

(** The hook calls that dropping the [shared_ptr] of a node causes, and
    the object afterwards, whatever its active flag. *)
Definition drop_events (w : World TypeId) (sp : option ObjId) : list Event :=
  match sp with
  | Some o =>
      match objects w !! o with
      | Some c =>
          match use_count c with
          | xH => dispatches OnRelease (m_umNameToComp (managed c))
          | _ => []
          end
      | None => []
      end
  | None => []
  end.

Definition dropped (w : World TypeId) (o : ObjId) : option Managed :=
  match objects w !! o with
  | Some c =>
      match use_count c with
      | xH => None
      | n => Some (set_use_count (Pos.pred n) c)
      end
  | None => None
  end.

(** From [w] to [w'] the entity at [this] kept its owners and its name,
    and no other entity changed. *)
Definition entity_frame (this : ObjId) (w w' : World TypeId) : Prop :=
  ∃ c g', objects w !! this = Some c ∧
          objects w' !! this = Some (set_managed g' c) ∧
          m_name g' = m_name (managed c) ∧
          ∀ o, o ≠ this → objects w' !! o = objects w !! o.

(** The entity with its active flag cleared. *)
Definition deactivated (c : Managed) : Managed :=
  mkManaged (use_count c) (set_isActive false (managed c)).

End MoreVocabulary.

(** ** Runs on the sample components *)

Local Open Scope string_scope.

(** [GenerateObject(a_baseName)] three times on a new manager; the names
    of the three entities, in the order of the calls. *)
Definition generate_three (a_baseName : string) : M SampleType (list string) :=
  r1 <- ObjectManager.GenerateObject empty_manager a_baseName ;;
  r2 <- ObjectManager.GenerateObject r1.2 a_baseName ;;
  r3 <- ObjectManager.GenerateObject r2.2 a_baseName ;;
  e1 <- deref r1.1 ;; e2 <- deref r2.1 ;; e3 <- deref r3.1 ;;
  n1 <- GameObject.GetName e1 ;;
  n2 <- GameObject.GetName e2 ;;
  n3 <- GameObject.GetName e3 ;;
  ret [n1; n2; n3].

(** Two entities with different base names on a new manager. *)
Definition generate_two (a b : string) : M SampleType ObjectManager :=
  r1 <- ObjectManager.GenerateObject empty_manager a ;;
  r2 <- ObjectManager.GenerateObject r1.2 b ;;
  ret r2.2.

(** Two components attached one after the other under the key ["k"];
    the result is what the key holds at the end. *)
Definition overwrite_named : M SampleType (option CompId) :=
  r <- ObjectManager.GenerateObject empty_manager "E" ;;
  e <- deref r.1 ;;
  a <- GameObject.make_shared TTransformComponent ;;
  b <- GameObject.make_shared TRendererComponent ;;
  GameObject.AddComponent e (Some a) "k" ;;
  GameObject.AddComponent e (Some b) "k" ;;
  GameObject.GetComponent e "k".

(** [AddComponent<TransformComponent>()] twice; the result is the pair of
    the two handles and what [GetComponent<TransformComponent>()] finds. *)
Definition overwrite_typed
  : M SampleType (option CompId * option CompId * option CompId) :=
  r <- ObjectManager.GenerateObject empty_manager "E" ;;
  e <- deref r.1 ;;
  a <- GameObject.AddComponent_typed sample_type_name e TTransformComponent ;;
  b <- GameObject.AddComponent_typed sample_type_name e TTransformComponent ;;
  found <- GameObject.GetComponent_typed sample_type_name sample_dynamic_cast_ok
             e TTransformComponent ;;
  ret (a, b, found).


(** A component attached after the first update cycle of its entity, and
    one more cycle. *)
Definition attach_after_first_cycle : M SampleType (option CompId) :=
  r <- ObjectManager.GenerateObject empty_manager "Player" ;;
  e <- deref r.1 ;;
  GameObject.PreUpdate e ;; GameObject.Update e ;; GameObject.PostUpdate e ;;
  a <- GameObject.AddComponent_typed sample_type_name e TTransformComponent ;;
  GameObject.PreUpdate e ;; GameObject.Update e ;; GameObject.PostUpdate e ;;
  ret a.

(** A [RendererComponent] attached under the key of [TransformComponent],
    then looked up as a [TransformComponent]. *)
Definition attach_under_other_type : M SampleType (option CompId * option CompId) :=
  r <- ObjectManager.GenerateObject empty_manager "Player" ;;
  e <- deref r.1 ;;
  a <- GameObject.make_shared TRendererComponent ;;
  GameObject.AddComponent e (Some a) (sample_type_name TTransformComponent) ;;
  found <- GameObject.GetComponent_typed sample_type_name sample_dynamic_cast_ok
             e TTransformComponent ;;
  byname <- GameObject.GetComponent e (sample_type_name TTransformComponent) ;;
  ret (found, byname).

(** The state after [GenerateObject("Enemy")], [AddComponent<
    TransformComponent>()] on the new entity, and the caller's
    [shared_ptr] gone: the manager is the only owner. *)
Definition enemy_cell : Managed :=
  mkManaged 1
    (mkGameObject false true EmptyString
       {[ sample_type_name TTransformComponent := Some 0 ]}).
Definition enemy_world : World SampleType :=
  mkWorld {[ 0 := enemy_cell ]}
    {[ 0 := mkComponentBase TTransformComponent (Some 0) ]} 1 1 [].
Definition enemy_manager : ObjectManager :=
  mkObjectManager {[ EmptyString := Some 0 ]} [Some 0].
Definition enemy_setup : M SampleType ObjectManager :=
  r <- ObjectManager.GenerateObject empty_manager "Enemy" ;;
  e <- deref r.1 ;;
  GameObject.AddComponent_typed sample_type_name e TTransformComponent ;;
  GameObject.shared_ptr_release r.1 ;;
  ret r.2.

(** The same entity, deactivated. *)
Definition idle_setup : M SampleType ObjectManager :=
  r <- enemy_setup ;;
  GameObject.SetActive 0 false ;;
  ret r.
Definition idle_cell : Managed :=
  mkManaged 1
    (mkGameObject false false EmptyString
       {[ sample_type_name TTransformComponent := Some 0 ]}).
Definition idle_world : World SampleType :=
  mkWorld {[ 0 := idle_cell ]}
    {[ 0 := mkComponentBase TTransformComponent (Some 0) ]} 1 1 [].

(** An entity that holds a [RendererComponent] under the key of
    [TransformComponent]. *)
Definition mixed_setup : M SampleType ObjectManager :=
  r <- ObjectManager.GenerateObject empty_manager "Player" ;;
  e <- deref r.1 ;;
  a <- GameObject.make_shared TRendererComponent ;;
  GameObject.AddComponent e (Some a) (sample_type_name TTransformComponent) ;;
  ret r.2.
Definition mixed_cell : Managed :=
  mkManaged 2
    (mkGameObject false true EmptyString
       {[ sample_type_name TTransformComponent := Some 0 ]}).
Definition mixed_world : World SampleType :=
  mkWorld {[ 0 := mixed_cell ]}
    {[ 0 := mkComponentBase TRendererComponent (Some 0) ]} 1 1 [].

(** Two entities, the first one deactivated, and a third one that the
    caller still holds; the manager as three calls of [GenerateObject]
    with the empty base name leave it. *)
Definition trio_setup : M SampleType ObjectManager :=
  r1 <- ObjectManager.GenerateObject empty_manager EmptyString ;;
  r2 <- ObjectManager.GenerateObject r1.2 EmptyString ;;
  r3 <- ObjectManager.GenerateObject r2.2 EmptyString ;;
  GameObject.PreUpdate 0 ;; GameObject.PreUpdate 1 ;;
  GameObject.shared_ptr_release r1.1 ;;
  GameObject.shared_ptr_release r2.1 ;;
  GameObject.SetActive 0 false ;;
  ret r3.2.
Definition trio_world : World SampleType :=
  mkWorld
    {[ 0 := mkManaged 1 (mkGameObject true false EmptyString ∅);
       1 := mkManaged 1 (mkGameObject true true "1" ∅);
       2 := mkManaged 2 (mkGameObject false true "2" ∅) ]}
    ∅ 3 0 [].
Definition trio_manager : ObjectManager :=
  mkObjectManager {[ EmptyString := Some 0; "1" := Some 1; "2" := Some 2 ]}
    [Some 0; Some 1; Some 2].

(** Calls that toggle the active flag, change the component set and run
    further phases. *)
Definition busy_calls : list (Call SampleType) :=
  [CallSetActive false; CallSetActive true;
   CallAddComponent_typed TRendererComponent;
   CallRemoveComponent (sample_type_name TTransformComponent);
   CallAddComponent (Some 0) "again";
   CallPreUpdate; CallUpdate; CallPostUpdate; CallPreUpdate].

(** Three entities: two for the empty base name, which get the empty
    name and ["1"], and one for the base name ["1"], which gets ["11"].
    The second one is deactivated and reclaimed, so that ["1"] leaves the
    index.  Then [GetObject] with the view of the first character of
    ["11"], as [std::string_view("11").substr(0, 1)] is.  The result is
    what [GetObject] returns, the text of the view, what the index holds
    under it, and the name of the entity found. *)
Definition lookup_by_prefix_view
  : M SampleType (option ObjId * string * option (option ObjId) * string) :=
  r1 <- ObjectManager.GenerateObject_view empty_manager (literal EmptyString) ;;
  r2 <- ObjectManager.GenerateObject_view r1.2 (literal EmptyString) ;;
  r3 <- ObjectManager.GenerateObject_view r2.2 (literal "1") ;;
  e2 <- deref r2.1 ;;
  GameObject.SetActive e2 false ;;
  r4 <- ObjectManager.Update r3.2 ;;
  let a_name := prefix_view 1 (literal "11") in
  found <- ObjectManager.GetObject_view r4.2 a_name ;;
  e <- deref found.1 ;;
  n <- GameObject.GetName e ;;
  ret (found.1, sv_text a_name, m_umNameToObjPtr r4.2 !! sv_text a_name, n).

(** Two entities for the empty base name, which get the empty name and
    ["1"].  Then [GetObject] with a view of three characters, the second
    of which is [NUL], as [std::string_view("1\0x", 3)] is.  The result
    is as for [lookup_by_prefix_view]. *)
Definition lookup_by_view_with_NUL
  : M SampleType (option ObjId * string * option (option ObjId) * string) :=
  r1 <- ObjectManager.GenerateObject_view empty_manager (literal EmptyString) ;;
  r2 <- ObjectManager.GenerateObject_view r1.2 (literal EmptyString) ;;
  let a_name :=
    mk_string_view ("1" +:+ String NUL ("x" +:+ String NUL EmptyString)) 3 in
  found <- ObjectManager.GetObject_view r2.2 a_name ;;
  e <- deref found.1 ;;
  n <- GameObject.GetName e ;;
  ret (found.1, sv_text a_name, m_umNameToObjPtr r2.2 !! sv_text a_name, n).

(** An entity with a [PlayerInputSimulatorComponent], which the caller
    still holds. *)
Definition sim_setup : M SampleType ObjectManager :=
  r <- ObjectManager.GenerateObject empty_manager "Player" ;;
  e <- deref r.1 ;;
  GameObject.AddComponent_typed sample_type_name e
    TPlayerInputSimulatorComponent ;;
  ret r.2.
Definition sim_cell : Managed :=
  mkManaged 2
    (mkGameObject false true EmptyString
       {[ sample_type_name TPlayerInputSimulatorComponent := Some 0 ]}).
Definition sim_world : World SampleType :=
  mkWorld {[ 0 := sim_cell ]}
    {[ 0 := mkComponentBase TPlayerInputSimulatorComponent (Some 0) ]} 1 1 [].

(** Calls on the second and the third of the three entities: a
    [PlayerInputSimulatorComponent(1)] for the second; the same component
    attached to the third, which is its owner from then on; and an update
    cycle of the second. *)
Definition shared_simulator_calls : list (ObjId * Sample.PublicCall) :=
  [(1, Sample.AddSimulator 1);
   (2, Sample.Core (CallAddComponent (Some 0) "k"));
   (1, Sample.Core CallPreUpdate);
   (1, Sample.Core CallUpdate);
   (1, Sample.Core CallPostUpdate)].

Local Close Scope string_scope.

(** * Properties *)

(** ** The monad and the dispatch loop *)

Section MonadFacts.
Context {TypeId : Type}.
Implicit Types w : World TypeId.

Lemma get_obj_live w o c :
  objects w !! o = Some c → get_obj o w = Some (managed c, w).
Proof. intros H. unfold get_obj. by rewrite H. Qed.

Lemma log_events_nil w : log_events [] w = w.
Proof. destruct w. unfold log_events, set_trace. simpl. by rewrite app_nil_r. Qed.

Lemma log_events_app w (t1 t2 : list Event) :
  log_events t2 (log_events t1 w) = log_events (t1 ++ t2) w.
Proof. unfold log_events, set_trace. simpl. by rewrite app_assoc. Qed.

Lemma for_each_spec l h w :
  GameObject.for_each l h w = Some (tt, log_events (pair h <$> omap snd l) w).
Proof.
  revert w. induction l as [|[k [c|]] l IH]; intros w; simpl.
  - by rewrite log_events_nil.
  - unfold bind, call_hook. rewrite IH. by rewrite log_events_app.
  - apply IH.
Qed.

Lemma for_each_map h (m : gmap string (option CompId)) w :
  GameObject.for_each (map_to_list m) h w
  = Some (tt, log_events (dispatches h m) w).
Proof. apply for_each_spec. Qed.

End MonadFacts.

(** ** GameObject: phases of an inactive entity, lookups *)

Section GameObjectFacts.
Context {TypeId : Type}.
Variable type_name : TypeId → string.
Variable dynamic_cast_ok : TypeId → TypeId → bool.
Implicit Types w : World TypeId.

Lemma inactive_phase w this c (p : Call TypeId) :
  objects w !! this = Some c →
  m_isActive (managed c) = false →
  is_phase p = true →
  call type_name dynamic_cast_ok this p w = Some (tt, w).
Proof.
  intros Hc Hoff Hp.
  destruct p; try discriminate Hp; simpl;
    unfold GameObject.PreUpdate, GameObject.Update, GameObject.PostUpdate, bind;
    rewrite (get_obj_live _ _ _ Hc), Hoff; reflexivity.
Qed.

(** C7. On an entity whose active flag is false, [PreUpdate], [Update]
    and [PostUpdate] return without any effect: the world, hence the trace
    of hook calls and every field of the entity, is the same afterwards;
    and so is it after any sequence of phase calls. *)
Theorem inactive_phases_are_noops w this c :
  objects w !! this = Some c →
  m_isActive (managed c) = false →
  GameObject.PreUpdate this w = Some (tt, w) ∧
  GameObject.Update this w = Some (tt, w) ∧
  GameObject.PostUpdate this w = Some (tt, w) ∧
  ∀ ps : list (Call TypeId),
    forallb is_phase ps = true →
    run_calls type_name dynamic_cast_ok this ps w = Some (tt, w).
Proof.
  intros Hc Hoff.
  split; [exact (inactive_phase w this c CallPreUpdate Hc Hoff eq_refl)|].
  split; [exact (inactive_phase w this c CallUpdate Hc Hoff eq_refl)|].
  split; [exact (inactive_phase w this c CallPostUpdate Hc Hoff eq_refl)|].
  induction ps as [|p ps IH]; intros Hps; [reflexivity|].
  simpl in Hps. apply andb_prop in Hps as [Hp Hps].
  simpl. unfold bind at 1.
  rewrite (inactive_phase w this c p Hc Hoff Hp). by apply IH.
Qed.



Lemma GetComponent_typed_stored w this c T comp cb :
  objects w !! this = Some c →
  m_umNameToComp (managed c) !! type_name T = Some (Some comp) →
  components w !! comp = Some cb →
  GameObject.GetComponent_typed type_name dynamic_cast_ok this T w
  = Some (if dynamic_cast_ok (dyn_type cb) T then Some comp else None, w).
Proof.
  intros Hc Hk Hcb. unfold GameObject.GetComponent_typed, bind.
  rewrite (get_obj_live _ _ _ Hc), Hk.
  unfold GameObject.dynamic_pointer_cast. by rewrite Hcb.
Qed.

End GameObjectFacts.

(** ** GameObject: what each method does to a live entity *)

Section MethodFacts.
Context {TypeId : Type}.
Variable type_name : TypeId → string.
Variable dynamic_cast_ok : TypeId → TypeId → bool.
Implicit Types w : World TypeId.

Lemma lookup_store_obj w o c g :
  objects w !! o = Some c →
  objects (store_obj o g w) !! o = Some (set_managed g c).
Proof. intros H. simpl. by rewrite lookup_alter_eq, H. Qed.

Lemma lookup_store_obj_ne w o o' g :
  o ≠ o' → objects (store_obj o g w) !! o' = objects w !! o'.
Proof. intros H. simpl. by rewrite lookup_alter_ne. Qed.

Lemma SetActive_live w this c b :
  objects w !! this = Some c →
  GameObject.SetActive this b w
  = Some (tt, store_obj this (set_isActive b (managed c)) w).
Proof.
  intros Hc. unfold GameObject.SetActive, bind.
  by rewrite (get_obj_live _ _ _ Hc).
Qed.

Lemma IsActive_live w this c :
  objects w !! this = Some c →
  GameObject.IsActive this w = Some (m_isActive (managed c), w).
Proof.
  intros Hc. unfold GameObject.IsActive, bind.
  by rewrite (get_obj_live _ _ _ Hc).
Qed.

Lemma GetName_live w this c :
  objects w !! this = Some c →
  GameObject.GetName this w = Some (m_name (managed c), w).
Proof.
  intros Hc. unfold GameObject.GetName, bind.
  by rewrite (get_obj_live _ _ _ Hc).
Qed.

Lemma GetComponent_live w this c key :
  objects w !! this = Some c →
  GameObject.GetComponent this key w
  = Some (mjoin (m_umNameToComp (managed c) !! key), w).
Proof.
  intros Hc. unfold GameObject.GetComponent, bind.
  rewrite (get_obj_live _ _ _ Hc). by destruct (_ !! key).
Qed.

Lemma AddComponent_live w this c comp cb key :
  objects w !! this = Some c →
  components w !! comp = Some cb →
  GameObject.AddComponent this (Some comp) key w
  = Some (tt,
      store_obj this
        (set_umNameToComp (<[key := Some comp]> (m_umNameToComp (managed c)))
           (managed c))
        (set_components
           (<[comp := mkComponentBase (dyn_type cb) (Some this)]>) w)).
Proof.
  intros Hc Hcb.
  unfold GameObject.AddComponent, GameObject.shared_from_this, bind. simpl.
  rewrite (get_obj_live _ _ _ Hc). simpl.
  unfold GameObject.SetOwner. rewrite Hcb.
  unfold get_obj. simpl. by rewrite Hc.
Qed.

Lemma AddComponent_typed_live w this c T :
  objects w !! this = Some c →
  GameObject.AddComponent_typed type_name this T w
  = Some (Some (next_comp w),
      store_obj this
        (set_umNameToComp
           (<[type_name T := Some (next_comp w)]> (m_umNameToComp (managed c)))
           (managed c))
        (mkWorld (objects w)
           (<[next_comp w := mkComponentBase T (Some this)]>
              (<[next_comp w := mkComponentBase T None]> (components w)))
           (next_obj w) (S (next_comp w)) (trace w))).
Proof.
  intros Hc.
  unfold GameObject.AddComponent_typed, GameObject.shared_from_this,
    GameObject.make_shared, bind. simpl.
  unfold get_obj at 1. simpl. rewrite Hc. simpl.
  unfold GameObject.SetOwner. simpl. rewrite lookup_insert_eq.
  unfold get_obj. simpl. by rewrite Hc.
Qed.

(** Neither form of [AddComponent] calls a hook, whatever the key holds. *)
Lemma AddComponent_trace w this sp key w' :
  GameObject.AddComponent this sp key w = Some (tt, w') → trace w' = trace w.
Proof.
  intros Hrun. destruct sp as [comp|]; [|discriminate Hrun].
  destruct (objects w !! this) as [c|] eqn:Hc.
  - destruct (components w !! comp) as [cb|] eqn:Hcb.
    + rewrite (AddComponent_live _ _ _ _ _ _ Hc Hcb) in Hrun.
      by injection Hrun as <-.
    + unfold GameObject.AddComponent, GameObject.shared_from_this, bind in Hrun.
      simpl in Hrun. rewrite (get_obj_live _ _ _ Hc) in Hrun. simpl in Hrun.
      unfold GameObject.SetOwner in Hrun. by rewrite Hcb in Hrun.
  - unfold GameObject.AddComponent, GameObject.shared_from_this, bind in Hrun.
    simpl in Hrun. unfold get_obj in Hrun. by rewrite Hc in Hrun.
Qed.

Lemma AddComponent_typed_trace w this T r w' :
  GameObject.AddComponent_typed type_name this T w = Some (r, w') →
  trace w' = trace w.
Proof.
  intros Hrun. destruct (objects w !! this) as [c|] eqn:Hc.
  - rewrite (AddComponent_typed_live _ _ _ _ Hc) in Hrun.
    by injection Hrun as _ <-.
  - unfold GameObject.AddComponent_typed, GameObject.shared_from_this,
      GameObject.make_shared, bind in Hrun.
    simpl in Hrun. unfold get_obj in Hrun. simpl in Hrun. by rewrite Hc in Hrun.
Qed.

Lemma RemoveComponent_stored w this c key comp :
  objects w !! this = Some c →
  m_umNameToComp (managed c) !! key = Some (Some comp) →
  GameObject.RemoveComponent this key w
  = Some (tt,
      store_obj this
        (set_umNameToComp (delete key (m_umNameToComp (managed c))) (managed c))
        (log_events [(OnRelease, comp)] w)).
Proof.
  intros Hc Hk. unfold GameObject.RemoveComponent, bind.
  rewrite (get_obj_live _ _ _ Hc), Hk. unfold call_hook.
  unfold get_obj. simpl. by rewrite Hc.
Qed.

Lemma RemoveComponent_not_stored w this c key :
  objects w !! this = Some c →
  mjoin (m_umNameToComp (managed c) !! key) = None →
  GameObject.RemoveComponent this key w = Some (tt, w).
Proof.
  intros Hc Hk. unfold GameObject.RemoveComponent, bind.
  rewrite (get_obj_live _ _ _ Hc).
  by destruct (_ !! key) as [[?|]|].
Qed.

Lemma RemoveComponent_typed_eq this T :
  GameObject.RemoveComponent_typed type_name this T
  = GameObject.RemoveComponent (TypeId := TypeId) this (type_name T).
Proof. reflexivity. Qed.

Lemma phase_active w this c h :
  objects w !! this = Some c →
  m_isActive (managed c) = true →
  (g <- get_obj this ;;
   if negb (m_isActive g) then ret tt
   else GameObject.for_each (map_to_list (m_umNameToComp g)) h) w
  = Some (tt, log_events (dispatches h (m_umNameToComp (managed c))) w).
Proof.
  intros Hc Hon. unfold bind.
  rewrite (get_obj_live _ _ _ Hc), Hon. apply for_each_map.
Qed.

Lemma PreUpdate_first w this c :
  objects w !! this = Some c →
  m_isActive (managed c) = true →
  m_isCalledUpdate (managed c) = false →
  GameObject.PreUpdate this w
  = Some (tt,
      log_events (dispatches OnPreUpdate (m_umNameToComp (managed c)))
        (store_obj this (set_isCalledUpdate true (managed c))
           (log_events (dispatches OnStart (m_umNameToComp (managed c))) w))).
Proof.
  intros Hc Hon Hnew. unfold GameObject.PreUpdate, bind.
  rewrite (get_obj_live _ _ _ Hc), Hon, Hnew. simpl.
  rewrite for_each_map. unfold get_obj at 1. simpl. rewrite Hc.
  unfold put_obj, get_obj. rewrite (lookup_store_obj _ _ c) by done.
  apply for_each_map.
Qed.

Lemma PreUpdate_later w this c :
  objects w !! this = Some c →
  m_isActive (managed c) = true →
  m_isCalledUpdate (managed c) = true →
  GameObject.PreUpdate this w
  = Some (tt, log_events (dispatches OnPreUpdate (m_umNameToComp (managed c))) w).
Proof.
  intros Hc Hon Hold. unfold GameObject.PreUpdate, bind.
  rewrite (get_obj_live _ _ _ Hc), Hon, Hold. simpl.
  unfold ret. rewrite (get_obj_live _ _ _ Hc). apply for_each_map.
Qed.

End MethodFacts.

(** ** GameObject: the has-started latch *)

Section LatchFacts.
Context {TypeId : Type}.
Variable type_name : TypeId → string.
Variable dynamic_cast_ok : TypeId → TypeId → bool.
Implicit Types w : World TypeId.

Lemma no_start_refl w : no_start_since w w.
Proof.
  exists []. split; [by rewrite app_nil_r|]. intros comp. apply not_elem_of_nil.
Qed.

Lemma no_start_trans w1 w2 w3 :
  no_start_since w1 w2 → no_start_since w2 w3 → no_start_since w1 w3.
Proof.
  intros (e1 & H1 & N1) (e2 & H2 & N2). exists (e1 ++ e2). split.
  - by rewrite H2, H1, app_assoc.
  - intros comp [?|?]%elem_of_app; [by eapply N1 | by eapply N2].
Qed.

Lemma no_start_same_trace w w' : trace w' = trace w → no_start_since w w'.
Proof.
  intros H. rewrite <- (app_nil_r (trace w)) in H.
  exists []. split; [done|]. intros comp. apply not_elem_of_nil.
Qed.

Lemma dispatches_other_hook h m comp :
  h ≠ OnStart → (OnStart, comp) ∉ dispatches h m.
Proof.
  intros Hh [c [Heq _]]%list_elem_of_fmap. by injection Heq as <-.
Qed.

Lemma no_start_dispatches h m w :
  h ≠ OnStart → no_start_since w (log_events (dispatches h m) w).
Proof.
  intros Hh. exists (dispatches h m). split; [done|].
  intros comp. by apply dispatches_other_hook.
Qed.

Lemma latched_store this g w :
  latched this w → m_isCalledUpdate g = true → latched this (store_obj this g w).
Proof.
  intros (c & Hc & _) Hg. exists (set_managed g c). split; [|done].
  by apply lookup_store_obj.
Qed.

Lemma latched_same_objects this w w' :
  objects w' = objects w → latched this w → latched this w'.
Proof. intros Ho (c & Hc & Hl). exists c. by rewrite Ho. Qed.

(** A call on a latched entity leaves it latched and dispatches no
    [OnStart]. *)
Lemma call_latched this (p : Call TypeId) w w' :
  latched this w →
  call type_name dynamic_cast_ok this p w = Some (tt, w') →
  latched this w' ∧ no_start_since w w'.
Proof.
  intros Hlat Hrun. pose proof Hlat as (c & Hc & Hl).
  destruct p as [[comp|] key|T|key|T|key|T|b| | | | |]; simpl in Hrun.
  - destruct (components w !! comp) as [cb|] eqn:Hcb.
    + rewrite (AddComponent_live _ _ _ _ _ _ Hc Hcb) in Hrun.
      injection Hrun as <-. split.
      * apply latched_store; [|done]. by eapply latched_same_objects.
      * by apply no_start_same_trace.
    + unfold GameObject.AddComponent, GameObject.shared_from_this, bind in Hrun.
      simpl in Hrun. rewrite (get_obj_live _ _ _ Hc) in Hrun. simpl in Hrun.
      unfold GameObject.SetOwner in Hrun. by rewrite Hcb in Hrun.
  - discriminate Hrun.
  - unfold bind in Hrun. rewrite (AddComponent_typed_live _ _ _ _ _ Hc) in Hrun.
    injection Hrun as <-. split.
    + apply latched_store; [|done]. by eapply latched_same_objects.
    + by apply no_start_same_trace.
  - destruct (m_umNameToComp (managed c) !! key) as [[comp|]|] eqn:Hk.
    + rewrite (RemoveComponent_stored _ _ _ _ _ Hc Hk) in Hrun.
      injection Hrun as <-. split.
      * apply latched_store; [|done]. by eapply latched_same_objects.
      * exists [(OnRelease, comp)]. split; [done|].
        intros comp' Hin%list_elem_of_singleton. discriminate Hin.
    + rewrite (RemoveComponent_not_stored _ _ _ _ Hc) in Hrun by by rewrite Hk.
      injection Hrun as <-. split; [done|apply no_start_refl].
    + rewrite (RemoveComponent_not_stored _ _ _ _ Hc) in Hrun by by rewrite Hk.
      injection Hrun as <-. split; [done|apply no_start_refl].
  - rewrite RemoveComponent_typed_eq in Hrun.
    destruct (m_umNameToComp (managed c) !! type_name T) as [[comp|]|] eqn:Hk.
    + rewrite (RemoveComponent_stored _ _ _ _ _ Hc Hk) in Hrun.
      injection Hrun as <-. split.
      * apply latched_store; [|done]. by eapply latched_same_objects.
      * exists [(OnRelease, comp)]. split; [done|].
        intros comp' Hin%list_elem_of_singleton. discriminate Hin.
    + rewrite (RemoveComponent_not_stored _ _ _ _ Hc) in Hrun by by rewrite Hk.
      injection Hrun as <-. split; [done|apply no_start_refl].
    + rewrite (RemoveComponent_not_stored _ _ _ _ Hc) in Hrun by by rewrite Hk.
      injection Hrun as <-. split; [done|apply no_start_refl].
  - unfold bind in Hrun. rewrite (GetComponent_live _ _ _ _ Hc) in Hrun.
    injection Hrun as <-. split; [done|apply no_start_refl].
  - unfold bind in Hrun.
    destruct (GameObject.GetComponent_typed _ _ _ _ w) as [[r w1]|] eqn:Hget;
      [|discriminate Hrun].
    injection Hrun as <-.
    unfold GameObject.GetComponent_typed, bind in Hget.
    rewrite (get_obj_live _ _ _ Hc) in Hget.
    destruct (m_umNameToComp (managed c) !! type_name T) as [[comp|]|].
    + unfold GameObject.dynamic_pointer_cast in Hget.
      destruct (components w !! comp); [|discriminate Hget].
      injection Hget as _ <-. split; [done|apply no_start_refl].
    + injection Hget as _ <-. split; [done|apply no_start_refl].
    + injection Hget as _ <-. split; [done|apply no_start_refl].
  - rewrite (SetActive_live _ _ _ _ Hc) in Hrun. injection Hrun as <-. split.
    + by apply latched_store.
    + by apply no_start_same_trace.
  - unfold bind in Hrun. rewrite (IsActive_live _ _ _ Hc) in Hrun.
    injection Hrun as <-. split; [done|apply no_start_refl].
  - unfold bind in Hrun. rewrite (GetName_live _ _ _ Hc) in Hrun.
    injection Hrun as <-. split; [done|apply no_start_refl].
  - destruct (m_isActive (managed c)) eqn:Hon.
    + rewrite (PreUpdate_later _ _ _ Hc Hon Hl) in Hrun. injection Hrun as <-.
      split; [by eapply latched_same_objects|by apply no_start_dispatches].
    + pose proof (inactive_phase type_name dynamic_cast_ok w this c
                    CallPreUpdate Hc Hon eq_refl) as Hno.
      simpl in Hno. rewrite Hno in Hrun. injection Hrun as <-.
      split; [done|apply no_start_refl].
  - destruct (m_isActive (managed c)) eqn:Hon.
    + unfold GameObject.Update in Hrun.
      rewrite (phase_active _ _ _ _ Hc Hon) in Hrun. injection Hrun as <-.
      split; [by eapply latched_same_objects|by apply no_start_dispatches].
    + pose proof (inactive_phase type_name dynamic_cast_ok w this c
                    CallUpdate Hc Hon eq_refl) as Hno.
      simpl in Hno. rewrite Hno in Hrun. injection Hrun as <-.
      split; [done|apply no_start_refl].
  - destruct (m_isActive (managed c)) eqn:Hon.
    + unfold GameObject.PostUpdate in Hrun.
      rewrite (phase_active _ _ _ _ Hc Hon) in Hrun. injection Hrun as <-.
      split; [by eapply latched_same_objects|by apply no_start_dispatches].
    + pose proof (inactive_phase type_name dynamic_cast_ok w this c
                    CallPostUpdate Hc Hon eq_refl) as Hno.
      simpl in Hno. rewrite Hno in Hrun. injection Hrun as <-.
      split; [done|apply no_start_refl].
Qed.

Lemma run_calls_latched this (cs : list (Call TypeId)) w w' :
  latched this w →
  run_calls type_name dynamic_cast_ok this cs w = Some (tt, w') →
  latched this w' ∧ no_start_since w w'.
Proof.
  revert w. induction cs as [|p cs IH]; intros w Hlat Hrun; simpl in Hrun.
  - injection Hrun as <-. split; [done|apply no_start_refl].
  - unfold bind in Hrun.
    destruct (call _ _ _ p w) as [[[] w1]|] eqn:Hp; [|discriminate Hrun].
    destruct (call_latched _ _ _ _ Hlat Hp) as [Hlat1 Hq1].
    destruct (IH _ Hlat1 Hrun) as [Hlat' Hq']. split; [done|].
    by eapply no_start_trans.
Qed.

End LatchFacts.

(** ** Counting the calls of one dispatch loop *)

Section Counting.

Lemma calls_of_app h c (t1 t2 : list Event) :
  calls_of h c (t1 ++ t2) = calls_of h c t1 + calls_of h c t2.
Proof. unfold calls_of. by rewrite filter_app, length_app. Qed.

Lemma calls_of_absent h c (t : list Event) :
  (h, c) ∉ t → calls_of h c t = 0.
Proof.
  unfold calls_of. induction t as [|e t IH]; intros Hnot; [done|].
  apply not_elem_of_cons in Hnot as [Hne Hnot].
  rewrite filter_cons_False by congruence. by apply IH.
Qed.

Lemma calls_of_Permutation h c (t1 t2 : list Event) :
  t1 ≡ₚ t2 → calls_of h c t1 = calls_of h c t2.
Proof. intros Hp. unfold calls_of. by rewrite Hp. Qed.

Lemma elem_of_attached m c :
  c ∈ attached m ↔ ∃ key, m !! key = Some (Some c).
Proof.
  unfold attached. rewrite list_elem_of_omap. split.
  - intros ([key sp] & Hin & Hsp). simpl in Hsp. subst sp.
    exists key. by apply elem_of_map_to_list in Hin.
  - intros (key & Hk). exists (key, Some c). split; [|done].
    by apply elem_of_map_to_list.
Qed.

Lemma elem_of_dispatches h h' c m :
  (h', c) ∈ dispatches h m ↔ h' = h ∧ c ∈ attached m.
Proof.
  unfold dispatches. rewrite list_elem_of_fmap. split.
  - intros (c' & Heq & Hin). by injection Heq as -> ->.
  - intros [-> Hin]. by exists c.
Qed.

Lemma dispatches_delete h m key c :
  m !! key = Some (Some c) →
  dispatches h m ≡ₚ (h, c) :: dispatches h (delete key m).
Proof.
  intros Hk. unfold dispatches, attached.
  by rewrite <- (map_to_list_delete m key (Some c) Hk).
Qed.

(** A component stored under one key is called once by a loop; one that
    is not stored is not called. *)
Lemma calls_of_stored_once h m c :
  stored_once m c → calls_of h c (dispatches h m) = 1.
Proof.
  intros (key & Hk & Huniq).
  rewrite (calls_of_Permutation _ _ _ _ (dispatches_delete h m key c Hk)).
  change ((h, c) :: dispatches h (delete key m))
    with ([(h, c)] ++ dispatches h (delete key m)).
  rewrite calls_of_app, (calls_of_absent _ _ (dispatches _ _)).
  - unfold calls_of. by rewrite filter_cons_True.
  - rewrite elem_of_dispatches, elem_of_attached.
    intros [_ (key' & Hk')]. rewrite lookup_delete in Hk'.
    case_decide as Hd; [done|]. apply Hd. symmetry. by apply Huniq.
Qed.

Lemma calls_of_not_stored h h' m c :
  (∀ key, m !! key ≠ Some (Some c)) → calls_of h' c (dispatches h m) = 0.
Proof.
  intros Hnot. apply calls_of_absent.
  rewrite elem_of_dispatches, elem_of_attached.
  intros [_ (key & Hk)]. by eapply Hnot.
Qed.

End Counting.

(** ** GameObject: OnStart, the latch, the shared component map *)

Section GameObjectTheorems.
Context {TypeId : Type}.
Variable type_name : TypeId → string.
Variable dynamic_cast_ok : TypeId → TypeId → bool.
Implicit Types w : World TypeId.

(** C10. The has-started latch is never reset.  After one [PreUpdate] of
    an active entity the flag [m_isCalledUpdate] is set; whatever calls
    follow on the entity ([SetActive] in both directions, adding and
    removing components, lookups, further phases), the flag stays set and
    no [OnStart] is dispatched to any component, old or new. *)
Theorem has_started_latch_never_resets w this c :
  objects w !! this = Some c →
  m_isActive (managed c) = true →
  ∃ w1,
    GameObject.PreUpdate this w = Some (tt, w1) ∧
    latched this w1 ∧
    ∀ (cs : list (Call TypeId)) w2,
      run_calls type_name dynamic_cast_ok this cs w1 = Some (tt, w2) →
      latched this w2 ∧ no_start_since w1 w2.
Proof.
  intros Hc Hon.
  assert (∃ w1, GameObject.PreUpdate this w = Some (tt, w1) ∧ latched this w1)
    as (w1 & Hpre & Hlat).
  { destruct (m_isCalledUpdate (managed c)) eqn:Hl.
    - eexists. split; [by apply PreUpdate_later|].
      eapply latched_same_objects; [reflexivity|]. by exists c.
    - eexists. split; [by apply PreUpdate_first|].
      eapply latched_same_objects; [reflexivity|].
      exists (set_managed (set_isCalledUpdate true (managed c)) c).
      split; [|done]. by apply lookup_store_obj. }
  exists w1. split; [done|]. split; [done|].
  intros cs w2 Hrun. by eapply run_calls_latched.
Qed.

(** C6 (amended). The typed and the named interface work on the one map
    [m_umNameToComp].  A component attached by [AddComponent(instance,
    key)] with [key = typeid(Type).name()] is what [GetComponent<Type>()]
    finds there, and it is returned when its dynamic type casts to [Type]
    (the result is empty otherwise); [RemoveComponent<Type>()] releases
    and erases it; and [AddComponent<Type>()] stores its new component
    under that key whatever was stored there before. *)
Theorem typed_and_named_share_the_map w this c comp cb T :
  objects w !! this = Some c →
  components w !! comp = Some cb →
  (∃ w1,
     GameObject.AddComponent this (Some comp) (type_name T) w = Some (tt, w1) ∧
     GameObject.GetComponent_typed type_name dynamic_cast_ok this T w1
     = Some (if dynamic_cast_ok (dyn_type cb) T then Some comp else None, w1) ∧
     ∃ w2,
       GameObject.RemoveComponent_typed type_name this T w1 = Some (tt, w2) ∧
       trace w2 = trace w1 ++ [(OnRelease, comp)] ∧
       GameObject.GetComponent this (type_name T) w2 = Some (None, w2)) ∧
  (∃ w1,
     GameObject.AddComponent_typed type_name this T w
     = Some (Some (next_comp w), w1) ∧
     trace w1 = trace w ∧
     GameObject.GetComponent this (type_name T) w1
     = Some (Some (next_comp w), w1)).
Proof.
  intros Hc Hcb. split.
  - eexists. split; [by eapply AddComponent_live|].
    match goal with |- context [GameObject.GetComponent_typed _ _ _ _ ?w1] =>
      set (w' := w1) end.
    assert (objects w' !! this
            = Some (set_managed
                      (set_umNameToComp
                         (<[type_name T := Some comp]> (m_umNameToComp (managed c)))
                         (managed c)) c)) as Hc'.
    { by apply lookup_store_obj. }
    split.
    { rewrite (GetComponent_typed_stored type_name dynamic_cast_ok w' this _ T
                 comp (mkComponentBase (dyn_type cb) (Some this)) Hc').
      - done.
      - simpl. apply lookup_insert_eq.
      - simpl. apply lookup_insert_eq. }
    eexists. split.
    { rewrite RemoveComponent_typed_eq.
      eapply RemoveComponent_stored; [exact Hc'|]. simpl. apply lookup_insert_eq. }
    split; [done|].
    erewrite GetComponent_live.
    2:{ apply lookup_store_obj. exact Hc'. }
    simpl. by rewrite lookup_delete_eq.
  - eexists. split; [by apply AddComponent_typed_live|]. split; [done|].
    erewrite GetComponent_live.
    2:{ by apply lookup_store_obj. }
    simpl. by rewrite lookup_insert_eq.
Qed.


End GameObjectTheorems.

(** ** ObjectManager: the reclamation pass *)

Section RegistryFacts.
Context {TypeId : Type}.
Implicit Types w : World TypeId.

Lemma release_last w o c :
  objects w !! o = Some c →
  use_count c = 1%positive →
  GameObject.shared_ptr_release (Some o) w
  = Some (tt, set_objects (delete o)
                (log_events (dispatches OnRelease (m_umNameToComp (managed c))) w)).
Proof.
  intros Hc Huse. unfold GameObject.shared_ptr_release. rewrite Hc, Huse.
  unfold GameObject.destructor, bind.
  rewrite (get_obj_live _ _ _ Hc), for_each_map.
  unfold get_obj, put_obj. simpl. rewrite Hc.
  unfold set_objects, store_obj, set_objects. simpl.
  by rewrite delete_alter_eq.
Qed.

Lemma release_shared w o c :
  objects w !! o = Some c →
  use_count c ≠ 1%positive →
  GameObject.shared_ptr_release (Some o) w
  = Some (tt, set_objects (<[o := set_use_count (Pos.pred (use_count c)) c]>) w).
Proof.
  intros Hc Huse. unfold GameObject.shared_ptr_release. rewrite Hc.
  by destruct (use_count c).
Qed.

(** Removing the node of an inactive object: the world afterwards. *)
Lemma release_inactive w o c :
  objects w !! o = Some c →
  m_isActive (managed c) = false →
  ∃ w1,
    GameObject.shared_ptr_release (Some o) w = Some (tt, w1) ∧
    components w1 = components w ∧
    trace w1 = trace w ++ node_events w (Some o) ∧
    objects w1 !! o = node_after w o ∧
    ∀ o', o' ≠ o → objects w1 !! o' = objects w !! o'.
Proof.
  intros Hc Hoff. unfold node_events, node_after. rewrite Hc, Hoff.
  destruct (decide (use_count c = 1%positive)) as [Huse|Huse].
  - eexists. split; [by apply release_last|]. rewrite Huse.
    split; [done|]. split; [done|]. split.
    + simpl. apply lookup_delete_eq.
    + intros o' Hne. simpl. by apply lookup_delete_ne.
  - eexists. split; [by apply release_shared|].
    split; [done|]. split.
    { simpl. destruct (use_count c); by rewrite ?app_nil_r. }
    split.
    + simpl. rewrite lookup_insert_eq. by destruct (use_count c).
    + intros o' Hne. simpl. by apply lookup_insert_ne.
Qed.

Lemma bool_decide_node_cons (o : ObjId) (sp : option ObjId) l :
  sp ≠ Some o →
  bool_decide (Some o ∈ sp :: l) = bool_decide (Some o ∈ l).
Proof.
  intros Hne. apply bool_decide_ext. rewrite elem_of_cons.
  split; [intros [Heq|Hin]; [congruence|done] | by right].
Qed.

(** The loop of the pass, against a world [w0] that agrees with the
    current one on the objects of the nodes still to scan. *)
Lemma RemoveUnActuveObjects_loop_spec (l : list (option ObjId)) :
  ∀ names w0 w,
    NoDup (omap id l) →
    (∀ o, Some o ∈ l →
          is_Some (objects w0 !! o) ∧ objects w !! o = objects w0 !! o) →
    ∃ w',
      ObjectManager.RemoveUnActuveObjects_loop l names w
      = Some ((filter (λ sp, node_active w0 sp = true) l,
               foldl (λ n sp, node_erase w0 sp n) names l), w') ∧
      components w' = components w ∧
      trace w' = trace w ++ (l ≫= node_events w0) ∧
      ∀ o, objects w' !! o
           = if bool_decide (Some o ∈ l) then node_after w0 o
             else objects w !! o.
Proof.
  induction l as [|[o|] l IH]; intros names w0 w Hnd Hag.
  - exists w. split; [done|]. split; [done|].
    split; [simpl; by rewrite app_nil_r|]. intros o.
    rewrite bool_decide_eq_false_2; [done|apply not_elem_of_nil].
  - simpl in Hnd. apply NoDup_cons in Hnd as [Hfresh Hnd].
    assert (Some o ∉ l) as Hnotin.
    { intros Hin. apply Hfresh, list_elem_of_omap. by exists (Some o). }
    destruct (Hag o) as [[c Hc0] Hc]; [left|]. rewrite Hc0 in Hc.
    cbn [ObjectManager.RemoveUnActuveObjects_loop]. unfold bind at 1 2.
    rewrite (IsActive_live _ _ _ Hc). cbn [ret].
    destruct (m_isActive (managed c)) eqn:Hon.
    + destruct (IH names w0 w Hnd) as (w' & Hloop & Hcomp & Htr & Hobj).
      { intros o' Hin. apply Hag. by right. }
      exists w'. cbn [negb]. unfold bind. rewrite Hloop. cbn [ret fst snd].
      assert (node_active w0 (Some o) = true) as Hact.
      { unfold node_active. by rewrite Hc0. }
      rewrite filter_cons_True by done.
      assert (node_erase w0 (Some o) names = names) as Hnames.
      { unfold node_erase. by rewrite Hc0, Hon. }
      assert (node_events w0 (Some o) = []) as Hevs.
      { unfold node_events. by rewrite Hc0, Hon. }
      cbn [foldl]. rewrite Hnames.
      split; [done|]. split; [done|]. split.
      { by rewrite bind_cons, Hevs. }
      intros o'. rewrite Hobj.
      destruct (decide (o' = o)) as [->|Hne].
      * rewrite (bool_decide_eq_false_2 _ Hnotin).
        rewrite bool_decide_eq_true_2 by left.
        unfold node_after. by rewrite Hc0, Hon.
      * rewrite bool_decide_node_cons; [done|congruence].
    + cbn [negb]. unfold bind at 1 2.
      rewrite (GetName_live _ _ _ Hc). cbn [ret]. unfold bind at 1.
      destruct (release_inactive w o c Hc Hon)
        as (w1 & Hrel & Hcomp1 & Htr1 & Hobj1 & Hframe1).
      rewrite Hrel.
      destruct (IH (delete (m_name (managed c)) names) w0 w1 Hnd)
        as (w' & Hloop & Hcomp & Htr & Hobj).
      { intros o' Hin. destruct (Hag o') as [Hs Ho']; [by right|].
        split; [done|]. rewrite Hframe1; [done|]. by intros ->. }
      exists w'. rewrite Hloop.
      assert (node_active w0 (Some o) ≠ true) as Hact.
      { unfold node_active. by rewrite Hc0, Hon. }
      rewrite filter_cons_False by done.
      assert (node_erase w0 (Some o) names
              = delete (m_name (managed c)) names) as Hnames.
      { unfold node_erase. by rewrite Hc0, Hon. }
      assert (node_events w (Some o) = node_events w0 (Some o)) as Hevs.
      { unfold node_events. by rewrite Hc, Hc0. }
      cbn [foldl]. rewrite Hnames.
      split; [done|]. split; [by rewrite Hcomp|]. split.
      { by rewrite Htr, Htr1, bind_cons, <- app_assoc, Hevs. }
      intros o'. rewrite Hobj.
      destruct (decide (o' = o)) as [->|Hne].
      * rewrite (bool_decide_eq_false_2 _ Hnotin).
        rewrite bool_decide_eq_true_2 by left.
        rewrite Hobj1. unfold node_after. by rewrite Hc, Hc0.
      * rewrite (Hframe1 _ Hne).
        rewrite bool_decide_node_cons; [done|congruence].
  - simpl in Hnd.
    destruct (IH names w0 w Hnd) as (w' & Hloop & Hcomp & Htr & Hobj).
    { intros o' Hin. apply Hag. by right. }
    exists w'. cbn [ObjectManager.RemoveUnActuveObjects_loop].
    unfold bind, ret. cbn [GameObject.shared_ptr_release]. unfold ret.
    rewrite Hloop.
    rewrite filter_cons_False by done.
    split; [done|]. split; [done|]. split; [done|].
    intros o'. rewrite Hobj.
    rewrite bool_decide_node_cons; [done|congruence].
Qed.

Lemma RemoveUnActuveObjects_loop_active (l : list (option ObjId)) names w :
  (∀ sp, sp ∈ l → node_active w sp = true) →
  ObjectManager.RemoveUnActuveObjects_loop l names w = Some ((l, names), w).
Proof.
  induction l as [|sp l IH]; intros Hall; [done|].
  assert (node_active w sp = true) as Hact by (apply Hall; left).
  destruct sp as [o|]; [|discriminate Hact].
  unfold node_active in Hact.
  destruct (objects w !! o) as [c|] eqn:Hc; [|discriminate Hact].
  cbn [ObjectManager.RemoveUnActuveObjects_loop]. unfold bind at 1 2.
  rewrite (IsActive_live _ _ _ Hc), Hact. cbn [ret negb]. unfold bind.
  rewrite IH; [done|]. intros sp Hin. apply Hall. by right.
Qed.

Lemma foldl_erase_None w0 (l : list (option ObjId)) names (n : string) :
  names !! n = None →
  foldl (λ m sp, node_erase w0 sp m) names l !! n = None.
Proof.
  revert names. induction l as [|sp l IH]; intros names Hn; [done|].
  simpl. apply IH. unfold node_erase.
  repeat case_match; try done.
  rewrite lookup_delete. by case_decide.
Qed.

Lemma foldl_erase_hit w0 (l : list (option ObjId)) names o c :
  Some o ∈ l →
  objects w0 !! o = Some c →
  m_isActive (managed c) = false →
  foldl (λ m sp, node_erase w0 sp m) names l !! m_name (managed c) = None.
Proof.
  intros Hin Hc Hoff. revert names.
  induction l as [|sp l IH]; intros names; [by apply elem_of_nil in Hin|].
  simpl. apply elem_of_cons in Hin as [<-|Hin]; [|by apply IH].
  apply foldl_erase_None. unfold node_erase. rewrite Hc, Hoff.
  apply lookup_delete_eq.
Qed.





End RegistryFacts.

(** ** ObjectManager: what Update keeps and what it reclaims *)

Section RegistryTheorems.
Context {TypeId : Type}.
Implicit Types w : World TypeId.

Lemma Update_spec (r : ObjectManager) w :
  owns_nodes (m_lObjects r) w →
  ∃ w',
    ObjectManager.Update r w
    = Some ((tt, mkObjectManager
                   (foldl (λ n sp, node_erase w sp n) (m_umNameToObjPtr r)
                      (m_lObjects r))
                   (filter (λ sp, node_active w sp = true) (m_lObjects r))),
            w') ∧
    components w' = components w ∧
    trace w' = trace w ++ (m_lObjects r ≫= node_events w) ∧
    ∀ o, objects w' !! o
         = if bool_decide (Some o ∈ m_lObjects r) then node_after w o
           else objects w !! o.
Proof.
  intros [Hnd Hlive].
  destruct (RemoveUnActuveObjects_loop_spec (m_lObjects r)
              (m_umNameToObjPtr r) w w Hnd)
    as (w' & Hloop & Hrest).
  { intros o Hin. split; [by apply Hlive|done]. }
  exists w'. split; [|done].
  unfold ObjectManager.Update, ObjectManager.RemoveUnActuveObjects, bind.
  by rewrite Hloop.
Qed.

(** C9. After [Update()] the live collection is the previous one without
    the nodes whose entity has its active flag false, the nodes that stay
    being in their previous order; the entities that stay, and all
    components, are as they were.  The live collection is one of distinct
    live objects, as [shared_ptr] has it in every state that the code
    reaches. *)
Theorem Update_removes_exactly_the_inactive (r : ObjectManager) w :
  owns_nodes (m_lObjects r) w →
  ∃ r' w',
    ObjectManager.Update r w = Some ((tt, r'), w') ∧
    m_lObjects r' = filter (λ sp, node_active w sp = true) (m_lObjects r) ∧
    (∀ o, Some o ∈ m_lObjects r' → objects w' !! o = objects w !! o) ∧
    components w' = components w.
Proof.
  intros Hown. destruct (Update_spec r w Hown) as (w' & Hup & Hcomp & _ & Hobj).
  eexists _, w'. split; [exact Hup|]. split; [done|]. split; [|done].
  simpl. intros o [Hact Hin]%list_elem_of_filter.
  rewrite Hobj, bool_decide_eq_true_2 by done.
  unfold node_active in Hact. unfold node_after.
  destruct (objects w !! o) as [c|]; [|done]. by rewrite Hact.
Qed.


End RegistryTheorems.

(** ** The code on the sample components *)

(** A base name that is not registered gives the empty name:
    [resultName] is still empty when the loop is left at once. *)
Lemma CreateObjName_unregistered (this : ObjectManager) (a_baseName : string) :
  m_umNameToObjPtr this !! a_baseName = None →
  ObjectManager.CreateObjName this a_baseName = Some EmptyString.
Proof. intros H. unfold ObjectManager.CreateObjName. by rewrite H. Qed.

(** So every entity generated with a base name that is not registered
    gets the empty name, and is indexed under it. *)
Lemma GenerateObject_unregistered {TypeId} (this : ObjectManager)
  (a_name : string) (w : World TypeId) :
  m_umNameToObjPtr this !! a_name = None →
  ∃ w',
    ObjectManager.GenerateObject this a_name w
    = Some ((Some (next_obj w),
             mkObjectManager
               (<[EmptyString := Some (next_obj w)]> (m_umNameToObjPtr this))
               (m_lObjects this ++ [Some (next_obj w)])), w') ∧
    objects w' !! next_obj w
    = Some (mkManaged 2 (mkGameObject false true EmptyString ∅)).
Proof.
  intros Hfree. unfold ObjectManager.GenerateObject, bind at 1 2.
  rewrite (CreateObjName_unregistered _ _ Hfree).
  unfold GameObject.make_shared_GameObject. cbn [deref ret].
  set (o := next_obj w).
  set (c0 := mkManaged 1 (mkGameObject false false EmptyString ∅)).
  set (w0 := mkWorld (<[o := c0]> (objects w)) _ _ _ _).
  assert (objects w0 !! o = Some c0) as H0 by apply lookup_insert_eq.
  unfold bind at 1. unfold GameObject.SetName, bind at 1.
  rewrite (get_obj_live _ _ _ H0). unfold put_obj.
  pose proof (lookup_store_obj w0 o c0 (set_name EmptyString (managed c0)) H0)
    as H1.
  unfold bind at 1. rewrite (SetActive_live _ _ _ _ H1). unfold bind.
  match goal with |- context [GameObject.shared_ptr_copy _ ?w2] =>
    assert (objects w2 !! o
            = Some (mkManaged 1 (mkGameObject false true EmptyString ∅)))
      as H2 by (by rewrite (lookup_store_obj _ _ _ _ H1))
  end.
  unfold GameObject.shared_ptr_copy. rewrite H2.
  eexists. split; [reflexivity|]. simpl. by rewrite lookup_insert_eq.
Qed.

(** C1. [GenerateObject] is specified to name the new entity after the
    base name: the base name itself when it is not registered, otherwise
    with the smallest free suffix; three calls [GenerateObject("X")] on a
    new manager then give "X", "X1", "X2".  The code gives the empty name
    three times. *)
Theorem GenerateObject_three_times_names :
  outcome (generate_three "X" empty_world)
  = Some ([EmptyString; EmptyString; EmptyString], []).
Proof. vm_compute. reflexivity. Qed.

(** C2. Attaching at a key that holds another component is specified to
    call [OnRelease] once on the component that is replaced.  The code
    stores the new component and calls no hook, for [AddComponent(instance,
    key)] and for [AddComponent<Type>()]. *)
Theorem AddComponent_overwrite_calls_no_hook :
  outcome (overwrite_named empty_world) = Some (Some 1, []) ∧
  outcome (overwrite_typed empty_world) = Some ((Some 0, Some 1, Some 1), []).
Proof. split; vm_compute; reflexivity. Qed.

(** C3. The name index and the live collection are specified to stay in
    bijection in every state that the manager reaches.  The state that
    [GenerateObject("A")] and [GenerateObject("B")] reach from a new
    manager is not so: both entities have the empty name and the index has
    one entry, for the second of them. *)
Theorem GenerateObject_breaks_index_bijection :
  ∃ r w, generate_two "A" "B" empty_world = Some (r, w) ∧
         reachable sample_type_name sample_dynamic_cast_ok r w ∧
         ¬ index_bijection r w.
Proof.
  eexists _, _. split; [vm_compute; reflexivity|]. split.
  - eapply (reach_GenerateObject _ _ _ _ "B");
      [eapply (reach_GenerateObject _ _ _ _ "A"); [apply reach_new|]|];
      vm_compute; reflexivity.
  - intros [_ Hindexed].
    assert (Some 0 ∈ [Some 0; Some 1]) as Hin by left.
    specialize (Hindexed 0 (mkManaged 2 (mkGameObject false true EmptyString ∅))
                  Hin eq_refl).
    vm_compute in Hindexed. discriminate Hindexed.
Qed.

(** C8. A lookup that finds nothing is specified to return an empty
    reference; for [GetObject(name)], when no entity is registered under
    [name].  [GetObject] looks up the C string at [name.data()], not the
    characters of the view (as the lookups of [GameObject] do, which make
    a [std::string] of the view).  With the view of the first character of
    ["11"] it returns the entity named ["11"], while the name ["1"] is not
    registered; and with the view of the three characters ["1"], [NUL],
    ["x"] it returns the entity named ["1"]. *)
Theorem GetObject_reads_past_the_view :
  outcome (lookup_by_prefix_view empty_world)
  = Some ((Some 2, "1", None, "11"), [])%string ∧
  outcome (lookup_by_view_with_NUL empty_world)
  = Some ((Some 1, "1" +:+ String NUL "x", None, "1"), [])%string.
Proof. split; vm_compute; reflexivity. Qed.


(** C5. [OnStart] is specified to be called once on every component,
    also on one attached after its entity has been through update cycles,
    in the first cycle after the attachment and before the first
    [OnUpdate] of the component; [ComponentBase::OnStart] is documented
    as called just before the component is updated for the first time.
    In the code the [TransformComponent] that is attached after the first
    cycle of its entity gets [OnUpdate] in the next cycle and [OnStart]
    never: [PreUpdate] calls [OnStart] only while the flag
    [m_isCalledUpdate] of the entity is not set. *)
Theorem late_component_gets_no_OnStart :
  ∃ w, attach_after_first_cycle empty_world = Some (Some 0, w) ∧
       calls_of OnStart 0 (trace w) = 0 ∧
       calls_of OnUpdate 0 (trace w) = 1.
Proof. eexists. repeat split; vm_compute; reflexivity. Qed.

(** C6 fails as it is stated: a [RendererComponent] attached under
    [typeid(TransformComponent).name()] is stored under that key, and
    [GetComponent<TransformComponent>()] is empty. *)
Lemma named_attach_not_found_by_type :
  ∃ w, attach_under_other_type empty_world = Some ((None, Some 0), w).
Proof. eexists. vm_compute. reflexivity. Qed.

(** The sample states are states of the code. *)
Lemma enemy_setup_reaches :
  enemy_setup empty_world = Some (enemy_manager, enemy_world).
Proof. vm_compute. reflexivity. Qed.

Lemma idle_setup_reaches :
  idle_setup empty_world = Some (enemy_manager, idle_world).
Proof. vm_compute. reflexivity. Qed.

Lemma mixed_setup_reaches :
  mixed_setup empty_world = Some (enemy_manager, mixed_world).
Proof. vm_compute. reflexivity. Qed.

Lemma trio_setup_reaches :
  trio_setup empty_world = Some (trio_manager, trio_world).
Proof. vm_compute. reflexivity. Qed.

Lemma stored_once_singleton (key : string) (comp : CompId) :
  stored_once {[ key := Some comp ]} comp.
Proof.
  exists key. split; [apply lookup_singleton_eq|].
  intros key' [Hk _]%lookup_singleton_Some. done.
Qed.


(** The deactivated sample entity: its phases, alone and in sequence,
    leave the world as it is. *)
Lemma inactive_phases_are_noops_witness :
  objects idle_world !! 0 = Some idle_cell ∧
  m_isActive (managed idle_cell) = false ∧
  GameObject.PreUpdate 0 idle_world = Some (tt, idle_world) ∧
  GameObject.Update 0 idle_world = Some (tt, idle_world) ∧
  GameObject.PostUpdate 0 idle_world = Some (tt, idle_world) ∧
  run_calls sample_type_name sample_dynamic_cast_ok 0
    [CallPreUpdate; CallUpdate; CallPostUpdate; CallPreUpdate] idle_world
  = Some (tt, idle_world).
Proof.
  split; [reflexivity|]. split; [reflexivity|].
  destruct (inactive_phases_are_noops sample_type_name sample_dynamic_cast_ok
              idle_world 0 idle_cell eq_refl eq_refl)
    as (Hpre & Hup & Hpost & Hall).
  split; [exact Hpre|]. split; [exact Hup|]. split; [exact Hpost|].
  apply Hall. reflexivity.
Defined.

(** The sample entity: after its first [PreUpdate], the calls of
    [busy_calls] run, leave the latch set and call no [OnStart]. *)
Lemma has_started_latch_never_resets_witness :
  objects enemy_world !! 0 = Some enemy_cell ∧
  m_isActive (managed enemy_cell) = true ∧
  ∃ w1 w2,
    GameObject.PreUpdate 0 enemy_world = Some (tt, w1) ∧
    latched 0 w1 ∧
    run_calls sample_type_name sample_dynamic_cast_ok 0 busy_calls w1
    = Some (tt, w2) ∧
    latched 0 w2 ∧ no_start_since w1 w2.
Proof.
  split; [reflexivity|]. split; [reflexivity|].
  destruct (has_started_latch_never_resets sample_type_name
              sample_dynamic_cast_ok enemy_world 0 enemy_cell eq_refl eq_refl)
    as (w1 & Hpre & Hlat & Hafter).
  destruct (run_calls sample_type_name sample_dynamic_cast_ok 0 busy_calls w1)
    as [[[] w2]|] eqn:Hrun.
  - exists w1, w2. split; [exact Hpre|]. split; [exact Hlat|].
    split; [exact Hrun|]. exact (Hafter busy_calls w2 Hrun).
  - exfalso. vm_compute in Hpre. injection Hpre as <-.
    vm_compute in Hrun. discriminate Hrun.
Defined.

(** The calls of [busy_calls] after a first [PreUpdate]: the run is
    defined, and [OnStart] is called once, by that [PreUpdate]. *)
Lemma busy_calls_run :
  outcome (run_calls sample_type_name sample_dynamic_cast_ok 0
             (CallPreUpdate :: busy_calls) enemy_world)
  = Some (tt, [(OnStart, 0); (OnPreUpdate, 0); (OnRelease, 0);
               (OnPreUpdate, 1); (OnPreUpdate, 0); (OnUpdate, 1); (OnUpdate, 0);
               (OnPostUpdate, 1); (OnPostUpdate, 0);
               (OnPreUpdate, 1); (OnPreUpdate, 0)]).
Proof. vm_compute. reflexivity. Qed.

(** The sample entity: its [TransformComponent] attached once more, under
    the key of [ComponentBase], is found and removed by type. *)
Lemma typed_and_named_share_the_map_witness :
  objects enemy_world !! 0 = Some enemy_cell ∧
  components enemy_world !! 0 = Some (mkComponentBase TTransformComponent (Some 0)) ∧
  (∃ w1,
     GameObject.AddComponent 0 (Some 0) (sample_type_name TComponentBase)
       enemy_world = Some (tt, w1) ∧
     GameObject.GetComponent_typed sample_type_name sample_dynamic_cast_ok
       0 TComponentBase w1 = Some (Some 0, w1) ∧
     ∃ w2,
       GameObject.RemoveComponent_typed sample_type_name 0 TComponentBase w1
       = Some (tt, w2) ∧
       trace w2 = trace w1 ++ [(OnRelease, 0)] ∧
       GameObject.GetComponent 0 (sample_type_name TComponentBase) w2
       = Some (None, w2)) ∧
  (∃ w1,
     GameObject.AddComponent_typed sample_type_name 0 TComponentBase
       enemy_world = Some (Some 1, w1) ∧
     trace w1 = trace enemy_world ∧
     GameObject.GetComponent 0 (sample_type_name TComponentBase) w1
     = Some (Some 1, w1)).
Proof.
  split; [reflexivity|]. split; [reflexivity|].
  apply (typed_and_named_share_the_map sample_type_name sample_dynamic_cast_ok
           enemy_world 0 enemy_cell 0
           (mkComponentBase TTransformComponent (Some 0)) TComponentBase);
    reflexivity.
Defined.


Lemma owns_nodes_trio : owns_nodes (m_lObjects trio_manager) trio_world.
Proof.
  split.
  - apply (bool_decide_unpack _). by vm_compute.
  - intros o Hin. simpl in Hin.
    repeat (apply elem_of_cons in Hin as [Heq|Hin];
            [injection Heq as ->; by eexists|]).
    by apply elem_of_nil in Hin.
Qed.

(** The three sample entities. *)
Lemma Update_removes_exactly_the_inactive_witness :
  owns_nodes (m_lObjects trio_manager) trio_world ∧
  ∃ r' w',
    ObjectManager.Update trio_manager trio_world = Some ((tt, r'), w') ∧
    m_lObjects r'
    = filter (λ sp, node_active trio_world sp = true) (m_lObjects trio_manager) ∧
    (∀ o, Some o ∈ m_lObjects r' → objects w' !! o = objects trio_world !! o) ∧
    components w' = components trio_world.
Proof.
  split; [apply owns_nodes_trio|].
  apply (Update_removes_exactly_the_inactive trio_manager trio_world).
  apply owns_nodes_trio.
Defined.

(** The pass on the three entities: the first one goes, with its name;
    the two others stay, in their order. *)
Lemma Update_trio :
  (λ x, (m_lObjects x.1.2, m_umNameToObjPtr x.1.2 !! EmptyString,
         objects x.2 !! 0))
    <$> ObjectManager.Update trio_manager trio_world
  = Some ([Some 1; Some 2], None, None).
Proof. vm_compute. reflexivity. Qed.




(** On the sample state the component is released once, and a second
    update adds nothing. *)
Lemma enemy_released_once :
  outcome ((GameObject.SetActive 0 false ;;
            r <- ObjectManager.Update enemy_manager ;;
            r' <- ObjectManager.Update r.2 ;;
            ObjectManager.GetObject r'.2 EmptyString) enemy_world)
  = Some ((None, empty_manager), [(OnRelease, 0)]).
Proof. vm_compute. reflexivity. Qed.

(** ** ObjectManager: the loop of CreateObjName *)

Section CreateObjNameFacts.
Implicit Types names : gmap string (option ObjId).

Lemma candidate_inj base : Inj (=) (=) (candidate base).
Proof.
  intros j1 j2 Heq. unfold candidate in Heq.
  apply String.app_inj, pretty_N_inj, Nat2N.inj in Heq. done.
Qed.

(** Among the suffixes from 1 to the number of registered names plus
    one, a first one gives a name that is not registered. *)
Lemma first_free_candidate names base :
  ∃ k, 1 ≤ k ≤ S (size names) ∧
       names !! candidate base k = None ∧
       ∀ j, 1 ≤ j < k → is_Some (names !! candidate base j).
Proof.
  destruct (list_find (λ j, names !! candidate base j = None)
              (seq 1 (S (size names)))) as [[i k]|] eqn:Hfind.
  - apply list_find_Some in Hfind as (Hk & Hfree & Hbefore).
    apply lookup_seq in Hk as [-> Hi].
    exists (1 + i). split; [lia|]. split; [done|].
    intros j Hj. apply not_eq_None_Some.
    apply (Hbefore (j - 1) j); [|lia].
    apply lookup_seq. lia.
  - apply list_find_None in Hfind. exfalso.
    assert (list_to_set (candidate base <$> seq 1 (S (size names)))
            ⊆@{gset string} dom names) as Hsub.
    { intros name [j [-> Hj]]%elem_of_list_to_set%list_elem_of_fmap.
      apply elem_of_dom, not_eq_None_Some.
      by apply (proj1 (Forall_forall _ _) Hfind). }
    apply subseteq_size in Hsub.
    rewrite size_list_to_set, size_dom, length_fmap, length_seq in Hsub; [lia|].
    apply (NoDup_fmap_2 _), NoDup_seq.
Qed.

Lemma size_t_incr_small (i : nat) :
  (N.of_nat (S i) < 2 ^ 64)%N →
  ObjectManager.size_t_incr (N.of_nat i) = N.of_nat (S i).
Proof.
  intros Hlt. unfold ObjectManager.size_t_incr.
  rewrite <- Nat2N.inj_succ. by apply N.mod_small.
Qed.

(** The loop, entered with [isFirstName] false, from the suffix [i]:
    it goes through the registered names and returns the first free one,
    given fuel for every iteration. *)
Lemma CreateObjName_loop_search names base :
  ∀ n i fuel res,
    (∀ j, i ≤ j < i + n → is_Some (names !! candidate base j)) →
    names !! candidate base (i + n) = None →
    (N.of_nat (i + n) < 2 ^ 64)%N →
    S (S n) ≤ fuel →
    ObjectManager.CreateObjName_loop names base fuel (N.of_nat i) false res
    = Some (candidate base (i + n)).
Proof.
  induction n as [|n IH]; intros i fuel res Hused Hfree Hrange Hfuel.
  - destruct fuel as [|[|fuel]]; [lia..|].
    rewrite Nat.add_0_r in Hfree |- *. simpl.
    fold (candidate base i). by rewrite Hfree.
  - destruct fuel as [|fuel]; [lia|]. simpl.
    fold (candidate base i).
    destruct (Hused i) as [sp Hsp]; [lia|]. rewrite Hsp.
    rewrite size_t_incr_small by lia.
    replace (i + S n) with (S i + n) in * by lia.
    apply IH; [|done|done|lia].
    intros j Hj. apply Hused. lia.
Qed.

(** A registered base name: the result is the base name followed by the
    first suffix, from 1 on, that gives a name not yet registered. *)
Lemma CreateObjName_registered (this : ObjectManager) (a_baseName : string) :
  is_Some (m_umNameToObjPtr this !! a_baseName) →
  (N.of_nat (S (size (m_umNameToObjPtr this))) < 2 ^ 64)%N →
  ∃ k, 1 ≤ k ∧
       ObjectManager.CreateObjName this a_baseName
       = Some (candidate a_baseName k) ∧
       m_umNameToObjPtr this !! candidate a_baseName k = None ∧
       ∀ j, 1 ≤ j < k →
            is_Some (m_umNameToObjPtr this !! candidate a_baseName j).
Proof.
  intros [sp Hreg] Hsize.
  destruct (first_free_candidate (m_umNameToObjPtr this) a_baseName)
    as (k & Hk & Hfree & Hused).
  exists k. split; [lia|]. split; [|done].
  unfold ObjectManager.CreateObjName. rewrite Hreg.
  replace k with (1 + (k - 1)) in Hfree |- * by lia.
  apply (CreateObjName_loop_search _ _ (k - 1) 1); [|done|lia|lia].
  intros j Hj. apply Hused. lia.
Qed.

End CreateObjNameFacts.

(** ** The states that the code reaches own their nodes *)

Section HeapFacts.
Context {TypeId : Type}.
Variable type_name : TypeId → string.
Variable dynamic_cast_ok : TypeId → TypeId → bool.
Implicit Types w : World TypeId.

Lemma same_heap_refl w : same_heap w w.
Proof. by split. Qed.

Lemma same_heap_trans w1 w2 w3 :
  same_heap w1 w2 → same_heap w2 w3 → same_heap w1 w3.
Proof.
  intros [Hn1 Ho1] [Hn2 Ho2]. split; [congruence|].
  intros o. by rewrite Ho2, Ho1.
Qed.

Lemma keeps_heap_ret {A} (a : A) : keeps_heap (TypeId := TypeId) (ret a).
Proof. intros w a' w' [= _ <-]. apply same_heap_refl. Qed.

Lemma keeps_heap_bind {A B} (m : M TypeId A) (f : A → M TypeId B) :
  keeps_heap m → (∀ a, keeps_heap (f a)) → keeps_heap (bind m f).
Proof.
  intros Hm Hf w b w' Hrun. unfold bind in Hrun.
  destruct (m w) as [[a w1]|] eqn:Hmw; [|discriminate Hrun].
  eapply same_heap_trans; [by eapply Hm|by eapply Hf].
Qed.

Lemma keeps_heap_undefined {A} : keeps_heap (TypeId := TypeId) (undefined (A := A)).
Proof. intros w a w' Hrun. discriminate Hrun. Qed.

Lemma keeps_heap_deref {A} (sp : option A) : keeps_heap (TypeId := TypeId) (deref sp).
Proof. destruct sp; [apply keeps_heap_ret|apply keeps_heap_undefined]. Qed.

Lemma keeps_heap_get_obj o : keeps_heap (TypeId := TypeId) (get_obj o).
Proof.
  intros w g w' Hrun. unfold get_obj in Hrun.
  destruct (objects w !! o); [|discriminate Hrun].
  injection Hrun as _ <-. apply same_heap_refl.
Qed.

Lemma keeps_heap_put_obj o g : keeps_heap (TypeId := TypeId) (put_obj o g).
Proof.
  intros w [] w' [= <-]. split; [done|]. intros o'. simpl.
  rewrite lookup_alter. case_decide as Hd; [|done]. subst o'.
  by rewrite fmap_is_Some.
Qed.

Lemma keeps_heap_call_hook h c : keeps_heap (TypeId := TypeId) (call_hook h c).
Proof. intros w [] w' [= <-]. by split. Qed.

Lemma keeps_heap_SetOwner c sp : keeps_heap (TypeId := TypeId) (GameObject.SetOwner c sp).
Proof.
  intros w [] w' Hrun. unfold GameObject.SetOwner in Hrun.
  destruct (components w !! c); [|discriminate Hrun].
  injection Hrun as <-. by split.
Qed.

Lemma keeps_heap_make_shared (T : TypeId) : keeps_heap (GameObject.make_shared T).
Proof. intros w c w' [= _ <-]. by split. Qed.

Lemma keeps_heap_dynamic_pointer_cast (T : TypeId) c :
  keeps_heap (GameObject.dynamic_pointer_cast dynamic_cast_ok T c).
Proof.
  intros w r w' Hrun. unfold GameObject.dynamic_pointer_cast in Hrun.
  destruct (components w !! c); [|discriminate Hrun].
  injection Hrun as _ <-. apply same_heap_refl.
Qed.

Lemma keeps_heap_for_each l h : keeps_heap (TypeId := TypeId) (GameObject.for_each l h).
Proof.
  intros w [] w' Hrun. rewrite for_each_spec in Hrun.
  injection Hrun as <-. by split.
Qed.

End HeapFacts.

Ltac keeps_heap_step :=
  first
    [ apply keeps_heap_ret
    | apply keeps_heap_undefined
    | apply keeps_heap_deref
    | apply keeps_heap_get_obj
    | apply keeps_heap_put_obj
    | apply keeps_heap_call_hook
    | apply keeps_heap_SetOwner
    | apply keeps_heap_make_shared
    | apply keeps_heap_dynamic_pointer_cast
    | apply keeps_heap_for_each
    | apply keeps_heap_bind; [|intros ?]
    | match goal with
      | |- keeps_heap (match ?x with _ => _ end) => destruct x
      end ].

Section ReachableFacts.
Context {TypeId : Type}.
Variable type_name : TypeId → string.
Variable dynamic_cast_ok : TypeId → TypeId → bool.
Implicit Types w : World TypeId.

Lemma keeps_heap_call this (p : Call TypeId) :
  keeps_heap (call type_name dynamic_cast_ok this p).
Proof.
  destruct p; simpl;
    unfold GameObject.AddComponent, GameObject.AddComponent_typed,
      GameObject.RemoveComponent, GameObject.RemoveComponent_typed,
      GameObject.GetComponent, GameObject.GetComponent_typed,
      GameObject.SetActive, GameObject.IsActive, GameObject.GetName,
      GameObject.PreUpdate, GameObject.Update, GameObject.PostUpdate,
      GameObject.shared_from_this;
    repeat keeps_heap_step.
Qed.

End ReachableFacts.

Section ReachableInvariant.
Context {TypeId : Type}.
Variable type_name : TypeId → string.
Variable dynamic_cast_ok : TypeId → TypeId → bool.
Implicit Types w : World TypeId.

Lemma same_heap_no_alloc w w' : same_heap w w' → no_alloc w w'.
Proof. intros [Hn Ho]. split; [done|]. intros o. by rewrite Ho. Qed.

Lemma no_alloc_refl w : no_alloc w w.
Proof. by split. Qed.

Lemma no_alloc_trans w1 w2 w3 :
  no_alloc w1 w2 → no_alloc w2 w3 → no_alloc w1 w3.
Proof.
  intros [Hn1 Ho1] [Hn2 Ho2]. split; [congruence|].
  intros o Ho. by apply Ho1, Ho2.
Qed.

Lemma frees_only_bind {A B} (m : M TypeId A) (f : A → M TypeId B) :
  frees_only m → (∀ a, frees_only (f a)) → frees_only (bind m f).
Proof.
  intros Hm Hf w b w' Hrun. unfold bind in Hrun.
  destruct (m w) as [[a w1]|] eqn:Hmw; [|discriminate Hrun].
  eapply no_alloc_trans; [by eapply Hm|by eapply Hf].
Qed.

Lemma keeps_heap_frees_only {A} (m : M TypeId A) : keeps_heap m → frees_only m.
Proof. intros Hm w a w' Hrun. apply same_heap_no_alloc. by eapply Hm. Qed.

(** Dropping one owner: no other object changes, none is allocated. *)
Lemma shared_ptr_release_frame w o w' :
  GameObject.shared_ptr_release (Some o) w = Some (tt, w') →
  no_alloc w w' ∧ ∀ o', o' ≠ o → objects w' !! o' = objects w !! o'.
Proof.
  intros Hrun.
  destruct (objects w !! o) as [c|] eqn:Hc.
  - destruct (decide (use_count c = 1%positive)) as [Huse|Huse].
    + rewrite (release_last _ _ _ Hc Huse) in Hrun. injection Hrun as <-.
      split; [split; [done|]|].
      * intros o'. simpl. rewrite lookup_delete. by case_decide.
      * intros o' Hne. simpl. by apply lookup_delete_ne.
    + rewrite (release_shared _ _ _ Hc Huse) in Hrun. injection Hrun as <-.
      split; [split; [done|]|].
      * intros o'. simpl. rewrite lookup_insert. case_decide; [|done].
        subst o'. by rewrite Hc.
      * intros o' Hne. simpl. by apply lookup_insert_ne.
  - unfold GameObject.shared_ptr_release in Hrun. by rewrite Hc in Hrun.
Qed.

Lemma frees_only_shared_ptr_release (sp : option ObjId) :
  frees_only (TypeId := TypeId) (GameObject.shared_ptr_release sp).
Proof.
  intros w [] w' Hrun. destruct sp as [o|].
  - by apply shared_ptr_release_frame in Hrun as [? _].
  - injection Hrun as <-. apply no_alloc_refl.
Qed.

Lemma frees_only_clear_list (l : list (option ObjId)) :
  frees_only (TypeId := TypeId) (ObjectManager.clear_list l).
Proof.
  induction l as [|sp l IH]; simpl.
  - apply keeps_heap_frees_only, keeps_heap_ret.
  - apply frees_only_bind; [apply frees_only_shared_ptr_release|done].
Qed.

Lemma frees_only_RemoveUnActuveObjects_loop (l : list (option ObjId)) names :
  frees_only (TypeId := TypeId) (ObjectManager.RemoveUnActuveObjects_loop l names).
Proof.
  revert names. induction l as [|sp l IH]; intros names; simpl.
  - apply keeps_heap_frees_only, keeps_heap_ret.
  - apply frees_only_bind.
    { apply keeps_heap_frees_only. destruct sp; [|apply keeps_heap_ret].
      unfold GameObject.IsActive. repeat keeps_heap_step. }
    intros [|].
    + apply frees_only_bind.
      { apply keeps_heap_frees_only. destruct sp; [|apply keeps_heap_ret].
        unfold GameObject.GetName. repeat keeps_heap_step. }
      intros names'. apply frees_only_bind; [|done].
      apply frees_only_shared_ptr_release.
    + apply frees_only_bind; [done|]. intros r.
      apply keeps_heap_frees_only, keeps_heap_ret.
Qed.

Lemma NoDup_nodes_filter (P : option ObjId → Prop) `{∀ sp, Decision (P sp)}
  (l : list (option ObjId)) :
  NoDup (omap id l) → NoDup (omap id (filter P l)).
Proof.
  induction l as [|sp l IH]; [done|]. rewrite filter_cons.
  destruct sp as [o|]; simpl.
  - intros [Hnot Hnd]%NoDup_cons. case_decide; [|by apply IH].
    simpl. apply NoDup_cons. split; [|by apply IH].
    intros Hin. apply Hnot.
    apply list_elem_of_omap in Hin as (sp & [_ Hin]%list_elem_of_filter & Hsp).
    apply list_elem_of_omap. by exists sp.
  - intros Hnd. case_decide; by apply IH.
Qed.

Lemma manager_ok_same_heap (r : ObjectManager) w w' :
  manager_ok r w → same_heap w w' → manager_ok r w'.
Proof.
  intros [[Hnd Hlive] Hmark] [Hn Ho]. split; [split; [done|]|].
  - intros o Hin. apply Ho. by apply Hlive.
  - intros o Hsome. rewrite Hn. by apply Hmark, Ho.
Qed.

Lemma keeps_heap_shared_ptr_copy (sp : option ObjId) :
  keeps_heap (TypeId := TypeId) (GameObject.shared_ptr_copy sp).
Proof.
  destruct sp as [o|]; [|apply keeps_heap_ret].
  intros w [] w' Hrun. unfold GameObject.shared_ptr_copy in Hrun.
  destruct (objects w !! o) as [c|] eqn:Hc; [|discriminate Hrun].
  injection Hrun as <-. split; [done|]. intros o'. simpl.
  rewrite lookup_insert. case_decide; [|done]. subst o'. by rewrite Hc.
Qed.

Lemma keeps_heap_SetName o a_name :
  keeps_heap (TypeId := TypeId) (GameObject.SetName o a_name).
Proof. unfold GameObject.SetName. repeat keeps_heap_step. Qed.

Lemma keeps_heap_SetActive o b :
  keeps_heap (TypeId := TypeId) (GameObject.SetActive o b).
Proof. unfold GameObject.SetActive. repeat keeps_heap_step. Qed.

Lemma GenerateObject_ok (r : ObjectManager) w a_name sp r' w' :
  manager_ok r w →
  ObjectManager.GenerateObject r a_name w = Some ((sp, r'), w') →
  manager_ok r' w'.
Proof.
  intros [[Hnd Hlive] Hmark] Hrun.
  unfold ObjectManager.GenerateObject, bind in Hrun.
  unfold GameObject.make_shared_GameObject at 1 in Hrun.
  set (o := next_obj w) in *.
  set (w0 := mkWorld _ _ _ _ _) in Hrun.
  destruct (ObjectManager.CreateObjName r a_name) as [objName|];
    [|discriminate Hrun].
  cbn [deref ret] in Hrun.
  destruct (GameObject.SetName o objName w0) as [[[] w1]|] eqn:H1;
    [|discriminate Hrun].
  destruct (GameObject.SetActive o true w1) as [[[] w2]|] eqn:H2;
    [|discriminate Hrun].
  destruct (GameObject.shared_ptr_copy (Some o) w2) as [[[] w3]|] eqn:H3;
    [|discriminate Hrun].
  injection Hrun as <- <- <-.
  assert (same_heap w0 w3) as [Hn Ho].
  { eapply same_heap_trans; [|eapply same_heap_trans].
    - by eapply keeps_heap_SetName.
    - by eapply keeps_heap_SetActive.
    - by eapply keeps_heap_shared_ptr_copy. }
  assert (∀ o', is_Some (objects w0 !! o') ↔ o' = o ∨ is_Some (objects w !! o'))
    as Hw0.
  { intros o'. subst w0. simpl. rewrite lookup_insert.
    case_decide as Hd.
    - subst o'. split; [by left|by eexists].
    - split; [by right|]. by intros [?|?]. }
  split; [split|]; simpl.
  - rewrite omap_app. simpl. apply NoDup_app. split; [done|].
    split; [|apply NoDup_singleton].
    intros o' Hin ->%list_elem_of_singleton.
    apply list_elem_of_omap in Hin as ([o''|] & Hin & Heq); [|done].
    simpl in Heq. injection Heq as ->.
    specialize (Hmark o (Hlive o Hin)). unfold o in Hmark. lia.
  - intros o' [Hin| ->%list_elem_of_singleton%(inj Some)]%elem_of_app;
      apply Ho, Hw0; [right; by apply Hlive|by left].
  - intros o' Hsome. rewrite Hn. subst w0. simpl.
    apply Ho, Hw0 in Hsome as [->|Hsome]; [lia|].
    specialize (Hmark o' Hsome). unfold o. lia.
Qed.

Lemma Update_ok (r : ObjectManager) w r' w' :
  manager_ok r w →
  ObjectManager.Update r w = Some ((tt, r'), w') →
  manager_ok r' w'.
Proof.
  intros [Hown Hmark] Hrun.
  destruct (Update_spec r w Hown) as (w'' & Hup & _ & _ & Hobj).
  rewrite Hup in Hrun. injection Hrun as <- <-.
  assert (no_alloc w w'') as [Hn Hsub].
  { unfold ObjectManager.Update, ObjectManager.RemoveUnActuveObjects in Hup.
    unfold bind in Hup.
    destruct (ObjectManager.RemoveUnActuveObjects_loop _ _ w)
      as [[res w1]|] eqn:Hloop; [|discriminate Hup].
    injection Hup as _ _ <-.
    by eapply frees_only_RemoveUnActuveObjects_loop. }
  destruct Hown as [Hnd Hlive]. split; [split|]; simpl.
  - by apply NoDup_nodes_filter.
  - intros o [Hact Hin]%list_elem_of_filter.
    rewrite Hobj, bool_decide_eq_true_2 by done.
    unfold node_active in Hact. unfold node_after.
    destruct (objects w !! o) as [c|]; [|done]. by rewrite Hact.
  - intros o Hsome. rewrite Hn. by apply Hmark, Hsub.
Qed.

Lemma ReleaseAllObjects_ok (r : ObjectManager) w r' w' :
  manager_ok r w →
  ObjectManager.ReleaseAllObjects r w = Some ((tt, r'), w') →
  manager_ok r' w'.
Proof.
  intros [_ Hmark] Hrun. unfold ObjectManager.ReleaseAllObjects, bind in Hrun.
  destruct (ObjectManager.clear_list (m_lObjects r) w) as [[[] w1]|] eqn:Hclear;
    [|discriminate Hrun].
  injection Hrun as <- <-.
  apply frees_only_clear_list in Hclear as [Hn Hsub].
  split; [split; [apply NoDup_nil_2|]|]; simpl.
  - intros o Hin. by apply elem_of_nil in Hin.
  - intros o Hsome. rewrite Hn. by apply Hmark, Hsub.
Qed.

Lemma drop_ok (r : ObjectManager) w o c w' :
  manager_ok r w →
  objects w !! o = Some c →
  (Some o ∈ m_lObjects r → use_count c ≠ 1%positive) →
  GameObject.shared_ptr_release (Some o) w = Some (tt, w') →
  manager_ok r w'.
Proof.
  intros [[Hnd Hlive] Hmark] Hc Hheld Hrun.
  pose proof (shared_ptr_release_frame _ _ _ Hrun) as [[Hn Hsub] Hframe].
  split; [split; [done|]|].
  - intros o' Hin. destruct (decide (o' = o)) as [->|Hne].
    + rewrite (release_shared _ _ _ Hc (Hheld Hin)) in Hrun.
      injection Hrun as <-. simpl. by rewrite lookup_insert_eq.
    + rewrite Hframe by done. by apply Hlive.
  - intros o' Hsome. rewrite Hn. by apply Hmark, Hsub.
Qed.

(** Every state that the code reaches has a live collection of distinct,
    live objects: the hypothesis of the theorems on [Update]. *)
Lemma reachable_manager_ok (r : ObjectManager) w :
  reachable type_name dynamic_cast_ok r w → manager_ok r w.
Proof.
  induction 1 as [|r w a_name sp r' w' _ IH Hrun|r w r' w' _ IH Hrun
                  |r w r' w' _ IH Hrun|r w this p w' _ IH Hrun
                  |r w T c w' _ IH Hrun|r w o c w' _ IH Hc Hheld Hrun].
  - split; [split; [apply NoDup_nil_2|]|].
    + intros o Hin. by apply elem_of_nil in Hin.
    + intros o [c Hc]. simpl in Hc. by rewrite lookup_empty in Hc.
  - by eapply GenerateObject_ok.
  - by eapply Update_ok.
  - by eapply ReleaseAllObjects_ok.
  - eapply manager_ok_same_heap; [done|]. by eapply keeps_heap_call.
  - eapply manager_ok_same_heap; [done|]. by eapply keeps_heap_make_shared.
  - by eapply drop_ok.
Qed.

End ReachableInvariant.

(** * Further properties *)

(** ** GameObject: what a call leaves alone *)

Section FrameFacts.
Context {TypeId : Type}.
Variable type_name : TypeId → string.
Variable dynamic_cast_ok : TypeId → TypeId → bool.
Implicit Types w : World TypeId.

Lemma set_managed_id (c : Managed) : set_managed (managed c) c = c.
Proof. by destruct c. Qed.

Lemma entity_frame_same this w w' c :
  objects w !! this = Some c →
  objects w' = objects w →
  entity_frame this w w'.
Proof.
  intros Hc Ho. exists c, (managed c). rewrite Ho, set_managed_id.
  split; [done|]. split; [done|]. split; [done|]. by intros o _.
Qed.

Lemma entity_frame_store this w w0 c g :
  objects w !! this = Some c →
  objects w0 = objects w →
  m_name g = m_name (managed c) →
  entity_frame this w (store_obj this g w0).
Proof.
  intros Hc Ho Hname. exists c, g. split; [done|]. split.
  { apply lookup_store_obj. by rewrite Ho. }
  split; [done|]. intros o Hne.
  rewrite lookup_store_obj_ne by done. by rewrite Ho.
Qed.

Lemma entity_frame_trans this w1 w2 w3 :
  entity_frame this w1 w2 → entity_frame this w2 w3 → entity_frame this w1 w3.
Proof.
  intros (c & g2 & Hc & H2 & Hn2 & Hf2) (c2 & g3 & Hc2 & H3 & Hn3 & Hf3).
  rewrite H2 in Hc2. injection Hc2 as <-.
  exists c, g3. split; [done|]. split; [done|].
  split; [by rewrite Hn3|]. intros o Hne. by rewrite Hf3, Hf2.
Qed.

(** A call on an entity that is gone is undefined. *)
Lemma call_dead this (p : Call TypeId) w :
  objects w !! this = None →
  call type_name dynamic_cast_ok this p w = None.
Proof.
  intros Hdead.
  destruct p as [[comp|] key|T|key|T|key|T|b| | | | |]; simpl;
    unfold GameObject.AddComponent, GameObject.AddComponent_typed,
      GameObject.RemoveComponent, GameObject.RemoveComponent_typed,
      GameObject.GetComponent, GameObject.GetComponent_typed,
      GameObject.SetActive, GameObject.IsActive, GameObject.GetName,
      GameObject.PreUpdate, GameObject.Update, GameObject.PostUpdate,
      GameObject.shared_from_this, GameObject.make_shared, bind, get_obj;
    simpl; by rewrite ?Hdead.
Qed.

Lemma call_frame this (p : Call TypeId) w w' :
  call type_name dynamic_cast_ok this p w = Some (tt, w') →
  entity_frame this w w'.
Proof.
  intros Hrun.
  destruct (objects w !! this) as [c|] eqn:Hc;
    [|by rewrite call_dead in Hrun].
  destruct p as [[comp|] key|T|key|T|key|T|b| | | | |]; simpl in Hrun.
  - destruct (components w !! comp) as [cb|] eqn:Hcb.
    + rewrite (AddComponent_live _ _ _ _ _ _ Hc Hcb) in Hrun.
      injection Hrun as <-. by eapply entity_frame_store.
    + unfold GameObject.AddComponent, GameObject.shared_from_this, bind in Hrun.
      simpl in Hrun. rewrite (get_obj_live _ _ _ Hc) in Hrun. simpl in Hrun.
      unfold GameObject.SetOwner in Hrun. by rewrite Hcb in Hrun.
  - discriminate Hrun.
  - unfold bind in Hrun. rewrite (AddComponent_typed_live _ _ _ _ _ Hc) in Hrun.
    injection Hrun as <-. by eapply entity_frame_store.
  - destruct (m_umNameToComp (managed c) !! key) as [[comp|]|] eqn:Hk.
    + rewrite (RemoveComponent_stored _ _ _ _ _ Hc Hk) in Hrun.
      injection Hrun as <-. by eapply entity_frame_store.
    + rewrite (RemoveComponent_not_stored _ _ _ _ Hc) in Hrun by by rewrite Hk.
      injection Hrun as <-. by eapply entity_frame_same.
    + rewrite (RemoveComponent_not_stored _ _ _ _ Hc) in Hrun by by rewrite Hk.
      injection Hrun as <-. by eapply entity_frame_same.
  - rewrite RemoveComponent_typed_eq in Hrun.
    destruct (m_umNameToComp (managed c) !! type_name T) as [[comp|]|] eqn:Hk.
    + rewrite (RemoveComponent_stored _ _ _ _ _ Hc Hk) in Hrun.
      injection Hrun as <-. by eapply entity_frame_store.
    + rewrite (RemoveComponent_not_stored _ _ _ _ Hc) in Hrun by by rewrite Hk.
      injection Hrun as <-. by eapply entity_frame_same.
    + rewrite (RemoveComponent_not_stored _ _ _ _ Hc) in Hrun by by rewrite Hk.
      injection Hrun as <-. by eapply entity_frame_same.
  - unfold bind in Hrun. rewrite (GetComponent_live _ _ _ _ Hc) in Hrun.
    injection Hrun as <-. by eapply entity_frame_same.
  - eapply entity_frame_same; [done|].
    unfold bind in Hrun.
    destruct (GameObject.GetComponent_typed _ _ _ _ w) as [[r w1]|] eqn:Hget;
      [|discriminate Hrun].
    injection Hrun as <-.
    unfold GameObject.GetComponent_typed, bind in Hget.
    rewrite (get_obj_live _ _ _ Hc) in Hget.
    destruct (m_umNameToComp (managed c) !! type_name T) as [[comp|]|].
    + unfold GameObject.dynamic_pointer_cast in Hget.
      destruct (components w !! comp); [|discriminate Hget].
      by injection Hget as _ <-.
    + by injection Hget as _ <-.
    + by injection Hget as _ <-.
  - rewrite (SetActive_live _ _ _ _ Hc) in Hrun. injection Hrun as <-.
    by eapply entity_frame_store.
  - unfold bind in Hrun. rewrite (IsActive_live _ _ _ Hc) in Hrun.
    injection Hrun as <-. by eapply entity_frame_same.
  - unfold bind in Hrun. rewrite (GetName_live _ _ _ Hc) in Hrun.
    injection Hrun as <-. by eapply entity_frame_same.
  - destruct (m_isActive (managed c)) eqn:Hon.
    + destruct (m_isCalledUpdate (managed c)) eqn:Hl.
      * rewrite (PreUpdate_later _ _ _ Hc Hon Hl) in Hrun. injection Hrun as <-.
        by eapply entity_frame_same.
      * rewrite (PreUpdate_first _ _ _ Hc Hon Hl) in Hrun. injection Hrun as <-.
        exists c, (set_isCalledUpdate true (managed c)).
        split; [done|]. split; [by apply lookup_store_obj|]. split; [done|].
        intros o Hne. simpl. by rewrite lookup_alter_ne.
    + pose proof (inactive_phase type_name dynamic_cast_ok w this c
                    CallPreUpdate Hc Hon eq_refl) as Hno.
      simpl in Hno. rewrite Hno in Hrun. injection Hrun as <-.
      by eapply entity_frame_same.
  - destruct (m_isActive (managed c)) eqn:Hon.
    + unfold GameObject.Update in Hrun.
      rewrite (phase_active _ _ _ _ Hc Hon) in Hrun. injection Hrun as <-.
      by eapply entity_frame_same.
    + pose proof (inactive_phase type_name dynamic_cast_ok w this c
                    CallUpdate Hc Hon eq_refl) as Hno.
      simpl in Hno. rewrite Hno in Hrun. injection Hrun as <-.
      by eapply entity_frame_same.
  - destruct (m_isActive (managed c)) eqn:Hon.
    + unfold GameObject.PostUpdate in Hrun.
      rewrite (phase_active _ _ _ _ Hc Hon) in Hrun. injection Hrun as <-.
      by eapply entity_frame_same.
    + pose proof (inactive_phase type_name dynamic_cast_ok w this c
                    CallPostUpdate Hc Hon eq_refl) as Hno.
      simpl in Hno. rewrite Hno in Hrun. injection Hrun as <-.
      by eapply entity_frame_same.
Qed.

Lemma run_calls_frame this (cs : list (Call TypeId)) w w' c :
  objects w !! this = Some c →
  run_calls type_name dynamic_cast_ok this cs w = Some (tt, w') →
  entity_frame this w w'.
Proof.
  revert w c. induction cs as [|p cs IH]; intros w c Hc Hrun; simpl in Hrun.
  - injection Hrun as <-. by eapply entity_frame_same.
  - unfold bind in Hrun.
    destruct (call _ _ _ p w) as [[[] w1]|] eqn:Hp; [|discriminate Hrun].
    pose proof (call_frame _ _ _ _ Hp) as Hf1.
    destruct Hf1 as (c1 & g1 & Hc1 & Hw1 & Hrest).
    eapply entity_frame_trans; [by exists c1, g1|]. by eapply IH.
Qed.

Lemma entity_frame_identity this w w' :
  entity_frame this w w' → ∀ o, identity w' o = identity w o.
Proof.
  intros (c & g' & Hc & Hc' & Hn & Hf) o. unfold identity.
  destruct (decide (o = this)) as [->|Hne]; [|by rewrite Hf].
  rewrite Hc, Hc'. simpl. by rewrite Hn.
Qed.

End FrameFacts.

(** ** The components lie below the allocation mark *)

Section CompMarkFacts.
Context {TypeId : Type}.
Variable type_name : TypeId → string.
Variable dynamic_cast_ok : TypeId → TypeId → bool.
Implicit Types w : World TypeId.

Lemma comps_below_mark_same w w' :
  components w' = components w → next_comp w' = next_comp w →
  comps_below_mark w → comps_below_mark w'.
Proof. intros Hc Hn Hw k. rewrite Hc, Hn. apply Hw. Qed.

Lemma keeps_comps_ret {A} (a : A) : keeps_comps (TypeId := TypeId) (ret a).
Proof. by intros w a' w' [= _ <-]. Qed.

Lemma keeps_comps_bind {A B} (m : M TypeId A) (f : A → M TypeId B) :
  keeps_comps m → (∀ a, keeps_comps (f a)) → keeps_comps (bind m f).
Proof.
  intros Hm Hf w b w' Hrun Hw. unfold bind in Hrun.
  destruct (m w) as [[a w1]|] eqn:Hmw; [|discriminate Hrun].
  eapply Hf; [exact Hrun|]. by eapply Hm.
Qed.

Lemma keeps_comps_undefined {A} :
  keeps_comps (TypeId := TypeId) (undefined (A := A)).
Proof. intros w a w' Hrun. discriminate Hrun. Qed.

Lemma keeps_comps_deref {A} (sp : option A) :
  keeps_comps (TypeId := TypeId) (deref sp).
Proof. destruct sp; [apply keeps_comps_ret|apply keeps_comps_undefined]. Qed.

Lemma keeps_comps_get_obj o : keeps_comps (TypeId := TypeId) (get_obj o).
Proof.
  intros w g w' Hrun. unfold get_obj in Hrun.
  destruct (objects w !! o); [|discriminate Hrun]. by injection Hrun as _ <-.
Qed.

Lemma keeps_comps_put_obj o g : keeps_comps (TypeId := TypeId) (put_obj o g).
Proof. intros w [] w' [= <-]. by apply comps_below_mark_same. Qed.

Lemma keeps_comps_call_hook h c :
  keeps_comps (TypeId := TypeId) (call_hook h c).
Proof. intros w [] w' [= <-]. by apply comps_below_mark_same. Qed.

Lemma keeps_comps_SetOwner c sp :
  keeps_comps (TypeId := TypeId) (GameObject.SetOwner c sp).
Proof.
  intros w [] w' Hrun Hw. unfold GameObject.SetOwner in Hrun.
  destruct (components w !! c) as [cb|] eqn:Hcb; [|discriminate Hrun].
  injection Hrun as <-. intros k. simpl. rewrite lookup_insert.
  case_decide as Hd; [|apply Hw]. subst k. intros _. apply Hw. by rewrite Hcb.
Qed.

Lemma keeps_comps_make_shared (T : TypeId) :
  keeps_comps (GameObject.make_shared T).
Proof.
  intros w c w' [= _ <-] Hw k. simpl. rewrite lookup_insert.
  case_decide as Hd; [lia|]. intros Hk. specialize (Hw k Hk). lia.
Qed.

Lemma keeps_comps_dynamic_pointer_cast (T : TypeId) c :
  keeps_comps (GameObject.dynamic_pointer_cast dynamic_cast_ok T c).
Proof.
  intros w r w' Hrun. unfold GameObject.dynamic_pointer_cast in Hrun.
  destruct (components w !! c); [|discriminate Hrun]. by injection Hrun as _ <-.
Qed.

Lemma keeps_comps_for_each l h :
  keeps_comps (TypeId := TypeId) (GameObject.for_each l h).
Proof.
  intros w [] w' Hrun. rewrite for_each_spec in Hrun.
  injection Hrun as <-. by apply comps_below_mark_same.
Qed.

Lemma keeps_comps_shared_ptr_copy (sp : option ObjId) :
  keeps_comps (TypeId := TypeId) (GameObject.shared_ptr_copy sp).
Proof.
  destruct sp as [o|]; [|apply keeps_comps_ret].
  intros w [] w' Hrun. unfold GameObject.shared_ptr_copy in Hrun.
  destruct (objects w !! o) as [c|]; [|discriminate Hrun].
  injection Hrun as <-. by apply comps_below_mark_same.
Qed.

Lemma keeps_comps_shared_ptr_release (sp : option ObjId) :
  keeps_comps (TypeId := TypeId) (GameObject.shared_ptr_release sp).
Proof.
  destruct sp as [o|]; [|apply keeps_comps_ret].
  intros w [] w' Hrun.
  destruct (objects w !! o) as [c|] eqn:Hc.
  - destruct (decide (use_count c = 1%positive)) as [Huse|Huse].
    + rewrite (release_last _ _ _ Hc Huse) in Hrun. injection Hrun as <-.
      by apply comps_below_mark_same.
    + rewrite (release_shared _ _ _ Hc Huse) in Hrun. injection Hrun as <-.
      by apply comps_below_mark_same.
  - unfold GameObject.shared_ptr_release in Hrun. by rewrite Hc in Hrun.
Qed.

Lemma keeps_comps_make_shared_GameObject :
  keeps_comps (TypeId := TypeId) GameObject.make_shared_GameObject.
Proof. intros w o w' [= _ <-]. by apply comps_below_mark_same. Qed.

End CompMarkFacts.

Ltac keeps_comps_step :=
  first
    [ apply keeps_comps_ret
    | apply keeps_comps_undefined
    | apply keeps_comps_deref
    | apply keeps_comps_get_obj
    | apply keeps_comps_put_obj
    | apply keeps_comps_call_hook
    | apply keeps_comps_SetOwner
    | apply keeps_comps_make_shared
    | apply keeps_comps_dynamic_pointer_cast
    | apply keeps_comps_for_each
    | apply keeps_comps_shared_ptr_copy
    | apply keeps_comps_shared_ptr_release
    | apply keeps_comps_make_shared_GameObject
    | apply keeps_comps_bind; [|intros ?]
    | match goal with
      | |- keeps_comps (match ?x with _ => _ end) => destruct x
      end ].

Section CompMarkInvariant.
Context {TypeId : Type}.
Variable type_name : TypeId → string.
Variable dynamic_cast_ok : TypeId → TypeId → bool.
Implicit Types w : World TypeId.

Lemma keeps_comps_call this (p : Call TypeId) :
  keeps_comps (call type_name dynamic_cast_ok this p).
Proof.
  destruct p; simpl;
    unfold GameObject.AddComponent, GameObject.AddComponent_typed,
      GameObject.RemoveComponent, GameObject.RemoveComponent_typed,
      GameObject.GetComponent, GameObject.GetComponent_typed,
      GameObject.SetActive, GameObject.IsActive, GameObject.GetName,
      GameObject.PreUpdate, GameObject.Update, GameObject.PostUpdate,
      GameObject.shared_from_this;
    repeat keeps_comps_step.
Qed.

Lemma keeps_comps_GenerateObject (r : ObjectManager) a_name :
  keeps_comps (TypeId := TypeId) (ObjectManager.GenerateObject r a_name).
Proof.
  unfold ObjectManager.GenerateObject, GameObject.SetName, GameObject.SetActive.
  repeat keeps_comps_step.
Qed.

Lemma keeps_comps_RemoveUnActuveObjects_loop (l : list (option ObjId)) names :
  keeps_comps (TypeId := TypeId) (ObjectManager.RemoveUnActuveObjects_loop l names).
Proof.
  revert names. induction l as [|sp l IH]; intros names; simpl.
  - apply keeps_comps_ret.
  - apply keeps_comps_bind.
    { destruct sp; [|apply keeps_comps_ret].
      unfold GameObject.IsActive. repeat keeps_comps_step. }
    intros [|].
    + apply keeps_comps_bind.
      { destruct sp; [|apply keeps_comps_ret].
        unfold GameObject.GetName. repeat keeps_comps_step. }
      intros names'. apply keeps_comps_bind; [|done].
      apply keeps_comps_shared_ptr_release.
    + apply keeps_comps_bind; [done|]. intros r. apply keeps_comps_ret.
Qed.

Lemma keeps_comps_clear_list (l : list (option ObjId)) :
  keeps_comps (TypeId := TypeId) (ObjectManager.clear_list l).
Proof.
  induction l as [|sp l IH]; simpl; [apply keeps_comps_ret|].
  apply keeps_comps_bind; [apply keeps_comps_shared_ptr_release|done].
Qed.

(** Every state that the code reaches has its components below the
    allocation mark: the address that [make_shared] takes is free. *)
Lemma reachable_comps_below_mark (r : ObjectManager) w :
  reachable type_name dynamic_cast_ok r w → comps_below_mark w.
Proof.
  induction 1 as [|r w a_name sp r' w' _ IH Hrun|r w r' w' _ IH Hrun
                  |r w r' w' _ IH Hrun|r w this p w' _ IH Hrun
                  |r w T c w' _ IH Hrun|r w o c w' _ IH Hc Hheld Hrun].
  - intros k [c Hc]. simpl in Hc. by rewrite lookup_empty in Hc.
  - by eapply keeps_comps_GenerateObject.
  - unfold ObjectManager.Update, ObjectManager.RemoveUnActuveObjects in Hrun.
    unfold bind in Hrun.
    destruct (ObjectManager.RemoveUnActuveObjects_loop _ _ w)
      as [[res w1]|] eqn:Hloop; [|discriminate Hrun].
    injection Hrun as _ <-. by eapply keeps_comps_RemoveUnActuveObjects_loop.
  - unfold ObjectManager.ReleaseAllObjects, bind in Hrun.
    destruct (ObjectManager.clear_list (m_lObjects r) w) as [[[] w1]|] eqn:Hclear;
      [|discriminate Hrun].
    injection Hrun as _ <-. by eapply keeps_comps_clear_list.
  - by eapply keeps_comps_call.
  - by eapply keeps_comps_make_shared.
  - by eapply (keeps_comps_shared_ptr_release (Some o)).
Qed.

End CompMarkInvariant.

(** ** GameObject: attaching, finding and removing a component *)

Section ComponentTableFacts.
Context {TypeId : Type}.
Variable type_name : TypeId → string.
Variable dynamic_cast_ok : TypeId → TypeId → bool.
Implicit Types w : World TypeId.

(** X2. After [AddComponent(instance, key)] no hook has been called,
    [GetComponent(key)] returns the instance, the instance reports this
    entity as its owner (whatever it reported before) and the reference
    resolves; the other keys hold what they held. *)
Theorem AddComponent_then_GetComponent w this c comp cb key :
  objects w !! this = Some c →
  components w !! comp = Some cb →
  ∃ w1,
    GameObject.AddComponent this (Some comp) key w = Some (tt, w1) ∧
    trace w1 = trace w ∧
    GameObject.GetComponent this key w1 = Some (Some comp, w1) ∧
    (∀ key', key' ≠ key →
       GameObject.GetComponent this key' w1
       = Some (mjoin (m_umNameToComp (managed c) !! key'), w1)) ∧
    GameObject.GetOwner comp w1 = Some (Some this, w1) ∧
    GameObject.lock (Some this) w1 = Some (Some this, w1).
Proof.
  intros Hc Hcb. eexists. split; [by eapply AddComponent_live|].
  match goal with |- context [GameObject.GetOwner _ ?w1] => set (w' := w1) end.
  assert (objects w' !! this
          = Some (set_managed
                    (set_umNameToComp
                       (<[key := Some comp]> (m_umNameToComp (managed c)))
                       (managed c)) c)) as Hc'.
  { by apply lookup_store_obj. }
  split; [done|]. split.
  { rewrite (GetComponent_live _ _ _ _ Hc'). simpl. by rewrite lookup_insert_eq. }
  split.
  { intros key' Hne. rewrite (GetComponent_live _ _ _ _ Hc'). simpl.
    by rewrite lookup_insert_ne. }
  split.
  - unfold GameObject.GetOwner. simpl. by rewrite lookup_insert_eq.
  - unfold GameObject.lock. by rewrite Hc'.
Qed.

(** X3. [AddComponent<Type>()], in a state whose components lie below
    the allocation mark (as in every state that the code reaches), makes a
    component that did not exist, of dynamic type [Type] and owned by this
    entity, and calls no hook; it changes the type and the owner of no
    other component.  The handle that it returns is the one that
    [GetComponent<Type>()] returns next (a pointer to a [Type] casts to
    [Type]). *)
Theorem AddComponent_typed_then_GetComponent_typed w this c T :
  objects w !! this = Some c →
  dynamic_cast_ok T T = true →
  comps_below_mark w →
  ∃ new w1,
    GameObject.AddComponent_typed type_name this T w = Some (Some new, w1) ∧
    trace w1 = trace w ∧
    components w !! new = None ∧
    components w1 !! new = Some (mkComponentBase T (Some this)) ∧
    (∀ k, k ≠ new → components w1 !! k = components w !! k) ∧
    comps_below_mark w1 ∧
    GameObject.GetComponent_typed type_name dynamic_cast_ok this T w1
    = Some (Some new, w1) ∧
    GameObject.GetOwner new w1 = Some (Some this, w1).
Proof.
  intros Hc Hcast Hmark.
  assert (components w !! next_comp w = None) as Hfresh.
  { apply eq_None_not_Some. intros Hsome. specialize (Hmark _ Hsome). lia. }
  eexists _, _. split; [by apply AddComponent_typed_live|].
  match goal with |- context [GameObject.GetOwner _ ?w1] => set (w' := w1) end.
  assert (components w' !! next_comp w = Some (mkComponentBase T (Some this)))
    as Hnew by apply lookup_insert_eq.
  split; [done|]. split; [done|]. split; [done|]. split.
  { intros k Hne. subst w'. simpl. by rewrite !lookup_insert_ne. }
  split.
  { intros k. subst w'. simpl. rewrite !lookup_insert.
    repeat case_decide; try lia. intros Hk. specialize (Hmark k Hk). lia. }
  split.
  - erewrite GetComponent_typed_stored; [|by apply lookup_store_obj| |exact Hnew].
    + simpl. by rewrite Hcast.
    + simpl. apply lookup_insert_eq.
  - unfold GameObject.GetOwner. by rewrite Hnew.
Qed.

(** X4. [RemoveComponent(key)] on a key that holds a component calls
    [OnRelease] on it, once, and erases the key: [GetComponent(key)] is
    empty afterwards and the other keys hold what they held.  Removing
    again does nothing, so the component is released once; and
    [RemoveComponent<Type>()] is the same removal at the key of [Type]. *)
Theorem RemoveComponent_releases_once w this c key comp :
  objects w !! this = Some c →
  m_umNameToComp (managed c) !! key = Some (Some comp) →
  ∃ w1,
    GameObject.RemoveComponent this key w = Some (tt, w1) ∧
    trace w1 = trace w ++ [(OnRelease, comp)] ∧
    GameObject.GetComponent this key w1 = Some (None, w1) ∧
    (∀ key', key' ≠ key →
       GameObject.GetComponent this key' w1
       = Some (mjoin (m_umNameToComp (managed c) !! key'), w1)) ∧
    GameObject.RemoveComponent this key w1 = Some (tt, w1) ∧
    ∀ T, type_name T = key →
         GameObject.RemoveComponent_typed type_name this T w = Some (tt, w1).
Proof.
  intros Hc Hk. eexists. split; [by eapply RemoveComponent_stored|].
  match goal with |- context [GameObject.GetComponent _ _ ?w1] => set (w' := w1) end.
  assert (objects w' !! this
          = Some (set_managed
                    (set_umNameToComp (delete key (m_umNameToComp (managed c)))
                       (managed c)) c)) as Hc'.
  { by apply lookup_store_obj. }
  split; [done|]. split.
  { rewrite (GetComponent_live _ _ _ _ Hc'). simpl. by rewrite lookup_delete_eq. }
  split.
  { intros key' Hne. rewrite (GetComponent_live _ _ _ _ Hc'). simpl.
    by rewrite lookup_delete_ne. }
  split.
  - apply (RemoveComponent_not_stored _ _ _ _ Hc'). simpl.
    by rewrite lookup_delete_eq.
  - intros T <-. rewrite RemoveComponent_typed_eq.
    by eapply RemoveComponent_stored.
Qed.

End ComponentTableFacts.

(** ** GameObject: update cycles *)

Section CycleFacts.
Context {TypeId : Type}.
Implicit Types w : World TypeId.

Lemma set_isCalledUpdate_id (g : GameObject) :
  m_isCalledUpdate g = true → set_isCalledUpdate true g = g.
Proof. destruct g. simpl. by intros ->. Qed.

Lemma calls_of_dispatches h h' m comp :
  stored_once m comp →
  calls_of h comp (dispatches h' m) = if decide (h = h') then 1 else 0.
Proof.
  intros Hst. case_decide as Hd.
  - subst h'. by apply calls_of_stored_once.
  - apply calls_of_absent. rewrite elem_of_dispatches. by intros [? _].
Qed.

Lemma calls_of_replicate h comp (t : list Event) n :
  calls_of h comp (concat (replicate n t)) = n * calls_of h comp t.
Proof.
  induction n as [|n IH]; [done|]. simpl. by rewrite calls_of_app, IH.
Qed.



(** The events of [n] cycles: how many times each hook is called on a
    component stored under one key, and the hooks in the order of the
    calls. *)
Lemma cycles_counts n (m : gmap string (option CompId)) (started : bool) comp :
  stored_once m comp →
  let evs := (if started then []
              else match n with 0 => [] | S _ => dispatches OnStart m end)
             ++ concat (replicate n (cycle_events m)) in
  calls_of OnStart comp evs = (if started then 0 else if n is 0 then 0 else 1) ∧
  calls_of OnPreUpdate comp evs = n ∧
  calls_of OnUpdate comp evs = n ∧
  calls_of OnPostUpdate comp evs = n ∧
  calls_of OnRelease comp evs = 0.
Proof.
  intros Hst evs. subst evs.
  assert (∀ h, calls_of h comp (cycle_events m)
               = match h with
                 | OnPreUpdate | OnUpdate | OnPostUpdate => 1
                 | _ => 0
                 end) as Hcycle.
  { intros h. unfold cycle_events.
    rewrite !calls_of_app, !calls_of_dispatches by done. by destruct h. }
  assert (∀ h, h ≠ OnStart →
               calls_of h comp
                 (if started then []
                  else match n with 0 => [] | S _ => dispatches OnStart m end)
               = 0) as Hstart.
  { intros h Hh. destruct started; [done|]. destruct n; [done|].
    rewrite calls_of_dispatches by done. by case_decide. }
  repeat split;
    rewrite calls_of_app, calls_of_replicate, Hcycle;
    try (rewrite Hstart by done; lia).
  destruct started; [simpl; lia|]. destruct n; [done|].
  rewrite calls_of_dispatches by done. rewrite decide_True by done. lia.
Qed.



(** X6. Dropping an owning [shared_ptr] of an entity.  The last owner
    runs [~GameObject]: [OnRelease] is called on the components of the
    entity, once for each key that holds one (so once on a component
    stored under one key), and on nothing else; the entity is gone and a
    [weak_ptr] to it no longer resolves.  Any other owner only leaves: no
    hook is called, the entity stays as it is and still resolves.  No
    other entity changes. *)
Theorem last_owner_runs_destructor w o c :
  objects w !! o = Some c →
  ∃ w1 evs,
    GameObject.shared_ptr_release (Some o) w = Some (tt, w1) ∧
    trace w1 = trace w ++ evs ∧
    (∀ o', o' ≠ o → objects w1 !! o' = objects w !! o') ∧
    (use_count c = 1%positive →
     evs ≡ₚ dispatches OnRelease (m_umNameToComp (managed c)) ∧
     objects w1 !! o = None ∧
     GameObject.lock (Some o) w1 = Some (None, w1) ∧
     ∀ comp, stored_once (m_umNameToComp (managed c)) comp →
             calls_of OnRelease comp evs = 1) ∧
    (use_count c ≠ 1%positive →
     evs = [] ∧
     objects w1 !! o = Some (mkManaged (Pos.pred (use_count c)) (managed c)) ∧
     GameObject.lock (Some o) w1 = Some (Some o, w1)).
Proof.
  intros Hc. destruct (decide (use_count c = 1%positive)) as [Huse|Huse].
  - eexists _, _. split; [by apply release_last|]. split; [done|]. split.
    { intros o' Hne. simpl. by rewrite lookup_delete_ne. }
    split; [|done]. intros _. split; [done|].
    assert (∀ w', objects w' !! o = None →
                  GameObject.lock (Some o) w' = Some (None, w')) as Hlock.
    { intros w' Hw'. unfold GameObject.lock. by rewrite Hw'. }
    split; [simpl; apply lookup_delete_eq|]. split.
    + apply Hlock. simpl. apply lookup_delete_eq.
    + intros comp Hst. by apply calls_of_stored_once.
  - exists (set_objects (<[o := set_use_count (Pos.pred (use_count c)) c]>) w), [].
    split; [by apply release_shared|]. split; [by rewrite app_nil_r|]. split.
    { intros o' Hne. simpl. by rewrite lookup_insert_ne. }
    split; [done|]. intros _. split; [done|]. split.
    + simpl. by rewrite lookup_insert_eq.
    + unfold GameObject.lock. simpl. by rewrite lookup_insert_eq.
Qed.

End CycleFacts.

(** ** ObjectManager: naming and generating entities *)

Section GenerateFacts.
Context {TypeId : Type}.
Implicit Types w : World TypeId.

(** The loop of [CreateObjName] ends within the iterations that the model
    gives it. *)
Lemma CreateObjName_returns (this : ObjectManager) (a_baseName : string) :
  (N.of_nat (S (size (m_umNameToObjPtr this))) < 2 ^ 64)%N →
  ∃ objName, ObjectManager.CreateObjName this a_baseName = Some objName.
Proof.
  intros Hsize.
  destruct (m_umNameToObjPtr this !! a_baseName) as [sp|] eqn:Hreg.
  - destruct (CreateObjName_registered this a_baseName) as (k & _ & Hk & _);
      [by eexists|done|]. by eexists.
  - eexists. by apply CreateObjName_unregistered.
Qed.

Lemma GenerateObject_spec (this : ObjectManager) (a_name objName : string) w :
  ObjectManager.CreateObjName this a_name = Some objName →
  ∃ w',
    ObjectManager.GenerateObject this a_name w
    = Some ((Some (next_obj w),
             mkObjectManager
               (<[objName := Some (next_obj w)]> (m_umNameToObjPtr this))
               (m_lObjects this ++ [Some (next_obj w)])), w') ∧
    objects w' !! next_obj w
    = Some (mkManaged 2 (mkGameObject false true objName ∅)) ∧
    (∀ o, o ≠ next_obj w → objects w' !! o = objects w !! o) ∧
    components w' = components w ∧
    trace w' = trace w.
Proof.
  intros Hname. unfold ObjectManager.GenerateObject, bind at 1 2.
  rewrite Hname.
  unfold GameObject.make_shared_GameObject. cbn [deref ret].
  set (o := next_obj w).
  set (c0 := mkManaged 1 (mkGameObject false false EmptyString ∅)).
  set (w0 := mkWorld (<[o := c0]> (objects w)) _ _ _ _).
  assert (objects w0 !! o = Some c0) as H0 by apply lookup_insert_eq.
  unfold bind at 1. unfold GameObject.SetName, bind at 1.
  rewrite (get_obj_live _ _ _ H0). unfold put_obj.
  pose proof (lookup_store_obj w0 o c0 (set_name objName (managed c0)) H0)
    as H1.
  unfold bind at 1. rewrite (SetActive_live _ _ _ _ H1). unfold bind.
  match goal with |- context [GameObject.shared_ptr_copy _ ?w2] =>
    assert (objects w2 !! o
            = Some (mkManaged 1 (mkGameObject false true objName ∅)))
      as H2 by (by rewrite (lookup_store_obj _ _ _ _ H1))
  end.
  unfold GameObject.shared_ptr_copy. rewrite H2.
  eexists. split; [reflexivity|]. simpl.
  split; [by rewrite lookup_insert_eq|]. split; [|done].
  intros o' Hne. by rewrite lookup_insert_ne, !lookup_alter_ne, lookup_insert_ne.
Qed.

(** The C string of the view of a literal without [NUL] is the literal,
    and so is the text of the view. *)
Lemma c_str_app (s rest : string) :
  NUL_free s = true → c_str (s +:+ String NUL rest) = Some s.
Proof.
  induction s as [|a s IH]; simpl; [done|].
  intros [Ha Hs]%andb_prop. apply negb_true_iff in Ha. rewrite Ha.
  by rewrite IH.
Qed.

Lemma sv_data_literal (s : string) :
  NUL_free s = true → sv_data (literal s) = Some s.
Proof. apply c_str_app. Qed.

Lemma sv_text_literal (s : string) : sv_text (literal s) = s.
Proof.
  unfold sv_text, literal. simpl.
  induction s as [|a s IH]; simpl; [done|]. by rewrite IH.
Qed.

(** X7. [CreateObjName] on a manager with fewer than 2^64 - 1 names
    returns, for a view whose array holds a [NUL].  The base name that it
    works with is the C string at [a_baseName.data()].  If that is
    registered, the result is the base name followed by the decimal form
    of the smallest number, from 1 on, that gives a name not registered;
    the number is at most the number of registered names plus one, and
    the result is not the base name.  If it is not registered, the result
    is the value that [resultName] has when the loop is left at once. *)
Theorem CreateObjName_smallest_free_suffix (this : ObjectManager)
  (a_baseName : string_view) (base : string) :
  (N.of_nat (S (size (m_umNameToObjPtr this))) < 2 ^ 64)%N →
  sv_data a_baseName = Some base →
  ∃ objName,
    ObjectManager.CreateObjName_view this a_baseName = Some objName ∧
    (is_Some (m_umNameToObjPtr this !! base) →
     ∃ k, 1 ≤ k ≤ S (size (m_umNameToObjPtr this)) ∧
          objName = base +:+ pretty (N.of_nat k) ∧
          m_umNameToObjPtr this !! objName = None ∧
          objName ≠ base ∧
          ∀ j, 1 ≤ j < k →
               is_Some (m_umNameToObjPtr this
                          !! (base +:+ pretty (N.of_nat j)))) ∧
    (m_umNameToObjPtr this !! base = None → objName = EmptyString).
Proof.
  intros Hsize Hdata. unfold ObjectManager.CreateObjName_view. rewrite Hdata.
  destruct (m_umNameToObjPtr this !! base) as [sp|] eqn:Hreg.
  - destruct (first_free_candidate (m_umNameToObjPtr this) base)
      as (k & Hk & Hfree & Hused).
    exists (candidate base k). split; [|split; [|done]].
    + unfold ObjectManager.CreateObjName. rewrite Hreg.
      replace k with (1 + (k - 1)) in Hfree |- * by lia.
      apply (CreateObjName_loop_search _ _ (k - 1) 1); [|done|lia|lia].
      intros j Hj. apply Hused. lia.
    + intros _. exists k. split; [done|]. split; [done|]. split; [done|].
      split; [|done]. intros Heq. rewrite Heq, Hreg in Hfree. done.
  - exists EmptyString. split; [by apply CreateObjName_unregistered|].
    split; [by intros [? ?]|done].
Qed.

(** X8. [GenerateObject] on a manager with fewer than 2^64 - 1 names, in
    a state where the objects lie below the allocation mark and the live
    collection holds live entities (as in every state that the code
    reaches), for a view whose array holds a [NUL]: it returns an owning
    pointer to an entity that did not exist and was in no node, which it
    has appended at the back of the live collection and indexed under the
    name that [CreateObjName] gives.  [GetObject] with a view whose C
    string is that name then finds the new entity, and with a view whose C
    string is another name what it found before.  The new entity bears
    that name, is active, has not started, holds no component and has two
    owners, the collection and the caller.  No hook is called, and no
    other entity changes. *)
Theorem GenerateObject_then_GetObject (this : ObjectManager)
  (a_name : string_view) (base : string) w :
  (N.of_nat (S (size (m_umNameToObjPtr this))) < 2 ^ 64)%N →
  manager_ok this w →
  sv_data a_name = Some base →
  ∃ objName r' w',
    ObjectManager.CreateObjName_view this a_name = Some objName ∧
    ObjectManager.GenerateObject_view this a_name w
    = Some ((Some (next_obj w), r'), w') ∧
    objects w !! next_obj w = None ∧
    (Some (next_obj w) ∉ m_lObjects this) ∧
    m_lObjects r' = m_lObjects this ++ [Some (next_obj w)] ∧
    objects w' !! next_obj w
    = Some (mkManaged 2 (mkGameObject false true objName ∅)) ∧
    (∀ o, o ≠ next_obj w → objects w' !! o = objects w !! o) ∧
    trace w' = trace w ∧
    (∀ a_name', sv_data a_name' = Some objName →
       ObjectManager.GetObject_view r' a_name' w'
       = Some ((Some (next_obj w), r'), w')) ∧
    ∀ a_name' name, sv_data a_name' = Some name → name ≠ objName →
      ∃ found,
        ObjectManager.GetObject_view this a_name' w = Some ((found, this), w) ∧
        ObjectManager.GetObject_view r' a_name' w' = Some ((found, r'), w').
Proof.
  intros Hsize [[_ Hlive] Hmark] Hdata.
  destruct (CreateObjName_returns this base Hsize) as [objName Hname].
  destruct (GenerateObject_spec this base objName w Hname)
    as (w' & Hgen & Hnew & Hframe & Hcomp & Htr).
  assert (objects w !! next_obj w = None) as Hfresh.
  { apply eq_None_not_Some. intros Hsome. specialize (Hmark _ Hsome). lia. }
  eexists objName, _, w'.
  unfold ObjectManager.CreateObjName_view, ObjectManager.GenerateObject_view.
  rewrite Hdata. split; [done|]. split; [exact Hgen|]. split; [done|].
  split.
  { intros Hin. apply Hlive in Hin. rewrite Hfresh in Hin. by destruct Hin. }
  split; [done|]. split; [done|]. split; [done|]. split; [done|]. split.
  - intros a_name' Hdata'.
    unfold ObjectManager.GetObject_view, ObjectManager.GetObject.
    rewrite Hdata'. cbn [m_umNameToObjPtr]. by rewrite lookup_insert_eq.
  - intros a_name' name Hdata' Hne.
    unfold ObjectManager.GetObject_view, ObjectManager.GetObject.
    rewrite Hdata'. cbn [m_umNameToObjPtr].
    rewrite lookup_insert_ne by done.
    destruct (m_umNameToObjPtr this !! name) as [[o|]|]; by eexists.
Qed.

End GenerateFacts.

(** ** ObjectManager: the name index in the states that the code reaches *)

Section IndexFacts.
Context {TypeId : Type}.
Variable type_name : TypeId → string.
Variable dynamic_cast_ok : TypeId → TypeId → bool.
Implicit Types w : World TypeId.

Lemma node_erase_lookup w0 (sp : option ObjId) names (n : string) x :
  node_erase w0 sp names !! n = Some x → names !! n = Some x.
Proof.
  unfold node_erase. repeat case_match; try done.
  by intros [_ ?]%lookup_delete_Some.
Qed.

Lemma foldl_erase_lookup w0 (l : list (option ObjId)) names (n : string) x :
  foldl (λ m sp, node_erase w0 sp m) names l !! n = Some x →
  names !! n = Some x.
Proof.
  revert names. induction l as [|sp l IH]; intros names; [done|].
  simpl. intros Hn. by eapply node_erase_lookup, IH.
Qed.


Lemma GenerateObject_undefined (r : ObjectManager) a_name w :
  ObjectManager.CreateObjName r a_name = None →
  ObjectManager.GenerateObject r a_name w = None.
Proof.
  intros Hname. unfold ObjectManager.GenerateObject, bind.
  unfold GameObject.make_shared_GameObject. by rewrite Hname.
Qed.

(** The invariant of the states that the code reaches. *)
Lemma reachable_inv (r : ObjectManager) w :
  reachable type_name dynamic_cast_ok r w →
  manager_ok r w ∧ index_sound r w ∧ None ∉ m_lObjects r.
Proof.
  induction 1 as [|r w a_name sp r' w' Hreach IH Hrun|r w r' w' Hreach IH Hrun
                  |r w r' w' Hreach IH Hrun|r w this p w' Hreach IH Hrun
                  |r w T c w' Hreach IH Hrun|r w o c w' Hreach IH Hc Hheld Hrun].
  - split; [by apply (reachable_manager_ok type_name dynamic_cast_ok), reach_new|].
    split; [|apply not_elem_of_nil].
    intros name sp Hsp. simpl in Hsp. by rewrite lookup_empty in Hsp.
  - destruct IH as (Hok & Hidx & Hnull).
    split; [by eapply GenerateObject_ok|].
    destruct (ObjectManager.CreateObjName r a_name) as [objName|] eqn:Hname;
      [|by rewrite GenerateObject_undefined in Hrun].
    destruct (GenerateObject_spec r a_name objName w Hname)
      as (w'' & Hgen & Hnew & Hframe & _).
    rewrite Hgen in Hrun. injection Hrun as <- <- <-. split.
    + intros name sp. cbn [m_umNameToObjPtr m_lObjects].
      rewrite lookup_insert_Some. intros [[<- <-]|[Hne Hsp]].
      * eexists _, _. split; [done|]. split; [|by split].
        apply elem_of_app. right. left.
      * destruct (Hidx name sp Hsp) as (o & c & -> & Hin & Hc & Hn).
        exists o, c. split; [done|]. split; [apply elem_of_app; by left|].
        split; [|done]. rewrite Hframe; [done|].
        destruct Hok as [_ Hmark]. specialize (Hmark o). rewrite Hc in Hmark.
        specialize (Hmark (mk_is_Some _ _ eq_refl)). lia.
    + cbn [m_lObjects]. rewrite elem_of_app, list_elem_of_singleton.
      by intros [?|?].
  - destruct IH as (Hok & Hidx & Hnull).
    split; [by eapply Update_ok|].
    destruct (Update_spec r w (proj1 Hok)) as (w'' & Hup & _ & _ & Hobj).
    rewrite Hup in Hrun. injection Hrun as <- <-. split.
    + intros name sp Hsp. cbn [m_umNameToObjPtr m_lObjects] in *.
      pose proof (foldl_erase_lookup _ _ _ _ _ Hsp) as Hsp0.
      destruct (Hidx name sp Hsp0) as (o & c & -> & Hin & Hc & Hn).
      destruct (m_isActive (managed c)) eqn:Hon.
      * exists o, c. split; [done|]. split.
        { apply list_elem_of_filter. split; [|done].
          unfold node_active. by rewrite Hc. }
        split; [|done]. rewrite Hobj, bool_decide_eq_true_2 by done.
        unfold node_after. by rewrite Hc, Hon.
      * rewrite <- Hn in Hsp.
        by rewrite (foldl_erase_hit w _ _ o c Hin Hc Hon) in Hsp.
    + cbn [m_lObjects]. by intros [_ ?]%list_elem_of_filter.
  - destruct IH as (Hok & Hidx & Hnull).
    split; [by eapply ReleaseAllObjects_ok|].
    unfold ObjectManager.ReleaseAllObjects, bind in Hrun.
    destruct (ObjectManager.clear_list (m_lObjects r) w) as [[[] w1]|];
      [|discriminate Hrun].
    injection Hrun as <- <-. split; [|apply not_elem_of_nil].
    intros name sp Hsp. simpl in Hsp. by rewrite lookup_empty in Hsp.
  - destruct IH as (Hok & Hidx & Hnull).
    split; [|split; [|done]].
    { eapply manager_ok_same_heap; [done|]. by eapply keeps_heap_call. }
    destruct (call_frame _ _ _ _ _ _ Hrun) as (c & g' & Hc & Hc' & Hname & Hframe).
    intros name sp Hsp.
    destruct (Hidx name sp Hsp) as (o & c0 & -> & Hin & Hc0 & Hn).
    destruct (decide (o = this)) as [->|Hne].
    + rewrite Hc in Hc0. injection Hc0 as <-.
      eexists this, _. split; [done|]. split; [done|]. split; [exact Hc'|].
      simpl. by rewrite Hname.
    + exists o, c0. split; [done|]. split; [done|]. split; [|done].
      by rewrite Hframe.
  - destruct IH as (Hok & Hidx & Hnull).
    split; [|split; [|done]].
    { eapply manager_ok_same_heap; [done|]. by eapply keeps_heap_make_shared. }
    injection Hrun as _ <-. exact Hidx.
  - destruct IH as (Hok & Hidx & Hnull).
    split; [by eapply drop_ok|]. split; [|done].
    intros name sp Hsp.
    destruct (Hidx name sp Hsp) as (o' & c0 & -> & Hin & Hc0 & Hn).
    destruct (decide (o' = o)) as [->|Hne].
    + rewrite Hc in Hc0. injection Hc0 as <-.
      rewrite (release_shared _ _ _ Hc (Hheld Hin)) in Hrun.
      injection Hrun as <-.
      eexists o, _. split; [done|]. split; [done|]. split.
      * simpl. by rewrite lookup_insert_eq.
      * exact Hn.
    + exists o', c0. split; [done|]. split; [done|]. split; [|done].
      destruct (shared_ptr_release_frame _ _ _ Hrun) as [_ Hframe].
      by rewrite Hframe.
Qed.

(** X9. In every state that the code reaches from a new manager (by
    [GenerateObject], [Update], [ReleaseAllObjects], the public calls on
    entities, and the caller dropping pointers that it holds) the live
    collection holds no null pointer and no entity twice, and every entity
    that it holds is alive, so that a [weak_ptr] to it resolves: the
    null-pointer branches of [RemoveUnActuveObjects] are never taken. *)
Theorem reachable_collection_holds_live_entities (r : ObjectManager) w :
  reachable type_name dynamic_cast_ok r w →
  (None ∉ m_lObjects r) ∧
  NoDup (m_lObjects r) ∧
  ∀ sp, sp ∈ m_lObjects r →
        ∃ o c, sp = Some o ∧ objects w !! o = Some c ∧
               GameObject.lock (Some o) w = Some (Some o, w).
Proof.
  intros Hreach.
  destruct (reachable_inv r w Hreach) as ([[Hnd Hlive] _] & _ & Hnull).
  split; [done|]. split.
  - revert Hnd Hnull. generalize (m_lObjects r).
    induction l as [|[o|] l IH]; simpl; intros Hnd Hnull.
    + apply NoDup_nil_2.
    + apply NoDup_cons in Hnd as [Hnot Hnd]. apply NoDup_cons. split.
      * intros Hin. apply Hnot. apply list_elem_of_omap. by exists (Some o).
      * apply IH; [done|]. intros Hin. apply Hnull. by right.
    + exfalso. apply Hnull. left.
  - intros [o|] Hin; [|done].
    destruct (Hlive o Hin) as [c Hc]. exists o, c.
    split; [done|]. split; [done|]. unfold GameObject.lock. by rewrite Hc.
Qed.

(** X10. In every state that the code reaches, [GetObject] with a view
    whose array holds a [NUL] returns and changes nothing, and what it
    finds is an entity of the live collection that is alive and bears the
    name that [GetObject] looks up, the C string at [a_name.data()]; so no
    entity is found under two such names. *)
Theorem reachable_GetObject_finds_named_live_entity (r : ObjectManager) w
  (a_name : string_view) (name : string) :
  reachable type_name dynamic_cast_ok r w →
  sv_data a_name = Some name →
  ∃ found,
    ObjectManager.GetObject_view r a_name w = Some ((found, r), w) ∧
    ∀ o, found = Some o →
      Some o ∈ m_lObjects r ∧
      (∃ c, objects w !! o = Some c ∧ m_name (managed c) = name) ∧
      GameObject.lock (Some o) w = Some (Some o, w) ∧
      ∀ a_name' name',
        sv_data a_name' = Some name' →
        ObjectManager.GetObject_view r a_name' w = Some ((Some o, r), w) →
        name' = name.
Proof.
  intros Hreach Hdata. destruct (reachable_inv r w Hreach) as (_ & Hidx & _).
  assert (∀ n o, ObjectManager.GetObject r n w = Some ((Some o, r), w) →
                 m_umNameToObjPtr r !! n = Some (Some o)) as Hget.
  { intros n o. unfold ObjectManager.GetObject.
    destruct (m_umNameToObjPtr r !! n) as [[o'|]|]; intros [= ->]; done. }
  unfold ObjectManager.GetObject_view at 1. rewrite Hdata.
  unfold ObjectManager.GetObject at 1.
  destruct (m_umNameToObjPtr r !! name) as [[o|]|] eqn:Hsp;
    (eexists; split; [reflexivity|]); intros o' [= <-].
  destruct (Hidx name _ Hsp) as (o' & c & [= <-] & Hin & Hc & Hn).
  split; [done|]. split; [by exists c|]. split.
  { unfold GameObject.lock. by rewrite Hc. }
  intros a_name' name' Hdata'. unfold ObjectManager.GetObject_view.
  rewrite Hdata'. intros Hsp'%Hget.
  destruct (Hidx name' _ Hsp') as (o' & c' & [= <-] & _ & Hc' & Hn').
  rewrite Hc in Hc'. injection Hc' as <-. by rewrite <- Hn, <- Hn'.
Qed.

End IndexFacts.

(** ** ObjectManager: the reclamation pass and the release of all entities *)

Section PassFacts.
Context {TypeId : Type}.
Implicit Types w : World TypeId.


(** The pass leaves a state on which a pass does nothing. *)
Lemma Update_settled (r : ObjectManager) w w' :
  (∀ o, objects w' !! o
        = if bool_decide (Some o ∈ m_lObjects r) then node_after w o
          else objects w !! o) →
  ∀ names,
    ObjectManager.Update
      (mkObjectManager names
         (filter (λ sp, node_active w sp = true) (m_lObjects r))) w'
    = Some ((tt, mkObjectManager names
                   (filter (λ sp, node_active w sp = true) (m_lObjects r))), w').
Proof.
  intros Hobj names.
  unfold ObjectManager.Update, ObjectManager.RemoveUnActuveObjects, bind.
  cbn [m_lObjects m_umNameToObjPtr].
  rewrite RemoveUnActuveObjects_loop_active; [done|].
  intros sp [Hact Hsp]%list_elem_of_filter.
  destruct sp as [o'|]; [|discriminate Hact].
  unfold node_active in *. rewrite Hobj, bool_decide_eq_true_2 by done.
  unfold node_after. destruct (objects w !! o') as [c'|]; [|done].
  by rewrite Hact.
Qed.


(** X12. [Update()] is idempotent: on the state that an [Update()] leaves,
    [Update()] returns with the manager and the world as they are, so it
    removes nothing more and calls no hook. *)
Theorem Update_twice_is_Update_once (r : ObjectManager) w :
  owns_nodes (m_lObjects r) w →
  ∃ r' w',
    ObjectManager.Update r w = Some ((tt, r'), w') ∧
    ObjectManager.Update r' w' = Some ((tt, r'), w').
Proof.
  intros Hown. destruct (Update_spec r w Hown) as (w' & Hup & _ & _ & Hobj).
  eexists _, w'. split; [exact Hup|]. by apply Update_settled.
Qed.

(** Dropping the pointer of a node, whatever the active flag. *)
Lemma release_any w o c :
  objects w !! o = Some c →
  ∃ w1,
    GameObject.shared_ptr_release (Some o) w = Some (tt, w1) ∧
    components w1 = components w ∧
    trace w1 = trace w ++ drop_events w (Some o) ∧
    objects w1 !! o = dropped w o ∧
    ∀ o', o' ≠ o → objects w1 !! o' = objects w !! o'.
Proof.
  intros Hc. unfold drop_events, dropped. rewrite Hc.
  destruct (decide (use_count c = 1%positive)) as [Huse|Huse].
  - eexists. split; [by apply release_last|]. rewrite Huse.
    split; [done|]. split; [done|]. split.
    + simpl. apply lookup_delete_eq.
    + intros o' Hne. simpl. by apply lookup_delete_ne.
  - eexists. split; [by apply release_shared|].
    split; [done|]. split.
    { simpl. destruct (use_count c); by rewrite ?app_nil_r. }
    split.
    + simpl. rewrite lookup_insert_eq. by destruct (use_count c).
    + intros o' Hne. simpl. by apply lookup_insert_ne.
Qed.

(** [m_lObjects.clear()], against a world [w0] that agrees with the
    current one on the objects of the nodes still to destroy. *)
Lemma clear_list_spec (l : list (option ObjId)) :
  ∀ w0 w,
    NoDup (omap id l) →
    (∀ o, Some o ∈ l →
          is_Some (objects w0 !! o) ∧ objects w !! o = objects w0 !! o) →
    ∃ w',
      ObjectManager.clear_list l w = Some (tt, w') ∧
      components w' = components w ∧
      trace w' = trace w ++ (l ≫= drop_events w0) ∧
      ∀ o, objects w' !! o
           = if bool_decide (Some o ∈ l) then dropped w0 o
             else objects w !! o.
Proof.
  induction l as [|[o|] l IH]; intros w0 w Hnd Hag.
  - exists w. split; [done|]. split; [done|].
    split; [simpl; by rewrite app_nil_r|]. intros o.
    rewrite bool_decide_eq_false_2; [done|apply not_elem_of_nil].
  - simpl in Hnd. apply NoDup_cons in Hnd as [Hfresh Hnd].
    assert (Some o ∉ l) as Hnotin.
    { intros Hin. apply Hfresh, list_elem_of_omap. by exists (Some o). }
    destruct (Hag o) as [[c Hc0] Hc]; [left|]. rewrite Hc0 in Hc.
    cbn [ObjectManager.clear_list]. unfold bind.
    destruct (release_any w o c Hc) as (w1 & Hrel & Hcomp1 & Htr1 & Hobj1 & Hframe1).
    rewrite Hrel.
    destruct (IH w0 w1 Hnd) as (w' & Hloop & Hcomp & Htr & Hobj).
    { intros o' Hin. destruct (Hag o') as [Hs Ho']; [by right|].
      split; [done|]. rewrite Hframe1; [done|]. by intros ->. }
    exists w'. split; [done|]. split; [by rewrite Hcomp|].
    assert (drop_events w (Some o) = drop_events w0 (Some o)) as Hevs.
    { unfold drop_events. by rewrite Hc, Hc0. }
    split.
    { by rewrite Htr, Htr1, bind_cons, <- app_assoc, Hevs. }
    intros o'. rewrite Hobj.
    destruct (decide (o' = o)) as [->|Hne].
    + rewrite (bool_decide_eq_false_2 _ Hnotin).
      rewrite bool_decide_eq_true_2 by left.
      rewrite Hobj1. unfold dropped. by rewrite Hc, Hc0.
    + rewrite (Hframe1 _ Hne).
      rewrite bool_decide_node_cons; [done|congruence].
  - simpl in Hnd.
    destruct (IH w0 w Hnd) as (w' & Hloop & Hcomp & Htr & Hobj).
    { intros o' Hin. apply Hag. by right. }
    exists w'. cbn [ObjectManager.clear_list].
    unfold bind, ret. cbn [GameObject.shared_ptr_release]. unfold ret.
    split; [done|]. split; [done|]. split; [done|].
    intros o'. rewrite Hobj.
    rewrite bool_decide_node_cons; [done|congruence].
Qed.

(** X13. [ReleaseAllObjects()] on a collection of distinct live entities
    empties the collection and the name index, whatever the active flags.
    It drops one owner of every entity of the collection: an entity that
    the collection alone owned is destroyed, with [OnRelease] called on
    its components; an entity with another owner stays, with one owner
    less and otherwise as it was, and none of its hooks is called.  No
    other hook is called, and no other entity changes. *)
Theorem ReleaseAllObjects_drops_every_node (r : ObjectManager) w :
  owns_nodes (m_lObjects r) w →
  ∃ w' evs,
    ObjectManager.ReleaseAllObjects r w = Some ((tt, empty_manager), w') ∧
    trace w' = trace w ++ evs ∧
    evs ≡ₚ m_lObjects r ≫= drop_events w ∧
    (∀ o c, Some o ∈ m_lObjects r → objects w !! o = Some c →
       (use_count c = 1%positive →
        objects w' !! o = None ∧
        drop_events w (Some o)
        = dispatches OnRelease (m_umNameToComp (managed c))) ∧
       (use_count c ≠ 1%positive →
        objects w' !! o = Some (mkManaged (Pos.pred (use_count c)) (managed c)) ∧
        drop_events w (Some o) = [])) ∧
    ∀ o, Some o ∉ m_lObjects r → objects w' !! o = objects w !! o.
Proof.
  intros [Hnd Hlive].
  destruct (clear_list_spec (m_lObjects r) w w Hnd)
    as (w' & Hclear & Hcomp & Htr & Hobj).
  { intros o Hin. split; [by apply Hlive|done]. }
  exists w', (m_lObjects r ≫= drop_events w). split.
  { unfold ObjectManager.ReleaseAllObjects, bind. by rewrite Hclear. }
  split; [done|]. split; [done|]. split.
  - intros o c Hin Hc. rewrite Hobj, bool_decide_eq_true_2 by done.
    unfold dropped, drop_events. rewrite Hc. split.
    + intros ->. done.
    + intros Huse. by destruct (use_count c).
  - intros o Hnotin. by rewrite Hobj, bool_decide_eq_false_2.
Qed.


End PassFacts.

(** ** PlayerInputSimulatorComponent: deactivating the owner *)

Section SimulatorFacts.
Context {TypeId : Type}.
Implicit Types w : World TypeId.

Lemma deactivated_inactive (c : Managed) :
  m_isActive (managed c) = false → deactivated c = c.
Proof. destruct c as [n []]. simpl. by intros ->. Qed.

Lemma deactivated_idemp (c : Managed) : deactivated (deactivated c) = deactivated c.
Proof. done. Qed.

(** One call, the owner being alive. *)
Lemma OnUpdate_live this st w cb o c :
  components w !! this = Some cb →
  m_wpOwner cb = Some o →
  objects w !! o = Some c →
  (PlayerInputSimulatorComponent.current_frame st
   < PlayerInputSimulatorComponent.INT_MAX)%Z →
  ∃ w',
    PlayerInputSimulatorComponent.OnUpdate this st w
    = Some (PlayerInputSimulatorComponent.mk
              (PlayerInputSimulatorComponent.frame_to_deactivate st)
              (PlayerInputSimulatorComponent.current_frame st + 1), w') ∧
    components w' = components w ∧
    trace w' = trace w ∧
    objects w' !! o
    = Some (if decide (PlayerInputSimulatorComponent.frame_to_deactivate st
                       ≤ PlayerInputSimulatorComponent.current_frame st + 1)%Z
            then deactivated c else c) ∧
    ∀ o', o' ≠ o → objects w' !! o' = objects w !! o'.
Proof.
  intros Hcb Howner Hc Hmax.
  unfold PlayerInputSimulatorComponent.OnUpdate,
    PlayerInputSimulatorComponent.increment.
  rewrite (proj2 (Z.ltb_lt _ _) Hmax). unfold bind at 1. cbn [ret].
  unfold bind at 1. unfold GameObject.GetOwner. rewrite Hcb, Howner.
  unfold bind at 1. unfold GameObject.lock. rewrite Hc.
  unfold bind at 1. unfold GameObject.shared_ptr_copy. rewrite Hc.
  set (c1 := set_use_count (Pos.succ (use_count c)) c).
  set (w1 := set_objects (<[o := c1]>) w).
  assert (objects w1 !! o = Some c1) as Hc1 by apply lookup_insert_eq.
  assert (use_count c1 ≠ 1%positive) as Huse1.
  { simpl. apply Pos.succ_not_1. }
  assert (∀ c2 : Managed, use_count c2 = use_count c1 →
            mkManaged (Pos.pred (use_count c2)) (managed c2)
            = mkManaged (use_count c) (managed c2)) as Hback.
  { intros c2 ->. simpl. by rewrite Pos.pred_succ. }
  unfold bind at 1.
  case_decide as Hd.
  - rewrite (proj2 (Z.leb_le _ _) Hd). unfold bind at 1.
    rewrite (IsActive_live _ _ _ Hc1).
    change (m_isActive (managed c1)) with (m_isActive (managed c)).
    destruct (m_isActive (managed c)) eqn:Hon.
    + rewrite (SetActive_live _ _ _ _ Hc1). unfold bind.
      set (c2 := set_managed (set_isActive false (managed c1)) c1).
      assert (objects (store_obj o (set_isActive false (managed c1)) w1) !! o
              = Some c2) as Hc2 by by apply lookup_store_obj.
      rewrite (release_shared _ _ _ Hc2 Huse1).
      eexists. split; [reflexivity|]. split; [done|]. split; [done|]. split.
      * simpl. rewrite lookup_insert_eq. unfold deactivated.
        by rewrite Pos.pred_succ.
      * intros o' Hne. simpl.
        by rewrite lookup_insert_ne, lookup_alter_ne, lookup_insert_ne.
    + cbn [ret]. unfold bind.
      rewrite (release_shared _ _ _ Hc1 Huse1).
      eexists. split; [reflexivity|]. split; [done|]. split; [done|]. split.
      * simpl. rewrite lookup_insert_eq, Pos.pred_succ.
        rewrite deactivated_inactive by done. by destruct c.
      * intros o' Hne. simpl. by rewrite !lookup_insert_ne.
  - rewrite (proj2 (Z.leb_gt _ _)) by lia. cbn [ret]. unfold bind.
    rewrite (release_shared _ _ _ Hc1 Huse1).
    eexists. split; [reflexivity|]. split; [done|]. split; [done|]. split.
    + simpl. rewrite lookup_insert_eq, Pos.pred_succ. by destruct c.
    + intros o' Hne. simpl. by rewrite !lookup_insert_ne.
Qed.

Lemma OnUpdate_times_live n : ∀ this st w cb o c,
  components w !! this = Some cb →
  m_wpOwner cb = Some o →
  objects w !! o = Some c →
  (PlayerInputSimulatorComponent.current_frame st + Z.of_nat n
   ≤ PlayerInputSimulatorComponent.INT_MAX)%Z →
  ∃ w',
    PlayerInputSimulatorComponent.OnUpdate_times n this st w
    = Some (PlayerInputSimulatorComponent.mk
              (PlayerInputSimulatorComponent.frame_to_deactivate st)
              (PlayerInputSimulatorComponent.current_frame st + Z.of_nat n), w') ∧
    components w' = components w ∧
    trace w' = trace w ∧
    objects w' !! o
    = Some (if decide (0 < n ∧
                       (PlayerInputSimulatorComponent.frame_to_deactivate st
                        ≤ PlayerInputSimulatorComponent.current_frame st
                          + Z.of_nat n)%Z)
            then deactivated c else c) ∧
    ∀ o', o' ≠ o → objects w' !! o' = objects w !! o'.
Proof.
  induction n as [|n IH]; intros this st w cb o c Hcb Howner Hc Hmax.
  - exists w. simpl. rewrite Z.add_0_r. destruct st.
    split; [done|]. split; [done|]. split; [done|]. by split.
  - destruct (OnUpdate_live this st w cb o c Hcb Howner Hc)
      as (w1 & Hrun1 & Hcomp1 & Htr1 & Hobj1 & Hframe1); [lia|].
    rewrite <- Hcomp1 in Hcb.
    destruct (IH this
                (PlayerInputSimulatorComponent.mk
                   (PlayerInputSimulatorComponent.frame_to_deactivate st)
                   (PlayerInputSimulatorComponent.current_frame st + 1))
                w1 cb o _ Hcb Howner Hobj1)
      as (w' & Hrun & Hcomp & Htr & Hobj & Hframe); [simpl; lia|].
    exists w'. cbn [PlayerInputSimulatorComponent.OnUpdate_times].
    unfold bind. rewrite Hrun1, Hrun. simpl.
    split; [do 3 f_equal; lia|]. split; [congruence|]. split; [congruence|].
    split.
    + rewrite Hobj. simpl. f_equal.
      repeat case_decide; try done; try lia.
    + intros o' Hne. by rewrite Hframe, Hframe1.
Qed.

(** X15. [PlayerInputSimulatorComponent(d)] whose owner is alive, after
    [n] calls of [OnUpdate] ([n] at most [INT_MAX], so that the frame
    counter does not overflow): the counter is [n], and the owner has its
    active flag cleared exactly if some call was made at a frame from [d]
    on, that is if [n] is at least 1 and at least [d]; before that it is
    as it was.  The owner keeps its owners, its name and its components,
    no hook is called, and no other entity and no component changes. *)
Theorem OnUpdate_deactivates_owner_from_frame n d this cb o c w :
  components w !! this = Some cb →
  m_wpOwner cb = Some o →
  objects w !! o = Some c →
  (Z.of_nat n ≤ PlayerInputSimulatorComponent.INT_MAX)%Z →
  ∃ w',
    PlayerInputSimulatorComponent.OnUpdate_times n this
      (PlayerInputSimulatorComponent.constructor d) w
    = Some (PlayerInputSimulatorComponent.mk d (Z.of_nat n), w') ∧
    components w' = components w ∧
    trace w' = trace w ∧
    objects w' !! o
    = Some (if decide (0 < n ∧ (d ≤ Z.of_nat n)%Z) then deactivated c else c) ∧
    ∀ o', o' ≠ o → objects w' !! o' = objects w !! o'.
Proof.
  intros Hcb Howner Hc Hmax.
  apply (OnUpdate_times_live n this
           (PlayerInputSimulatorComponent.constructor d) w cb o c); done.
Qed.

End SimulatorFacts.

(** ** PlayerInputSimulatorComponent and the manager together *)

Section SimulatorAndManager.
Context {TypeId : Type}.
Implicit Types w : World TypeId.

(** X16. [PlayerInputSimulatorComponent::OnUpdate] on a component that
    has no owner, or whose owner is gone, only advances the frame counter:
    the world is as it was, whatever the frame. *)
Theorem OnUpdate_without_owner_only_counts this st w cb :
  components w !! this = Some cb →
  GameObject.lock (m_wpOwner cb) w = Some (None, w) →
  (PlayerInputSimulatorComponent.current_frame st
   < PlayerInputSimulatorComponent.INT_MAX)%Z →
  PlayerInputSimulatorComponent.OnUpdate this st w
  = Some (PlayerInputSimulatorComponent.mk
            (PlayerInputSimulatorComponent.frame_to_deactivate st)
            (PlayerInputSimulatorComponent.current_frame st + 1), w).
Proof.
  intros Hcb Hlock Hmax.
  unfold PlayerInputSimulatorComponent.OnUpdate,
    PlayerInputSimulatorComponent.increment.
  rewrite (proj2 (Z.ltb_lt _ _) Hmax). unfold bind at 1. cbn [ret].
  unfold bind at 1. unfold GameObject.GetOwner. rewrite Hcb.
  unfold bind at 1. rewrite Hlock. done.
Qed.

(** X17. An entity of the live collection with a
    [PlayerInputSimulatorComponent(d)]: after [n] calls of its [OnUpdate]
    with [n] at least 1 and at least [d], the next [Update()] of the
    manager takes the entity out of the live collection and erases its
    name from the index, so that [GetObject] with that name is empty; the
    entity is destroyed then if the collection was its only owner. *)
Theorem simulator_gets_owner_reclaimed n d this cb o c (r : ObjectManager) w :
  owns_nodes (m_lObjects r) w →
  Some o ∈ m_lObjects r →
  components w !! this = Some cb →
  m_wpOwner cb = Some o →
  objects w !! o = Some c →
  (Z.of_nat n ≤ PlayerInputSimulatorComponent.INT_MAX)%Z →
  0 < n →
  (d ≤ Z.of_nat n)%Z →
  ∃ st w1 r' w',
    PlayerInputSimulatorComponent.OnUpdate_times n this
      (PlayerInputSimulatorComponent.constructor d) w = Some (st, w1) ∧
    ObjectManager.Update r w1 = Some ((tt, r'), w') ∧
    (Some o ∉ m_lObjects r') ∧
    ObjectManager.GetObject r' (m_name (managed c)) w' = Some ((None, r'), w') ∧
    (use_count c = 1%positive → objects w' !! o = None) ∧
    (use_count c ≠ 1%positive →
     objects w' !! o
     = Some (mkManaged (Pos.pred (use_count c)) (set_isActive false (managed c)))).
Proof.
  intros [Hnd Hlive] Hin Hcb Howner Hc Hmax Hpos Hd.
  destruct (OnUpdate_times_live n this
              (PlayerInputSimulatorComponent.constructor d) w cb o c
              Hcb Howner Hc Hmax)
    as (w1 & Hrun & _ & _ & Hc1 & Hframe).
  simpl in Hc1. rewrite decide_True in Hc1 by done.
  assert (owns_nodes (m_lObjects r) w1) as Hown1.
  { split; [done|]. intros o' Hin'. destruct (decide (o' = o)) as [->|Hne].
    - by rewrite Hc1.
    - rewrite Hframe by done. by apply Hlive. }
  destruct (Update_spec r w1 Hown1) as (w' & Hup & _ & _ & Hobj).
  eexists _, w1, _, w'. split; [exact Hrun|]. split; [exact Hup|].
  split.
  { simpl. intros [Hact _]%list_elem_of_filter.
    unfold node_active in Hact. by rewrite Hc1 in Hact. }
  split.
  { unfold ObjectManager.GetObject. cbn [m_umNameToObjPtr].
    by rewrite (foldl_erase_hit w1 _ _ o _ Hin Hc1). }
  assert (objects w' !! o = node_after w1 o) as Hafter.
  { by rewrite Hobj, bool_decide_eq_true_2. }
  unfold node_after in Hafter. rewrite Hc1 in Hafter. simpl in Hafter.
  split.
  - intros Huse. by rewrite Huse in Hafter.
  - intros Huse. rewrite Hafter. by destruct (use_count c).
Qed.

End SimulatorAndManager.

(** ** The sample components under the virtual calls *)

Section SampleDispatchFacts.
Implicit Types w : World SampleType.
Implicit Types ms : Sample.Members.

(** The body of [PlayerInputSimulatorComponent::OnUpdate] changes no
    name and no number of owners. *)
Lemma OnUpdate_identity this st w st' w' :
  PlayerInputSimulatorComponent.OnUpdate this st w = Some (st', w') →
  ∀ o, identity w' o = identity w o.
Proof.
  intros Hrun.
  destruct (decide (PlayerInputSimulatorComponent.current_frame st
                    < PlayerInputSimulatorComponent.INT_MAX)%Z) as [Hmax|Hmax].
  2:{ unfold PlayerInputSimulatorComponent.OnUpdate,
        PlayerInputSimulatorComponent.increment, bind in Hrun.
      by rewrite (proj2 (Z.ltb_ge _ _)) in Hrun by lia. }
  destruct (components w !! this) as [cb|] eqn:Hcb.
  2:{ unfold PlayerInputSimulatorComponent.OnUpdate,
        PlayerInputSimulatorComponent.increment, bind in Hrun.
      rewrite (proj2 (Z.ltb_lt _ _) Hmax) in Hrun. cbn [ret] in Hrun.
      unfold GameObject.GetOwner in Hrun. by rewrite Hcb in Hrun. }
  assert (GameObject.lock (m_wpOwner cb) w = Some (None, w) → w' = w) as Hnone.
  { intros Hlock.
    unfold PlayerInputSimulatorComponent.OnUpdate,
      PlayerInputSimulatorComponent.increment in Hrun.
    rewrite (proj2 (Z.ltb_lt _ _) Hmax) in Hrun.
    unfold bind at 1 in Hrun. cbn [ret] in Hrun.
    unfold bind at 1 in Hrun. unfold GameObject.GetOwner in Hrun.
    rewrite Hcb in Hrun. unfold bind at 1 in Hrun. rewrite Hlock in Hrun.
    by injection Hrun as _ <-. }
  destruct (m_wpOwner cb) as [o|] eqn:Howner; [|by rewrite Hnone].
  destruct (objects w !! o) as [c|] eqn:Hc.
  - destruct (OnUpdate_live this st w cb o c Hcb Howner Hc Hmax)
      as (w1 & Hrun1 & _ & _ & Hobj & Hframe).
    rewrite Hrun1 in Hrun. injection Hrun as _ <-.
    intros o'. unfold identity.
    destruct (decide (o' = o)) as [->|Hne]; [|by rewrite Hframe].
    rewrite Hobj, Hc. by case_decide.
  - rewrite Hnone; [done|]. unfold GameObject.lock. by rewrite Hc.
Qed.

Lemma call_OnUpdate_identity c ms w ms' w' :
  Sample.call_OnUpdate c ms w = Some (ms', w') →
  ∀ o, identity w' o = identity w o.
Proof.
  unfold Sample.call_OnUpdate, bind, call_hook. intros Hrun.
  set (w0 := log_events [(OnUpdate, c)] w) in Hrun.
  change (∀ o, identity w' o = identity w0 o).
  destruct (components w0 !! c) as [cb|]; [|done].
  destruct (dyn_type cb); try (by injection Hrun as _ <-).
  destruct (ms !! c) as [st|]; [|done].
  destruct (PlayerInputSimulatorComponent.OnUpdate c st w0) as [[st' w1]|] eqn:Hup;
    [|done].
  injection Hrun as _ <-. by eapply OnUpdate_identity.
Qed.

Lemma for_each_OnUpdate_identity l : ∀ ms w ms' w',
  Sample.for_each_OnUpdate l ms w = Some (ms', w') →
  ∀ o, identity w' o = identity w o.
Proof.
  induction l as [|[key [c|]] l IH]; intros ms w ms' w' Hrun o.
  - by injection Hrun as _ <-.
  - cbn [Sample.for_each_OnUpdate] in Hrun. unfold bind in Hrun.
    destruct (Sample.call_OnUpdate c ms w) as [[ms1 w1]|] eqn:H1; [|done].
    rewrite (IH _ _ _ _ Hrun). by eapply call_OnUpdate_identity.
  - by eapply IH.
Qed.

Lemma Sample_Update_identity this ms w ms' w' :
  Sample.Update this ms w = Some (ms', w') →
  ∀ o, identity w' o = identity w o.
Proof.
  unfold Sample.Update, bind, get_obj. intros Hrun.
  destruct (objects w !! this) as [c|]; [|done].
  destruct (negb (m_isActive (managed c))).
  - by injection Hrun as _ <-.
  - by eapply for_each_OnUpdate_identity.
Qed.

Lemma Sample_call_identity this p ms w ms' w' :
  Sample.call this p ms w = Some (ms', w') →
  ∀ o, identity w' o = identity w o.
Proof.
  intros Hrun.
  assert (∀ q, (call sample_type_name sample_dynamic_cast_ok this q ;; ret ms) w
               = Some (ms', w') →
               ∀ o, identity w' o = identity w o) as Hcore.
  { intros q Hq. unfold bind in Hq.
    destruct (call sample_type_name sample_dynamic_cast_ok this q w)
      as [[[] w1]|] eqn:Hcall; [|done].
    injection Hq as _ <-.
    by eapply entity_frame_identity, call_frame. }
  destruct p as [q|d].
  - destruct q as [sp key|T|key|T|key|T|b| | | | |];
      try exact (Hcore _ Hrun).
    + destruct T; try exact (Hcore _ Hrun). done.
    + by eapply Sample_Update_identity.
  - cbn [Sample.call] in Hrun. unfold bind in Hrun.
    destruct (GameObject.AddComponent_typed sample_type_name this
                TPlayerInputSimulatorComponent w) as [[new w1]|] eqn:Hadd;
      [|done].
    destruct new as [c|]; [|done]. injection Hrun as _ <-.
    eapply entity_frame_identity,
      (call_frame sample_type_name sample_dynamic_cast_ok this
         (CallAddComponent_typed TPlayerInputSimulatorComponent)).
    simpl. unfold bind. by rewrite Hadd.
Qed.

(** An entity without a [PlayerInputSimulatorComponent]: the virtual
    calls of [Update] are calls of bodies that do not act on the core. *)
Lemma for_each_OnUpdate_inert l : ∀ ms w,
  (∀ key c, (key, Some c) ∈ l →
     ∃ cb, components w !! c = Some cb ∧
           dyn_type cb ≠ TPlayerInputSimulatorComponent) →
  Sample.for_each_OnUpdate l ms w
  = Some (ms, log_events (pair OnUpdate <$> omap snd l) w).
Proof.
  induction l as [|[key [c|]] l IH]; intros ms w Hl.
  - by rewrite log_events_nil.
  - cbn [Sample.for_each_OnUpdate]. unfold bind at 1.
    destruct (Hl key c) as (cb & Hcb & Hty); [left|].
    unfold Sample.call_OnUpdate, bind, call_hook.
    change (components (log_events [(OnUpdate, c)] w)) with (components w).
    rewrite Hcb.
    assert (∀ w0, match dyn_type cb with
                  | TPlayerInputSimulatorComponent =>
                      match ms !! c with
                      | Some st =>
                          match PlayerInputSimulatorComponent.OnUpdate c st w0 with
                          | Some (a, w'0) => ret (<[c:=a]> ms) w'0
                          | None => None
                          end
                      | None => None
                      end
                  | _ => Some (ms, w0)
                  end = Some (ms, w0)) as ->.
    { intros w0. by destruct (dyn_type cb). }
    rewrite IH.
    + simpl. by rewrite log_events_app.
    + intros key' c' Hin. apply (Hl key' c'). by right.
  - cbn [Sample.for_each_OnUpdate]. rewrite IH; [done|].
    intros key' c' Hin. apply (Hl key' c'). by right.
Qed.




Lemma for_each_OnUpdate_app l1 l2 ms w :
  Sample.for_each_OnUpdate (l1 ++ l2) ms w
  = match Sample.for_each_OnUpdate l1 ms w with
    | Some (ms1, w1) => Sample.for_each_OnUpdate l2 ms1 w1
    | None => None
    end.
Proof.
  revert ms w. induction l1 as [|[key [c|]] l1 IH]; intros ms w; [done| |].
  - cbn [app Sample.for_each_OnUpdate]. unfold bind.
    destruct (Sample.call_OnUpdate c ms w) as [[ms1 w1]|]; [|done]. apply IH.
  - cbn [app Sample.for_each_OnUpdate]. apply IH.
Qed.

(** [Update] of an active entity with one simulator, which it owns. *)
Lemma Sample_Update_one_sim this ms w c sim st :
  objects w !! this = Some c →
  m_isActive (managed c) = true →
  one_simulator w this (m_umNameToComp (managed c)) sim →
  ms !! sim = Some st →
  (PlayerInputSimulatorComponent.current_frame st
   < PlayerInputSimulatorComponent.INT_MAX)%Z →
  ∃ w',
    Sample.Update this ms w
    = Some (<[sim := PlayerInputSimulatorComponent.mk
                       (PlayerInputSimulatorComponent.frame_to_deactivate st)
                       (PlayerInputSimulatorComponent.current_frame st + 1)]> ms,
            w') ∧
    trace w' = trace w ++ dispatches OnUpdate (m_umNameToComp (managed c)) ∧
    components w' = components w ∧
    objects w' !! this
    = Some (if decide (PlayerInputSimulatorComponent.frame_to_deactivate st
                       ≤ PlayerInputSimulatorComponent.current_frame st + 1)%Z
            then deactivated c else c) ∧
    ∀ o, o ≠ this → objects w' !! o = objects w !! o.
Proof.
  intros Hc Hon ((key & Hkey & Huniq) & Hsim & Hrest) Hst Hmax.
  unfold Sample.Update, bind. rewrite (get_obj_live _ _ _ Hc), Hon. cbn [negb].
  unfold dispatches, attached.
  pose proof (NoDup_map_to_list (m_umNameToComp (managed c))) as Hnd.
  assert ((key, Some sim) ∈ map_to_list (m_umNameToComp (managed c))) as Hin
    by by apply elem_of_map_to_list.
  assert (∀ key' comp,
            (key', Some comp) ∈ map_to_list (m_umNameToComp (managed c)) →
            (key', Some comp) ≠ (key, Some sim) →
            ∃ cb, components w !! comp = Some cb ∧
                  dyn_type cb ≠ TPlayerInputSimulatorComponent) as Hinert.
  { intros key' comp Hin' Hne. apply elem_of_map_to_list in Hin'.
    apply (Hrest key' comp Hin'). intros ->. apply Hne.
    by rewrite (Huniq key' Hin'). }
  destruct (list_elem_of_split _ _ Hin) as (l1 & l2 & Hl).
  rewrite Hl in Hnd, Hinert |- *. clear Hl Hin.
  apply NoDup_app in Hnd as (_ & Hdisj & [Hnot2 _]%NoDup_cons).
  rewrite for_each_OnUpdate_app.
  rewrite for_each_OnUpdate_inert.
  2:{ intros key' comp Hin'. apply (Hinert key' comp).
      - apply elem_of_app. by left.
      - intros Heq. rewrite Heq in Hin'. apply (Hdisj _ Hin'). left. }
  set (w1 := log_events (pair OnUpdate <$> omap snd l1) w).
  cbn [Sample.for_each_OnUpdate]. unfold bind at 1.
  unfold Sample.call_OnUpdate, bind at 1. unfold call_hook.
  set (w2 := log_events [(OnUpdate, sim)] w1).
  change (components w2) with (components w). rewrite Hsim. cbn [dyn_type].
  rewrite Hst. unfold bind at 1.
  destruct (OnUpdate_live sim st w2 _ this c Hsim eq_refl Hc Hmax)
    as (w3 & Hrun & Hco3 & Htr3 & Hc3 & Hframe3).
  rewrite Hrun. cbn [ret].
  rewrite for_each_OnUpdate_inert.
  2:{ intros key' comp Hin'. rewrite Hco3. apply (Hinert key' comp).
      - apply elem_of_app. right. by right.
      - intros Heq. by rewrite Heq in Hin'. }
  eexists. split; [reflexivity|]. simpl. split.
  { rewrite Htr3. simpl. rewrite omap_app, fmap_app, <- !app_assoc. done. }
  split; [done|]. split; [exact Hc3|]. exact Hframe3.
Qed.

(** [PreUpdate] of an active entity. *)
Lemma PreUpdate_run w this c :
  objects w !! this = Some c →
  m_isActive (managed c) = true →
  ∃ w1,
    GameObject.PreUpdate this w = Some (tt, w1) ∧
    trace w1
    = trace w
      ++ (if m_isCalledUpdate (managed c) then []
          else dispatches OnStart (m_umNameToComp (managed c)))
      ++ dispatches OnPreUpdate (m_umNameToComp (managed c)) ∧
    objects w1 !! this
    = Some (set_managed (set_isCalledUpdate true (managed c)) c) ∧
    (∀ o, o ≠ this → objects w1 !! o = objects w !! o) ∧
    components w1 = components w.
Proof.
  intros Hc Hon. destruct (m_isCalledUpdate (managed c)) eqn:Hl.
  - eexists. split; [by apply PreUpdate_later|]. split; [done|].
    split; [|done]. simpl. by rewrite Hc, set_isCalledUpdate_id, set_managed_id.
  - eexists. split; [by apply PreUpdate_first|]. split.
    { simpl. by rewrite <- app_assoc. }
    split; [by apply lookup_store_obj|]. split; [|done].
    intros o Hne. simpl. by rewrite lookup_alter_ne.
Qed.

(** One cycle of an active entity with one simulator: the cycle in which
    the simulator reaches its frame ends after the [OnUpdate] calls. *)
Lemma Sample_cycle_one_sim this ms w c sim st :
  objects w !! this = Some c →
  m_isActive (managed c) = true →
  one_simulator w this (m_umNameToComp (managed c)) sim →
  ms !! sim = Some st →
  (PlayerInputSimulatorComponent.current_frame st
   < PlayerInputSimulatorComponent.INT_MAX)%Z →
  ∃ w',
    Sample.cycle this ms w
    = Some (<[sim := PlayerInputSimulatorComponent.mk
                       (PlayerInputSimulatorComponent.frame_to_deactivate st)
                       (PlayerInputSimulatorComponent.current_frame st + 1)]> ms,
            w') ∧
    trace w'
    = trace w
      ++ (if m_isCalledUpdate (managed c) then []
          else dispatches OnStart (m_umNameToComp (managed c)))
      ++ dispatches OnPreUpdate (m_umNameToComp (managed c))
      ++ dispatches OnUpdate (m_umNameToComp (managed c))
      ++ (if decide (PlayerInputSimulatorComponent.frame_to_deactivate st
                     ≤ PlayerInputSimulatorComponent.current_frame st + 1)%Z
          then [] else dispatches OnPostUpdate (m_umNameToComp (managed c))) ∧
    components w' = components w ∧
    objects w' !! this
    = Some (if decide (PlayerInputSimulatorComponent.frame_to_deactivate st
                       ≤ PlayerInputSimulatorComponent.current_frame st + 1)%Z
            then deactivated (set_managed (set_isCalledUpdate true (managed c)) c)
            else set_managed (set_isCalledUpdate true (managed c)) c) ∧
    ∀ o, o ≠ this → objects w' !! o = objects w !! o.
Proof.
  intros Hc Hon Hone Hst Hmax. unfold Sample.cycle.
  destruct (PreUpdate_run w this c Hc Hon) as (w1 & Hpre & Htr1 & Hc1 & Hf1 & Hco1).
  unfold bind at 1. rewrite Hpre.
  set (c1 := set_managed (set_isCalledUpdate true (managed c)) c) in *.
  destruct (Sample_Update_one_sim this ms w1 c1 sim st Hc1 Hon) as
    (w2 & Hup & Htr2 & Hco2 & Hc2 & Hf2); [|done|done|].
  { destruct Hone as (Honce & Hsim & Hrest). split; [done|].
    rewrite Hco1. by split. }
  unfold bind at 1. rewrite Hup. unfold bind.
  unfold GameObject.PostUpdate, bind.
  rewrite (get_obj_live _ _ _ Hc2).
  case_decide as Hd.
  - cbn [deactivated managed set_isActive m_isActive negb ret].
    eexists. split; [reflexivity|]. split.
    { rewrite Htr2, Htr1. simpl. rewrite app_nil_r, <- !app_assoc. done. }
    split; [congruence|]. split; [done|].
    intros o Hne. by rewrite Hf2, Hf1.
  - change (m_isActive (managed c1)) with (m_isActive (managed c)).
    rewrite Hon. cbn [negb]. rewrite for_each_map. cbn [ret].
    eexists. split; [reflexivity|]. split.
    { simpl. rewrite Htr2, Htr1. rewrite <- !app_assoc. done. }
    split; [simpl; congruence|]. split; [done|].
    intros o Hne. simpl. by rewrite Hf2, Hf1.
Qed.


(** The cycles before the simulator reaches its frame are whole. *)
Lemma Sample_cycles_below this sim d n : ∀ ms w c k,
  objects w !! this = Some c →
  m_isActive (managed c) = true →
  one_simulator w this (m_umNameToComp (managed c)) sim →
  ms !! sim = Some (PlayerInputSimulatorComponent.mk d k) →
  (n = 0 ∨ (k + Z.of_nat n < d)%Z) →
  (k + Z.of_nat n ≤ PlayerInputSimulatorComponent.INT_MAX)%Z →
  ∃ w',
    Sample.cycles n this ms w
    = Some (<[sim := PlayerInputSimulatorComponent.mk d (k + Z.of_nat n)]> ms,
            w') ∧
    trace w'
    = trace w
      ++ (if m_isCalledUpdate (managed c) then []
          else match n with
               | 0 => []
               | S _ => dispatches OnStart (m_umNameToComp (managed c))
               end)
      ++ concat (replicate n (cycle_events (m_umNameToComp (managed c)))) ∧
    components w' = components w ∧
    objects w' !! this
    = Some (match n with
            | 0 => c
            | S _ => set_managed (set_isCalledUpdate true (managed c)) c
            end) ∧
    ∀ o, o ≠ this → objects w' !! o = objects w !! o.
Proof.
  induction n as [|n IH]; intros ms w c k Hc Hon Hone Hst Hbelow Hmax.
  - exists w. cbn [Sample.cycles ret].
    replace (k + Z.of_nat 0)%Z with k by lia. rewrite (insert_id _ _ _ Hst).
    split; [done|]. split; [|done].
    simpl. destruct (m_isCalledUpdate _); by rewrite !app_nil_r.
  - destruct (Sample_cycle_one_sim this ms w c sim _ Hc Hon Hone Hst)
      as (w1 & Hrun1 & Htr1 & Hco1 & Hc1 & Hf1); [simpl; lia|].
    simpl in Hrun1, Htr1, Hc1.
    rewrite decide_False in Htr1 by lia. rewrite decide_False in Hc1 by lia.
    set (c1 := set_managed (set_isCalledUpdate true (managed c)) c) in *.
    destruct (IH (<[sim := PlayerInputSimulatorComponent.mk d (k + 1)]> ms)
                w1 c1 (k + 1)%Z Hc1 Hon)
      as (w' & Hrun & Htr & Hco & Hc' & Hf).
    { destruct Hone as (Honce & Hsim & Hrest). split; [done|].
      rewrite Hco1. by split. }
    { apply lookup_insert_eq. }
    { destruct n; [by left|right; lia]. }
    { lia. }
    exists w'. cbn [Sample.cycles]. unfold bind. rewrite Hrun1, Hrun.
    rewrite insert_insert_eq.
    replace (k + Z.of_nat (S n))%Z with (k + 1 + Z.of_nat n)%Z by lia.
    split; [done|]. split.
    { rewrite Htr, Htr1. simpl. unfold cycle_events.
      rewrite <- !app_assoc. done. }
    split; [congruence|]. split.
    + rewrite Hc'. destruct n; [done|]. by destruct c as [u []].
    + intros o Hne. by rewrite Hf, Hf1.
Qed.

(** The cycles of an inactive entity do nothing. *)
Lemma Sample_cycles_inactive n : ∀ this ms w c,
  objects w !! this = Some c →
  m_isActive (managed c) = false →
  Sample.cycles n this ms w = Some (ms, w).
Proof.
  induction n as [|n IH]; intros this ms w c Hc Hoff; [done|].
  cbn [Sample.cycles]. unfold bind at 1.
  assert (Sample.cycle this ms w = Some (ms, w)) as ->.
  { pose proof (inactive_phase sample_type_name sample_dynamic_cast_ok w
                  this c CallPreUpdate Hc Hoff eq_refl) as Hpre.
    pose proof (inactive_phase sample_type_name sample_dynamic_cast_ok w
                  this c CallPostUpdate Hc Hoff eq_refl) as Hpost.
    simpl in Hpre, Hpost. unfold Sample.cycle, bind. rewrite Hpre.
    unfold Sample.Update, bind. rewrite (get_obj_live _ _ _ Hc), Hoff.
    cbn [negb ret]. by rewrite Hpost. }
  by eapply IH.
Qed.

Lemma Sample_cycles_app a b this ms w :
  Sample.cycles (a + b) this ms w
  = match Sample.cycles a this ms w with
    | Some (ms1, w1) => Sample.cycles b this ms1 w1
    | None => None
    end.
Proof.
  revert ms w. induction a as [|a IH]; intros ms w; [done|].
  cbn [Nat.add Sample.cycles]. unfold bind.
  destruct (Sample.cycle this ms w) as [[ms1 w1]|]; [|done]. apply IH.
Qed.

(** X19. [n] update cycles (PreUpdate, Update, PostUpdate) of an active
    entity that owns one [PlayerInputSimulatorComponent(d)], not yet
    updated, its component set staying as it is.  The simulator
    deactivates the entity in the [OnUpdate] phase of cycle [D], the first
    cycle if [d] is at most 1 and cycle [d] otherwise: that cycle has no
    [OnPostUpdate] phase, and the later cycles call no hook.  So after [n]
    cycles a component stored under one key has got [OnPreUpdate] and
    [OnUpdate] [min n D] times each, [OnPostUpdate] [min n (D - 1)] times,
    [OnStart] once at most and [OnRelease] never; the frame counter is
    [min n D], and the entity is inactive if [n] is at least [D].  No
    other entity changes.  (The counter stays below [INT_MAX].) *)
Theorem simulator_stops_the_cycles n d this c sim ms w :
  objects w !! this = Some c →
  m_isActive (managed c) = true →
  one_simulator w this (m_umNameToComp (managed c)) sim →
  ms !! sim = Some (PlayerInputSimulatorComponent.constructor d) →
  (Z.of_nat (n `min` deactivation_cycle d)
   ≤ PlayerInputSimulatorComponent.INT_MAX)%Z →
  ∃ w' evs,
    Sample.cycles n this ms w
    = Some (<[sim := PlayerInputSimulatorComponent.mk d
                       (Z.of_nat (n `min` deactivation_cycle d))]> ms, w') ∧
    trace w' = trace w ++ evs ∧
    (∀ comp, stored_once (m_umNameToComp (managed c)) comp →
       calls_of OnStart comp evs
       = (if m_isCalledUpdate (managed c) then 0 else n `min` 1) ∧
       calls_of OnPreUpdate comp evs = n `min` deactivation_cycle d ∧
       calls_of OnUpdate comp evs = n `min` deactivation_cycle d ∧
       calls_of OnPostUpdate comp evs = n `min` (deactivation_cycle d - 1) ∧
       calls_of OnRelease comp evs = 0) ∧
    objects w' !! this
    = Some (match n with
            | 0 => c
            | S _ =>
                if decide (deactivation_cycle d ≤ n)
                then deactivated
                       (set_managed (set_isCalledUpdate true (managed c)) c)
                else set_managed (set_isCalledUpdate true (managed c)) c
            end) ∧
    ∀ o, o ≠ this → objects w' !! o = objects w !! o.
Proof.
  intros Hc Hon Hone Hst Hmax. unfold deactivation_cycle in *.
  set (D := Z.to_nat (Z.max 1 d)) in *.
  set (c1 := set_managed (set_isCalledUpdate true (managed c)) c).
  destruct (decide (n < D)) as [Hlt|Hge].
  - destruct (Sample_cycles_below this sim d n ms w c 0 Hc Hon Hone Hst)
      as (w' & Hrun & Htr & _ & Hc' & Hf); [lia|lia|].
    eexists w', _. rewrite Nat.min_l by lia. split; [exact Hrun|].
    split; [exact Htr|]. split; [|split; [|exact Hf]].
    + intros comp Honce.
      destruct (cycles_counts n (m_umNameToComp (managed c)) (m_isCalledUpdate (managed c)) comp Honce)
        as (Hstart & Hpre & Hup & Hpost & Hrel).
      split.
      { rewrite Hstart. destruct (m_isCalledUpdate _); [done|].
        destruct n; [done|]. lia. }
      split; [done|]. split; [done|]. split; [|done]. rewrite Hpost. lia.
    + rewrite Hc'. destruct n; [done|]. by rewrite decide_False by lia.
  - assert (1 ≤ D) as HD by lia.
    destruct (Sample_cycles_below this sim d (D - 1) ms w c 0 Hc Hon Hone Hst)
      as (w1 & Hrun1 & Htr1 & Hco1 & Hc1 & Hf1); [lia|lia|].
    set (cA := match D - 1 with 0 => c | S _ => c1 end) in *.
    assert (m_isActive (managed cA) = true) as HonA.
    { subst cA. by destruct (D - 1). }
    assert (m_umNameToComp (managed cA) = (m_umNameToComp (managed c))) as HmA.
    { subst cA. by destruct (D - 1). }
    assert (set_managed (set_isCalledUpdate true (managed cA)) cA = c1) as H1A.
    { subst cA c1. destruct (D - 1); [done|]. by destruct c as [u []]. }
    destruct (Sample_cycle_one_sim this
                (<[sim := PlayerInputSimulatorComponent.mk d (0 + Z.of_nat (D - 1))]> ms)
                w1 cA sim (PlayerInputSimulatorComponent.mk d (0 + Z.of_nat (D - 1)))
                Hc1 HonA)
      as (w2 & Hrun2 & Htr2 & Hco2 & Hc2 & Hf2).
    { rewrite HmA. destruct Hone as (Honce & Hsim & Hrest). split; [done|].
      rewrite Hco1. by split. }
    { apply lookup_insert_eq. }
    { simpl. lia. }
    simpl in Hrun2, Htr2, Hc2.
    rewrite decide_True in Htr2 by lia. rewrite decide_True in Hc2 by lia.
    rewrite H1A in Hc2.
    rewrite insert_insert_eq in Hrun2.
    replace (0 + Z.of_nat (D - 1) + 1)%Z with (Z.of_nat D) in Hrun2 by lia.
    eexists w2, _. rewrite Nat.min_r by lia. split.
    { replace n with ((D - 1) + (1 + (n - D))) by lia.
      rewrite Sample_cycles_app, Hrun1, Sample_cycles_app.
      cbn [Sample.cycles]. unfold bind. rewrite Hrun2. cbn [ret].
      by rewrite (Sample_cycles_inactive (n - D) this _ w2 _ Hc2). }
    split.
    { rewrite Htr2, Htr1, HmA. rewrite app_nil_r, <- !app_assoc. done. }
    split; [|split].
    + intros comp Honce.
      destruct (cycles_counts (D - 1) (m_umNameToComp (managed c)) (m_isCalledUpdate (managed c)) comp Honce)
        as (Hstart & Hpre & Hup & Hpost & Hrel).
      assert (∀ h (A B C P U : list Event),
                calls_of h comp (A ++ B ++ C ++ P ++ U)
                = calls_of h comp (A ++ B) + calls_of h comp C
                  + calls_of h comp P + calls_of h comp U) as Hsplit.
      { intros h A B C P U. rewrite !calls_of_app. lia. }
      rewrite !Hsplit, Hstart, Hpre, Hup, Hpost, Hrel.
      rewrite !calls_of_dispatches by done.
      assert (∀ h, calls_of h comp
                     (if m_isCalledUpdate (managed cA) then []
                      else dispatches OnStart (m_umNameToComp (managed c)))
                   = if decide (h = OnStart)
                     then (if m_isCalledUpdate (managed cA) then 0 else 1)
                     else 0) as HstartA.
      { intros h. destruct (m_isCalledUpdate (managed cA)).
        - by case_decide.
        - by rewrite calls_of_dispatches. }
      rewrite !HstartA.
      assert (m_isCalledUpdate (managed cA)
              = m_isCalledUpdate (managed c) || negb (Nat.eqb (D - 1) 0)) as ->.
      { subst cA. destruct (D - 1); simpl; [by rewrite orb_false_r|].
        by rewrite orb_true_r. }
      repeat split; repeat case_decide; try done;
        destruct (m_isCalledUpdate (managed c)), (D - 1) eqn:HD1; simpl; lia.
    + destruct n; [lia|]. by rewrite decide_True by lia.
    + intros o Hne. by rewrite Hf2, Hf1.
Qed.

(** X1. No sequence of public calls on the entities of a program with
    the sample components changes the name or the number of owners of an
    entity, and none makes or destroys an entity: attaching a component
    adds no owner (the back-reference is weak), and the one hook that acts
    on the core, [PlayerInputSimulatorComponent::OnUpdate], which [Update]
    dispatches, clears an active flag and holds its owner only while it
    runs. *)
Theorem calls_keep_names_and_owners (cs : list (ObjId * Sample.PublicCall))
  ms w ms' w' :
  Sample.run cs ms w = Some (ms', w') →
  ∀ o, identity w' o = identity w o.
Proof.
  revert ms w. induction cs as [|[this p] cs IH]; intros ms w Hrun o.
  - by injection Hrun as _ <-.
  - cbn [Sample.run] in Hrun. unfold bind in Hrun.
    destruct (Sample.call this p ms w) as [[ms1 w1]|] eqn:Hcall; [|done].
    rewrite (IH _ _ Hrun). by eapply Sample_call_identity.
Qed.

End SampleDispatchFacts.

(** ** The further properties on the sample states *)

Lemma sim_setup_reaches :
  sim_setup empty_world = Some (enemy_manager, sim_world).
Proof. vm_compute. reflexivity. Qed.

Lemma owns_nodes_sim : owns_nodes (m_lObjects enemy_manager) sim_world.
Proof.
  split; [apply NoDup_singleton|].
  intros o ->%list_elem_of_singleton%(inj Some). by eexists.
Qed.

(** The sample state of the enemy is one that the code reaches:
    [GenerateObject], [AddComponent<TransformComponent>()], and the caller
    dropping its pointer. *)
Lemma enemy_state_reachable :
  reachable sample_type_name sample_dynamic_cast_ok enemy_manager enemy_world.
Proof.
  eapply (reach_drop _ _ _ _ 0).
  - eapply (reach_call _ _ _ _ 0 (CallAddComponent_typed TTransformComponent)).
    + eapply (reach_GenerateObject _ _ _ _ "Enemy"); [apply reach_new|].
      vm_compute. reflexivity.
    + vm_compute. reflexivity.
  - vm_compute. reflexivity.
  - intros _. vm_compute. discriminate.
  - vm_compute. reflexivity.
Qed.

(** The sample state of the three entities is one that the code reaches,
    by the calls of [trio_setup]. *)
Lemma trio_state_reachable :
  reachable sample_type_name sample_dynamic_cast_ok trio_manager trio_world.
Proof.
  eapply (reach_call _ _ _ _ 0 (CallSetActive false)).
  - eapply (reach_drop _ _ _ _ 1).
    + eapply (reach_drop _ _ _ _ 0).
      * eapply (reach_call _ _ _ _ 1 CallPreUpdate).
        -- eapply (reach_call _ _ _ _ 0 CallPreUpdate).
           ++ eapply (reach_GenerateObject _ _ _ _ EmptyString).
              ** eapply (reach_GenerateObject _ _ _ _ EmptyString).
                 --- eapply (reach_GenerateObject _ _ _ _ EmptyString);
                       [apply reach_new|].
                     vm_compute. reflexivity.
                 --- vm_compute. reflexivity.
              ** vm_compute. reflexivity.
           ++ vm_compute. reflexivity.
        -- vm_compute. reflexivity.
      * vm_compute. reflexivity.
      * intros _. vm_compute. discriminate.
      * vm_compute. reflexivity.
    + vm_compute. reflexivity.
    + intros _. vm_compute. discriminate.
    + vm_compute. reflexivity.
  - vm_compute. reflexivity.
Qed.

(** The three entities through [shared_simulator_calls]: the names and
    the owners stay, and the update of the second entity has deactivated
    the third. *)
Lemma calls_keep_names_and_owners_witness :
  ∃ ms' w',
    Sample.run shared_simulator_calls ∅ trio_world = Some (ms', w') ∧
    (∀ o, identity w' o = identity trio_world o) ∧
    m_isActive <$> (managed <$> objects trio_world !! 2) = Some true ∧
    m_isActive <$> (managed <$> objects w' !! 2) = Some false.
Proof.
  destruct (Sample.run shared_simulator_calls ∅ trio_world)
    as [[ms' w']|] eqn:Hrun.
  - exists ms', w'. split; [reflexivity|]. split.
    + exact (calls_keep_names_and_owners shared_simulator_calls ∅ trio_world
               ms' w' Hrun).
    + vm_compute in Hrun. injection Hrun as _ <-. by split.
  - exfalso. vm_compute in Hrun. discriminate Hrun.
Defined.

(** The component of the sample entity, attached once more under another
    key. *)
Lemma AddComponent_then_GetComponent_witness :
  objects enemy_world !! 0 = Some enemy_cell ∧
  components enemy_world !! 0
  = Some (mkComponentBase TTransformComponent (Some 0)) ∧
  ∃ w1,
    GameObject.AddComponent 0 (Some 0) "again" enemy_world = Some (tt, w1) ∧
    trace w1 = trace enemy_world ∧
    GameObject.GetComponent 0 "again" w1 = Some (Some 0, w1) ∧
    (∀ key', key' ≠ "again"%string →
       GameObject.GetComponent 0 key' w1
       = Some (mjoin (m_umNameToComp (managed enemy_cell) !! key'), w1)) ∧
    GameObject.GetOwner 0 w1 = Some (Some 0, w1) ∧
    GameObject.lock (Some 0) w1 = Some (Some 0, w1).
Proof.
  split; [reflexivity|]. split; [reflexivity|].
  apply (AddComponent_then_GetComponent enemy_world 0 enemy_cell 0
           (mkComponentBase TTransformComponent (Some 0)) "again");
    reflexivity.
Defined.

(** A [RendererComponent] for the sample entity, in its sample state,
    which the code reaches. *)
Lemma AddComponent_typed_then_GetComponent_typed_witness :
  objects enemy_world !! 0 = Some enemy_cell ∧
  sample_dynamic_cast_ok TRendererComponent TRendererComponent = true ∧
  comps_below_mark enemy_world ∧
  ∃ new w1,
    GameObject.AddComponent_typed sample_type_name 0 TRendererComponent
      enemy_world = Some (Some new, w1) ∧
    trace w1 = trace enemy_world ∧
    components enemy_world !! new = None ∧
    components w1 !! new = Some (mkComponentBase TRendererComponent (Some 0)) ∧
    (∀ k, k ≠ new → components w1 !! k = components enemy_world !! k) ∧
    comps_below_mark w1 ∧
    GameObject.GetComponent_typed sample_type_name sample_dynamic_cast_ok
      0 TRendererComponent w1 = Some (Some new, w1) ∧
    GameObject.GetOwner new w1 = Some (Some 0, w1).
Proof.
  assert (comps_below_mark enemy_world) as Hmark.
  { exact (reachable_comps_below_mark sample_type_name sample_dynamic_cast_ok
             enemy_manager enemy_world enemy_state_reachable). }
  split; [reflexivity|]. split; [reflexivity|]. split; [exact Hmark|].
  apply (AddComponent_typed_then_GetComponent_typed sample_type_name
           sample_dynamic_cast_ok enemy_world 0 enemy_cell TRendererComponent);
    [reflexivity|reflexivity|exact Hmark].
Defined.

(** The [TransformComponent] of the sample entity, removed. *)
Lemma RemoveComponent_releases_once_witness :
  objects enemy_world !! 0 = Some enemy_cell ∧
  m_umNameToComp (managed enemy_cell) !! sample_type_name TTransformComponent
  = Some (Some 0) ∧
  ∃ w1,
    GameObject.RemoveComponent 0 (sample_type_name TTransformComponent)
      enemy_world = Some (tt, w1) ∧
    trace w1 = trace enemy_world ++ [(OnRelease, 0)] ∧
    GameObject.GetComponent 0 (sample_type_name TTransformComponent) w1
    = Some (None, w1) ∧
    GameObject.RemoveComponent 0 (sample_type_name TTransformComponent) w1
    = Some (tt, w1) ∧
    GameObject.RemoveComponent_typed sample_type_name 0 TTransformComponent
      enemy_world = Some (tt, w1).
Proof.
  split; [reflexivity|]. split; [reflexivity|].
  destruct (RemoveComponent_releases_once sample_type_name enemy_world 0
              enemy_cell (sample_type_name TTransformComponent) 0
              eq_refl eq_refl)
    as (w1 & Hrun & Htr & Hget & _ & Hagain & Htyped).
  exists w1. split; [exact Hrun|]. split; [exact Htr|]. split; [exact Hget|].
  split; [exact Hagain|]. exact (Htyped TTransformComponent eq_refl).
Defined.



(** The sample entity, which the manager alone owns: its pointer
    dropped. *)
Lemma last_owner_runs_destructor_witness :
  objects enemy_world !! 0 = Some enemy_cell ∧
  use_count enemy_cell = 1%positive ∧
  stored_once (m_umNameToComp (managed enemy_cell)) 0 ∧
  ∃ w1 evs,
    GameObject.shared_ptr_release (Some 0) enemy_world = Some (tt, w1) ∧
    trace w1 = trace enemy_world ++ evs ∧
    evs ≡ₚ dispatches OnRelease (m_umNameToComp (managed enemy_cell)) ∧
    calls_of OnRelease 0 evs = 1 ∧
    objects w1 !! 0 = None ∧
    GameObject.lock (Some 0) w1 = Some (None, w1).
Proof.
  split; [reflexivity|]. split; [reflexivity|].
  split; [apply stored_once_singleton|].
  destruct (last_owner_runs_destructor enemy_world 0 enemy_cell eq_refl)
    as (w1 & evs & Hrun & Htr & _ & Hlast & _).
  destruct (Hlast eq_refl) as (Hevs & Hgone & Hlock & Hcalls).
  exists w1, evs. split; [exact Hrun|]. split; [exact Htr|].
  split; [exact Hevs|]. split; [apply Hcalls, stored_once_singleton|].
  split; [exact Hgone|]. exact Hlock.
Defined.

(** The manager of the three entities, whose index holds the empty name,
    ["1"] and ["2"]: the empty base name, as a literal, gives ["3"]. *)
Lemma CreateObjName_smallest_free_suffix_witness :
  (N.of_nat (S (size (m_umNameToObjPtr trio_manager))) < 2 ^ 64)%N ∧
  sv_data (literal EmptyString) = Some EmptyString ∧
  is_Some (m_umNameToObjPtr trio_manager !! EmptyString) ∧
  ∃ objName,
    ObjectManager.CreateObjName_view trio_manager (literal EmptyString)
    = Some objName ∧
    ∃ k, 1 ≤ k ≤ S (size (m_umNameToObjPtr trio_manager)) ∧
         objName = EmptyString +:+ pretty (N.of_nat k) ∧
         m_umNameToObjPtr trio_manager !! objName = None ∧
         objName ≠ EmptyString.
Proof.
  assert ((N.of_nat (S (size (m_umNameToObjPtr trio_manager))) < 2 ^ 64)%N)
    as Hsize by (vm_compute; reflexivity).
  assert (is_Some (m_umNameToObjPtr trio_manager !! EmptyString)) as Hreg
    by (by eexists).
  split; [exact Hsize|]. split; [reflexivity|]. split; [exact Hreg|].
  destruct (CreateObjName_smallest_free_suffix trio_manager
              (literal EmptyString) EmptyString Hsize eq_refl)
    as (objName & Hname & Hregistered & _).
  destruct (Hregistered Hreg) as (k & Hk & Heq & Hfree & Hne & _).
  exists objName. split; [exact Hname|]. exists k.
  split; [exact Hk|]. split; [exact Heq|]. split; [exact Hfree|]. exact Hne.
Defined.

(** One more entity for the manager of the three entities, and the
    lookups of its name and of the name ["1"]. *)
Lemma GenerateObject_then_GetObject_witness :
  (N.of_nat (S (size (m_umNameToObjPtr trio_manager))) < 2 ^ 64)%N ∧
  manager_ok trio_manager trio_world ∧
  sv_data (literal EmptyString) = Some EmptyString ∧
  ∃ objName r' w',
    ObjectManager.CreateObjName_view trio_manager (literal EmptyString)
    = Some objName ∧
    ObjectManager.GenerateObject_view trio_manager (literal EmptyString)
      trio_world = Some ((Some 3, r'), w') ∧
    objects trio_world !! 3 = None ∧
    m_lObjects r' = [Some 0; Some 1; Some 2; Some 3] ∧
    objects w' !! 3 = Some (mkManaged 2 (mkGameObject false true objName ∅)) ∧
    trace w' = trace trio_world ∧
    ObjectManager.GetObject_view r' (literal objName) w'
    = Some ((Some 3, r'), w') ∧
    ObjectManager.GetObject_view r' (literal "1") w' = Some ((Some 1, r'), w').
Proof.
  assert ((N.of_nat (S (size (m_umNameToObjPtr trio_manager))) < 2 ^ 64)%N)
    as Hsize by (vm_compute; reflexivity).
  assert (manager_ok trio_manager trio_world) as Hok.
  { exact (reachable_manager_ok sample_type_name sample_dynamic_cast_ok
             trio_manager trio_world trio_state_reachable). }
  split; [exact Hsize|]. split; [exact Hok|]. split; [reflexivity|].
  destruct (GenerateObject_then_GetObject trio_manager (literal EmptyString)
              EmptyString trio_world Hsize Hok eq_refl)
    as (objName & r' & w' & Hname & Hgen & Hfresh & _ & Hl & Hnew & _ & Htr
        & Hget & Hother).
  exists objName, r', w'. split; [exact Hname|]. split; [exact Hgen|].
  split; [exact Hfresh|]. split; [exact Hl|]. split; [exact Hnew|].
  split; [exact Htr|].
  assert (objName = "3"%string) as ->.
  { vm_compute in Hname. by injection Hname as <-. }
  split; [apply Hget; reflexivity|].
  destruct (Hother (literal "1") "1"%string eq_refl) as (found & Hold & Hnow);
    [discriminate|].
  vm_compute in Hold. injection Hold as <-. exact Hnow.
Defined.

(** The sample state of the three entities. *)
Lemma reachable_collection_holds_live_entities_witness :
  reachable sample_type_name sample_dynamic_cast_ok trio_manager trio_world ∧
  (None ∉ m_lObjects trio_manager) ∧
  NoDup (m_lObjects trio_manager) ∧
  ∀ sp, sp ∈ m_lObjects trio_manager →
        ∃ o c, sp = Some o ∧ objects trio_world !! o = Some c ∧
               GameObject.lock (Some o) trio_world = Some (Some o, trio_world).
Proof.
  split; [exact trio_state_reachable|].
  exact (reachable_collection_holds_live_entities sample_type_name
           sample_dynamic_cast_ok trio_manager trio_world
           trio_state_reachable).
Defined.

(** The sample state of the three entities, the second of which bears the
    name ["1"]. *)
Lemma reachable_GetObject_finds_named_live_entity_witness :
  reachable sample_type_name sample_dynamic_cast_ok trio_manager trio_world ∧
  sv_data (literal "1") = Some "1"%string ∧
  ∃ found,
    ObjectManager.GetObject_view trio_manager (literal "1") trio_world
    = Some ((found, trio_manager), trio_world) ∧
    ∀ o, found = Some o →
      Some o ∈ m_lObjects trio_manager ∧
      (∃ c, objects trio_world !! o = Some c ∧ m_name (managed c) = "1"%string) ∧
      GameObject.lock (Some o) trio_world = Some (Some o, trio_world) ∧
      ∀ a_name' name',
        sv_data a_name' = Some name' →
        ObjectManager.GetObject_view trio_manager a_name' trio_world
        = Some ((Some o, trio_manager), trio_world) →
        name' = "1"%string.
Proof.
  split; [exact trio_state_reachable|]. split; [reflexivity|].
  exact (reachable_GetObject_finds_named_live_entity sample_type_name
           sample_dynamic_cast_ok trio_manager trio_world (literal "1") "1"
           trio_state_reachable eq_refl).
Defined.


Lemma Update_twice_is_Update_once_witness :
  owns_nodes (m_lObjects trio_manager) trio_world ∧
  ∃ r' w',
    ObjectManager.Update trio_manager trio_world = Some ((tt, r'), w') ∧
    ObjectManager.Update r' w' = Some ((tt, r'), w').
Proof.
  split; [apply owns_nodes_trio|].
  exact (Update_twice_is_Update_once trio_manager trio_world owns_nodes_trio).
Defined.

(** The three entities: the first two are destroyed, the third one, which
    the caller holds, stays with one owner. *)
Lemma ReleaseAllObjects_drops_every_node_witness :
  owns_nodes (m_lObjects trio_manager) trio_world ∧
  ∃ w' evs,
    ObjectManager.ReleaseAllObjects trio_manager trio_world
    = Some ((tt, empty_manager), w') ∧
    trace w' = trace trio_world ++ evs ∧
    evs ≡ₚ m_lObjects trio_manager ≫= drop_events trio_world ∧
    objects w' !! 0 = None ∧
    objects w' !! 1 = None ∧
    objects w' !! 2 = Some (mkManaged 1 (mkGameObject false true "2" ∅)).
Proof.
  split; [apply owns_nodes_trio|].
  destruct (ReleaseAllObjects_drops_every_node trio_manager trio_world
              owns_nodes_trio)
    as (w' & evs & Hrun & Htr & Hevs & Hnodes & _).
  exists w', evs. split; [exact Hrun|]. split; [exact Htr|].
  split; [exact Hevs|].
  split; [|split].
  - refine (proj1 (proj1 (Hnodes 0 _ _ eq_refl) eq_refl)). left.
  - refine (proj1 (proj1 (Hnodes 1 _ _ eq_refl) eq_refl)). right. left.
  - refine (proj1 (proj2 (Hnodes 2 _ _ eq_refl) _)).
    + right. right. left.
    + discriminate.
Defined.

(** The entity with the simulator: three calls with the frame 2. *)
Lemma OnUpdate_deactivates_owner_from_frame_witness :
  components sim_world !! 0
  = Some (mkComponentBase TPlayerInputSimulatorComponent (Some 0)) ∧
  objects sim_world !! 0 = Some sim_cell ∧
  (Z.of_nat 3 ≤ PlayerInputSimulatorComponent.INT_MAX)%Z ∧
  ∃ w',
    PlayerInputSimulatorComponent.OnUpdate_times 3 0
      (PlayerInputSimulatorComponent.constructor 2) sim_world
    = Some (PlayerInputSimulatorComponent.mk 2 3, w') ∧
    components w' = components sim_world ∧
    trace w' = trace sim_world ∧
    objects w' !! 0 = Some (deactivated sim_cell).
Proof.
  assert ((Z.of_nat 3 ≤ PlayerInputSimulatorComponent.INT_MAX)%Z) as Hmax
    by (vm_compute; discriminate).
  split; [reflexivity|]. split; [reflexivity|]. split; [exact Hmax|].
  destruct (OnUpdate_deactivates_owner_from_frame 3 2 0
              (mkComponentBase TPlayerInputSimulatorComponent (Some 0))
              0 sim_cell sim_world eq_refl eq_refl eq_refl Hmax)
    as (w' & Hrun & Hcomp & Htr & Hobj & _).
  exists w'. split; [exact Hrun|]. split; [exact Hcomp|]. split; [exact Htr|].
  exact Hobj.
Defined.

Lemma one_simulator_sim :
  one_simulator sim_world 0 (m_umNameToComp (managed sim_cell)) 0.
Proof.
  split; [apply stored_once_singleton|]. split; [reflexivity|].
  intros key comp Hk Hne. simpl in Hk.
  apply lookup_singleton_Some in Hk as [_ [= <-]]. done.
Qed.

(** The entity with the simulator, made with the frame 2, through five
    cycles: the second one ends after its [OnUpdate] phase. *)
Lemma simulator_stops_the_cycles_witness :
  objects sim_world !! 0 = Some sim_cell ∧
  m_isActive (managed sim_cell) = true ∧
  one_simulator sim_world 0 (m_umNameToComp (managed sim_cell)) 0 ∧
  ({[ 0 := PlayerInputSimulatorComponent.constructor 2 ]} : Sample.Members) !! 0
  = Some (PlayerInputSimulatorComponent.constructor 2) ∧
  (Z.of_nat (5 `min` deactivation_cycle 2)
   ≤ PlayerInputSimulatorComponent.INT_MAX)%Z ∧
  ∃ w' evs,
    Sample.cycles 5 0 {[ 0 := PlayerInputSimulatorComponent.constructor 2 ]}
      sim_world
    = Some ({[ 0 := PlayerInputSimulatorComponent.mk 2 2 ]}, w') ∧
    trace w' = trace sim_world ++ evs ∧
    calls_of OnStart 0 evs = 1 ∧
    calls_of OnPreUpdate 0 evs = 2 ∧
    calls_of OnUpdate 0 evs = 2 ∧
    calls_of OnPostUpdate 0 evs = 1 ∧
    calls_of OnRelease 0 evs = 0 ∧
    m_isActive <$> (managed <$> objects w' !! 0) = Some false.
Proof.
  assert ((Z.of_nat (5 `min` deactivation_cycle 2)
           ≤ PlayerInputSimulatorComponent.INT_MAX)%Z) as Hmax
    by (vm_compute; discriminate).
  assert (({[ 0 := PlayerInputSimulatorComponent.constructor 2 ]}
           : Sample.Members) !! 0
          = Some (PlayerInputSimulatorComponent.constructor 2)) as Hms
    by reflexivity.
  split; [reflexivity|]. split; [reflexivity|].
  split; [apply one_simulator_sim|]. split; [exact Hms|].
  split; [exact Hmax|].
  destruct (simulator_stops_the_cycles 5 2 0 sim_cell 0 _ sim_world
              eq_refl eq_refl one_simulator_sim Hms Hmax)
    as (w' & evs & Hrun & Htr & Hcalls & Hobj & _).
  destruct (Hcalls 0 (stored_once_singleton _ 0))
    as (Hstart & Hpre & Hup & Hpost & Hrel).
  exists w', evs. split.
  { rewrite Hrun. f_equal. }
  split; [exact Htr|]. split; [exact Hstart|]. split; [exact Hpre|].
  split; [exact Hup|]. split; [exact Hpost|]. split; [exact Hrel|].
  by rewrite Hobj.
Defined.

(** The simulator after its entity is gone. *)
Lemma OnUpdate_without_owner_only_counts_witness :
  components (set_objects (delete 0) sim_world) !! 0
  = Some (mkComponentBase TPlayerInputSimulatorComponent (Some 0)) ∧
  GameObject.lock (Some 0) (set_objects (delete 0) sim_world)
  = Some (None, set_objects (delete 0) sim_world) ∧
  PlayerInputSimulatorComponent.OnUpdate 0
    (PlayerInputSimulatorComponent.constructor 0)
    (set_objects (delete 0) sim_world)
  = Some (PlayerInputSimulatorComponent.mk 0 1,
          set_objects (delete 0) sim_world).
Proof.
  split; [reflexivity|]. split; [reflexivity|].
  apply (OnUpdate_without_owner_only_counts 0
           (PlayerInputSimulatorComponent.constructor 0)
           (set_objects (delete 0) sim_world)
           (mkComponentBase TPlayerInputSimulatorComponent (Some 0)));
    [reflexivity|reflexivity|vm_compute; reflexivity].
Defined.

(** The entity with the simulator, which the caller still holds: three
    calls with the frame 2, and the manager's update. *)
Lemma simulator_gets_owner_reclaimed_witness :
  owns_nodes (m_lObjects enemy_manager) sim_world ∧
  Some 0 ∈ m_lObjects enemy_manager ∧
  components sim_world !! 0
  = Some (mkComponentBase TPlayerInputSimulatorComponent (Some 0)) ∧
  objects sim_world !! 0 = Some sim_cell ∧
  ∃ st w1 r' w',
    PlayerInputSimulatorComponent.OnUpdate_times 3 0
      (PlayerInputSimulatorComponent.constructor 2) sim_world = Some (st, w1) ∧
    ObjectManager.Update enemy_manager w1 = Some ((tt, r'), w') ∧
    (Some 0 ∉ m_lObjects r') ∧
    ObjectManager.GetObject r' (m_name (managed sim_cell)) w'
    = Some ((None, r'), w') ∧
    objects w' !! 0
    = Some (mkManaged 1 (set_isActive false (managed sim_cell))).
Proof.
  assert ((Z.of_nat 3 ≤ PlayerInputSimulatorComponent.INT_MAX)%Z) as Hmax
    by (vm_compute; discriminate).
  split; [apply owns_nodes_sim|]. split; [left|]. split; [reflexivity|].
  split; [reflexivity|].
  destruct (simulator_gets_owner_reclaimed 3 2 0
              (mkComponentBase TPlayerInputSimulatorComponent (Some 0))
              0 sim_cell enemy_manager sim_world owns_nodes_sim
              (list_elem_of_here (Some 0) []) eq_refl eq_refl eq_refl Hmax)
    as (st & w1 & r' & w' & Hrun & Hup & Hgone & Hget & _ & Hheld); [lia|lia|].
  exists st, w1, r', w'. split; [exact Hrun|]. split; [exact Hup|].
  split; [exact Hgone|]. split; [exact Hget|].
  apply Hheld. discriminate.
Defined.
